(** * Link analysis (lib/linkAnalysis.ts): a shallow embedding

    The module under study turns a block of text, one candidate link per
    line, into a report: every line is trimmed, normalised into a candidate
    absolute URL, optionally deduplicated, parsed with the platform's [URL]
    class and tallied.

    JavaScript strings are sequences of UTF-16 code units and are modelled
    as lists of code units.  What the source leaves to the JavaScript host
    (identifiers, the clock, Unicode tables, the wording of error messages)
    is gathered in the record [Host]; effects are threaded through a small
    state monad that counts the reads of the host's oracles. *)

From Stdlib Require Import List Bool Arith NArith ZArith Lia String Ascii Floats Uint63.
From Stdlib Require Import DecimalString DecimalPos DecimalZ.
From Stdlib Require Import Sorted Permutation.
Import ListNotations.

Set Implicit Arguments.

(** ** JavaScript strings *)

Module JS.

(** A code unit.  Only values below 2^16 occur in a real string; every
    definition below is total on [N], so nothing depends on the bound. *)
Definition unit16 := N.
Definition jsstring := list unit16.

(** The string written by an ASCII literal. *)
Definition js (s : string) : jsstring :=
  map N_of_ascii (list_ascii_of_string s).

Definition str_eqb (a b : jsstring) : bool :=
  if list_eq_dec N.eq_dec a b then true else false.

(** [WhiteSpace] and [LineTerminator] of ECMA-262: what
    [String.prototype.trim] removes. *)
Definition isWhiteSpace (c : unit16) : bool :=
  ((9 <=? c) && (c <=? 13)          (* TAB LF VT FF CR *)
   || (c =? 32)                      (* SPACE *)
   || (c =? 160)                     (* NO-BREAK SPACE *)
   || (c =? 5760)                    (* U+1680 *)
   || ((8192 <=? c) && (c <=? 8202)) (* U+2000 .. U+200A *)
   || (c =? 8232) || (c =? 8233)     (* U+2028, U+2029 *)
   || (c =? 8239)                    (* U+202F *)
   || (c =? 8287)                    (* U+205F *)
   || (c =? 12288)                   (* U+3000 *)
   || (c =? 65279))%N.               (* U+FEFF *)

Fixpoint dropWhile (A : Type) (f : A -> bool) (l : list A) : list A :=
  match l with
  | [] => []
  | x :: t => if f x then dropWhile f t else l
  end.

Definition trimStart (s : jsstring) : jsstring := dropWhile isWhiteSpace s.
Definition trimEnd (s : jsstring) : jsstring :=
  rev (dropWhile isWhiteSpace (rev s)).

(** [s.trim()] *)
Definition trim (s : jsstring) : jsstring := trimEnd (trimStart s).

Fixpoint startsWith (s p : jsstring) : bool :=
  match p, s with
  | [], _ => true
  | _ :: _, [] => false
  | a :: p', b :: s' => (a =? b)%N && startsWith s' p'
  end.

Definition isUpper (c : unit16) : bool := ((65 <=? c) && (c <=? 90))%N.
Definition isLower (c : unit16) : bool := ((97 <=? c) && (c <=? 122))%N.
Definition isAlpha (c : unit16) : bool := isUpper c || isLower c.
Definition isDigit (c : unit16) : bool := ((48 <=? c) && (c <=? 57))%N.
Definition isAscii (c : unit16) : bool := (c <? 128)%N.

Definition asciiLower (c : unit16) : unit16 :=
  if isUpper c then (c + 32)%N else c.

(** [s.split(sep)] for a separator of one code unit: the pieces between the
    occurrences of [sep]; a string without [sep] (the empty one too) gives
    one piece. *)
Fixpoint splitOn (sep : unit16) (s : jsstring) : list jsstring :=
  match s with
  | [] => [[]]
  | c :: t =>
      if (c =? sep)%N then [] :: splitOn sep t
      else match splitOn sep t with
           | [] => [[c]]
           | p :: ps => (c :: p) :: ps
           end
  end.

(** [input.split(/\r?\n/g)].  The pattern never matches the empty string, so
    the pieces are what lies between the matches found from left to right;
    at a CR followed by LF the match takes both, a lone CR is no
    separator. *)
Fixpoint splitLinesFrom (cur : jsstring) (s : jsstring) : list jsstring :=
  match s with
  | [] => [rev cur]
  | c :: t =>
      if (c =? 10)%N then rev cur :: splitLinesFrom [] t
      else
        match t with
        | d :: t' =>
            if ((c =? 13) && (d =? 10))%N
            then rev cur :: splitLinesFrom [] t'
            else splitLinesFrom (c :: cur) t
        | [] => splitLinesFrom (c :: cur) t
        end
  end.

Definition splitLines (s : jsstring) : list jsstring := splitLinesFrom [] s.

(** The code unit of an ASCII character. *)
Definition ch (a : ascii) : unit16 := N_of_ascii a.

(** [String(n)] for an integral number [n]: its decimal digits. *)
Definition decimal (z : Z) : jsstring :=
  js (DecimalString.NilZero.string_of_int (Z.to_int z)).

End JS.
Import JS.

(** ** The platform's URL parser

    [new URL(s)] is the WHATWG URL parser run without a base URL: it either
    yields a URL record or fails, and the constructor then throws a
    [TypeError].  The parser works on code points; the states below are the
    standard's, written as functions on the input that is left.  Components
    the module never reads (username, password) are parsed and dropped. *)

Module Url.

Definition codepoint := N.

(** Conversion of a JavaScript string to scalar values: a surrogate pair is
    one code point, a lone surrogate becomes U+FFFD. *)
Definition isHighSurrogate (c : N) : bool := ((55296 <=? c) && (c <=? 56319))%N.
Definition isLowSurrogate (c : N) : bool := ((56320 <=? c) && (c <=? 57343))%N.

Fixpoint toCodePoints (s : jsstring) : list codepoint :=
  match s with
  | [] => []
  | c :: t =>
      if isHighSurrogate c then
        match t with
        | d :: t' =>
            if isLowSurrogate d
            then (65536 + (c - 55296) * 1024 + (d - 56320))%N :: toCodePoints t'
            else 65533%N :: toCodePoints t
        | [] => 65533%N :: toCodePoints t
        end
      else if isLowSurrogate c then 65533%N :: toCodePoints t
      else c :: toCodePoints t
  end.

(** UTF-8 bytes of a scalar value. *)
Definition utf8 (c : codepoint) : list N :=
  (if c <? 128 then [c]
   else if c <? 2048 then [192 + c / 64; 128 + c mod 64]
   else if c <? 65536 then [224 + c / 4096; 128 + (c / 64) mod 64; 128 + c mod 64]
   else [240 + c / 262144; 128 + (c / 4096) mod 64; 128 + (c / 64) mod 64;
         128 + c mod 64])%N.

Definition hexDigitUpper (d : N) : N := (if d <? 10 then 48 + d else 55 + d)%N.
Definition hexDigitLower (d : N) : N := (if d <? 10 then 48 + d else 87 + d)%N.

Definition percentEncodeByte (b : N) : list N :=
  [ch "%"; hexDigitUpper (b / 16); hexDigitUpper (b mod 16)]%N.

Definition utf8PercentEncode (inSet : codepoint -> bool) (c : codepoint) : list N :=
  if inSet c then flat_map percentEncodeByte (utf8 c) else [c].

Definition isOneOf (l : list N) (c : N) : bool := existsb (N.eqb c) l.

(** The percent-encode sets. *)
Definition c0ControlSet (c : codepoint) : bool := ((c <=? 31) || (126 <? c))%N.
Definition fragmentSet (c : codepoint) : bool :=
  c0ControlSet c || isOneOf [ch " "; 34; ch "<"; ch ">"; ch "`"]%N c.
Definition querySet (c : codepoint) : bool :=
  c0ControlSet c || isOneOf [ch " "; 34; ch "#"; ch "<"; ch ">"]%N c.
Definition specialQuerySet (c : codepoint) : bool :=
  querySet c || (c =? ch "'")%N.
Definition pathSet (c : codepoint) : bool :=
  querySet c || isOneOf [ch "?"; ch "^"; ch "`"; ch "{"; ch "}"] c.

Definition hexValue (c : N) : option N :=
  (if isDigit c then Some (c - 48)
   else if (65 <=? c) && (c <=? 70) then Some (c - 55)
   else if (97 <=? c) && (c <=? 102) then Some (c - 87)
   else None)%N.

(** Percent-decoding of a byte sequence. *)
Fixpoint percentDecode (bs : list N) : list N :=
  match bs with
  | [] => []
  | b :: t =>
      if (b =? ch "%")%N then
        match t with
        | x :: t1 =>
            match t1 with
            | y :: t2 =>
                match hexValue x, hexValue y with
                | Some hx, Some hy => (hx * 16 + hy)%N :: percentDecode t2
                | _, _ => b :: percentDecode t
                end
            | [] => b :: percentDecode t
            end
        | [] => b :: percentDecode t
        end
      else b :: percentDecode t
  end.

(** Hosts and paths of a URL record. *)
Inductive HostValue :=
| Domain (d : list N)
| IPv4 (address : N)
| IPv6 (pieces : list N)
| OpaqueHost (h : list N)
| EmptyHost.

Inductive PathValue :=
| OpaquePath (p : list N)
| ListPath (segments : list (list N)).

Record URLRecord := mkURL {
  scheme : list N;
  host : option HostValue;
  port : option N;
  path : PathValue;
  query : option (list N);
  fragment : option (list N)
}.

Definition specialSchemes : list jsstring :=
  [js "ftp"; js "file"; js "http"; js "https"; js "ws"; js "wss"].

Definition isSpecial (sch : list N) : bool := existsb (str_eqb sch) specialSchemes.

Definition defaultPort (sch : list N) : option N :=
  if str_eqb sch (js "ftp") then Some 21%N
  else if str_eqb sch (js "http") || str_eqb sch (js "ws") then Some 80%N
  else if str_eqb sch (js "https") || str_eqb sch (js "wss") then Some 443%N
  else None.

(** *** Host parsing *)

Definition forbiddenHostCodePoint (c : codepoint) : bool :=
  isOneOf [0; 9; 10; 13; ch " "; ch "#"; ch "/"; ch ":"; ch "<"; ch ">"; ch "?";
           ch "@"; ch "["; 92; ch "]"; ch "^"; ch "|"]%N c.

Definition forbiddenDomainCodePoint (c : codepoint) : bool :=
  forbiddenHostCodePoint c || (c <=? 31)%N || (c =? ch "%")%N || (c =? 127)%N.

Definition isOctalDigit (c : N) : bool := ((48 <=? c) && (c <=? 55))%N.
Definition isHexDigit (c : N) : bool :=
  match hexValue c with Some _ => true | None => false end.

(** The number written by [ds] in radix [r] (digits already checked). *)
Definition radixValue (r : N) (ds : list N) : N :=
  fold_left (fun acc d => match hexValue d with
                          | Some v => acc * r + v
                          | None => acc
                          end)%N ds 0%N.

(** The IPv4 number parser. *)
Definition parseIPv4Number (s : list N) : option N :=
  match s with
  | [] => None
  | c0 :: rest =>
      let '(r, ds, ok) :=
        match rest with
        | c1 :: t =>
            if (c0 =? ch "0")%N && ((c1 =? ch "x") || (c1 =? ch "X"))%N
            then (16%N, t, isHexDigit)
            else if (c0 =? ch "0")%N then (8%N, rest, isOctalDigit)
            else (10%N, s, isDigit)
        | [] => (10%N, s, isDigit)
        end in
      match ds with
      | [] => Some 0%N
      | _ => if forallb ok ds then Some (radixValue r ds) else None
      end
  end.

(** Strict split on ["."], without a last empty item when there is more than
    one item. *)
Definition dropLastEmpty (parts : list (list N)) : list (list N) :=
  match rev parts with
  | [] :: ((_ :: _) as others) => rev others
  | _ => parts
  end.

Definition endsInANumber (s : list N) : bool :=
  let parts := splitOn (ch ".") s in
  match rev parts with
  | [] :: [] => false
  | _ =>
      match rev (dropLastEmpty parts) with
      | last :: _ =>
          (match last with [] => false | _ => forallb isDigit last end)
          || (match parseIPv4Number last with Some _ => true | None => false end)
      | [] => false
      end
  end.

Fixpoint traverse (A B : Type) (f : A -> option B) (l : list A) : option (list B) :=
  match l with
  | [] => Some []
  | x :: t =>
      match f x, traverse f t with
      | Some y, Some ys => Some (y :: ys)
      | _, _ => None
      end
  end.

(** The IPv4 parser. *)
Definition parseIPv4 (s : list N) : option N :=
  let parts := dropLastEmpty (splitOn (ch ".") s) in
  if (4 <? List.length parts)%nat then None
  else
    match traverse parseIPv4Number parts with
    | None => None
    | Some numbers =>
        match rev numbers with
        | [] => None
        | last :: initRev =>
            if existsb (fun n => 255 <? n)%N initRev then None
            else if (256 ^ (5 - N.of_nat (List.length numbers)) <=? last)%N then None
            else
              Some (fst (fold_left
                           (fun '(ipv4, counter) n =>
                              (ipv4 + n * 256 ^ (3 - counter), counter + 1))%N
                           (rev initRev) (last, 0%N)))
        end
    end.

Definition serializeIPv4 (a : N) : list N :=
  (decimal (Z.of_N (a / 16777216)) ++ [ch "."]
   ++ decimal (Z.of_N ((a / 65536) mod 256)) ++ [ch "."]
   ++ decimal (Z.of_N ((a / 256) mod 256)) ++ [ch "."]
   ++ decimal (Z.of_N (a mod 256)))%N.

(** The IPv6 parser.  [address] has eight pieces; [pieceIndex] and
    [compress] are the standard's variables. *)
Fixpoint setPiece (i : nat) (v : N) (a : list N) : list N :=
  match a, i with
  | [], _ => []
  | _ :: t, O => v :: t
  | x :: t, S j => x :: setPiece j v t
  end.

Definition getPiece (i : nat) (a : list N) : N := nth i a 0%N.

(** Up to [n] hexadecimal digits: their value, how many were read, and the
    input left. *)
Fixpoint readHex (n : nat) (value : N) (len : nat) (r : list N) : N * nat * list N :=
  match n, r with
  | S m, c :: t =>
      match hexValue c with
      | Some v => readHex m (value * 16 + v)%N (S len) t
      | None => (value, len, r)
      end
  | _, _ => (value, len, r)
  end.

(** The digits of one part of a dotted-decimal tail; [None] on a leading
    zero followed by more digits or a value above 255. *)
Fixpoint readIPv4Piece (piece : option N) (r : list N) : option (option N * list N) :=
  match r with
  | c :: t =>
      if isDigit c then
        let number := (c - 48)%N in
        match piece with
        | None => readIPv4Piece (Some number) t
        | Some 0%N => None
        | Some p =>
            let p' := (p * 10 + number)%N in
            if (255 <? p')%N then None else readIPv4Piece (Some p') t
        end
      else Some (piece, r)
  | [] => Some (piece, r)
  end.

Fixpoint ipv4InIPv6 (fuel : nat) (address : list N) (pieceIndex numbersSeen : nat)
         (r : list N) : option (list N * nat) :=
  match fuel with
  | O => None
  | S f =>
      match r with
      | [] => if (numbersSeen =? 4)%nat then Some (address, pieceIndex) else None
      | c :: t =>
          let afterDot :=
            if (0 <? numbersSeen)%nat then
              if (c =? ch ".")%N && (numbersSeen <? 4)%nat then Some t else None
            else Some r in
          match afterDot with
          | None => None
          | Some r1 =>
              match r1 with
              | d :: _ =>
                  if isDigit d then
                    match readIPv4Piece None r1 with
                    | Some (Some p, r2) =>
                        let address' :=
                          setPiece pieceIndex (getPiece pieceIndex address * 256 + p)%N
                                   address in
                        let seen := S numbersSeen in
                        let pieceIndex' :=
                          if (seen =? 2)%nat || (seen =? 4)%nat
                          then S pieceIndex else pieceIndex in
                        ipv4InIPv6 f address' pieceIndex' seen r2
                    | _ => None
                    end
                  else None
              | [] => None
              end
          end
      end
  end.

Fixpoint ipv6Loop (fuel : nat) (address : list N) (pieceIndex : nat)
         (compress : option nat) (r : list N) : option (list N * nat * option nat) :=
  match fuel with
  | O => None
  | S f =>
      match r with
      | [] => Some (address, pieceIndex, compress)
      | c :: t =>
          if (pieceIndex =? 8)%nat then None
          else if (c =? ch ":")%N then
            match compress with
            | Some _ => None
            | None => ipv6Loop f address (S pieceIndex) (Some (S pieceIndex)) t
            end
          else
            let '(value, len, r1) := readHex 4 0%N 0 r in
            match r1 with
            | [] => Some (setPiece pieceIndex value address, S pieceIndex, compress)
            | d :: t1 =>
                if (d =? ch ".")%N then
                  if (len =? 0)%nat then None
                  else if (6 <? pieceIndex)%nat then None
                  else
                    match ipv4InIPv6 (S (List.length r)) address pieceIndex 0 r with
                    | Some (address', pieceIndex') => Some (address', pieceIndex', compress)
                    | None => None
                    end
                else if (d =? ch ":")%N then
                  match t1 with
                  | [] => None
                  | _ :: _ => ipv6Loop f (setPiece pieceIndex value address)
                                       (S pieceIndex) compress t1
                  end
                else None
            end
      end
  end.

Definition swapPieces (i j : nat) (a : list N) : list N :=
  setPiece j (getPiece i a) (setPiece i (getPiece j a) a).

Fixpoint compressSwaps (swaps pieceIndex compress : nat) (a : list N) : list N :=
  match swaps with
  | O => a
  | S k =>
      if (pieceIndex =? 0)%nat then a
      else compressSwaps k (pieceIndex - 1) compress
                         (swapPieces pieceIndex (compress + swaps - 1) a)
  end.

Definition parseIPv6 (s : list N) : option (list N) :=
  let zero := repeat 0%N 8 in
  let start :=
    match s with
    | c :: t =>
        if (c =? ch ":")%N then
          match t with
          | d :: t' => if (d =? ch ":")%N then Some (1, Some 1, t') else None
          | [] => None
          end
        else Some (0, None, s)
    | [] => Some (0, None, s)
    end in
  match start with
  | None => None
  | Some (pieceIndex, compress, r) =>
      match ipv6Loop (S (List.length r)) zero pieceIndex compress r with
      | None => None
      | Some (address, pieceIndex', compress') =>
          match compress' with
          | Some cp => Some (compressSwaps (pieceIndex' - cp) 7 cp address)
          | None => if (pieceIndex' =? 8)%nat then Some address else None
          end
      end
  end.

(** The IPv6 serializer: the first longest run of two or more zero pieces
    is written ["::"], the pieces in lowercase hexadecimal. *)
Fixpoint zeroRun (a : list N) : nat :=
  match a with
  | x :: t => if (x =? 0)%N then S (zeroRun t) else O
  | [] => O
  end.

Fixpoint longestZeroRun (i : nat) (a : list N) (best : option (nat * nat))
  : option (nat * nat) :=
  match a with
  | [] => best
  | _ :: t =>
      let n := zeroRun a in
      let best' :=
        match best with
        | Some (_, m) => if (m <? n)%nat then Some (i, n) else best
        | None => if (1 <? n)%nat then Some (i, n) else None
        end in
      longestZeroRun (S i) t best'
  end.

Fixpoint hexDigits (fuel : nat) (n : N) (acc : list N) : list N :=
  match fuel with
  | O => acc
  | S f =>
      let acc' := hexDigitLower (n mod 16) :: acc in
      if (n / 16 =? 0)%N then acc' else hexDigits f (n / 16)%N acc'
  end.

Fixpoint serializeIPv6From (i : nat) (compress : option nat) (ignore0 : bool)
         (a : list N) : list N :=
  match a with
  | [] => []
  | x :: t =>
      if ignore0 && (x =? 0)%N then serializeIPv6From (S i) compress true t
      else if match compress with Some c => (c =? i)%nat | None => false end then
        (if (i =? 0)%nat then [ch ":"; ch ":"] else [ch ":"])
          ++ serializeIPv6From (S i) compress true t
      else
        hexDigits 16 x [] ++ (if (i =? 7)%nat then [] else [ch ":"])
          ++ serializeIPv6From (S i) compress false t
  end.

Definition serializeIPv6 (a : list N) : list N :=
  serializeIPv6From 0 (option_map fst (longestZeroRun 0 a None)) false a.

(** The opaque-host parser. *)
Definition parseOpaqueHost (s : list codepoint) : option HostValue :=
  if existsb forbiddenHostCodePoint s then None
  else Some (OpaqueHost (flat_map (utf8PercentEncode c0ControlSet) s)).

Definition startsWithXn (label : list N) : bool :=
  startsWith (map asciiLower label) (js "xn--").

Section HostParser.

(** Unicode ToASCII (UTS #46, non-strict) of a percent-decoded host given as
    UTF-8 bytes: the platform's IDNA tables, consulted only for hosts that
    are not plain ASCII or have an ["xn--"] label. *)
Variable domainToASCII_unicode : list N -> option (list N).

(** Domain to ASCII: on an ASCII domain without ["xn--"] labels it is ASCII
    lowercasing; an empty result is a failure. *)
Definition domainToASCII (bytes : list N) : option (list N) :=
  let result :=
    if forallb isAscii bytes
       && negb (existsb startsWithXn (splitOn (ch ".") bytes))
    then Some (map asciiLower bytes)
    else domainToASCII_unicode bytes in
  match result with
  | Some [] => None
  | r => r
  end.

(** The host parser. *)
Definition parseHost (input : list codepoint) (isOpaque : bool) : option HostValue :=
  match input with
  | c :: t =>
      if (c =? ch "[")%N then
        match rev t with
        | d :: innerRev =>
            if (d =? ch "]")%N then option_map IPv6 (parseIPv6 (rev innerRev))
            else None
        | [] => None
        end
      else if isOpaque then parseOpaqueHost input
      else
        match domainToASCII (percentDecode (flat_map utf8 input)) with
        | None => None
        | Some asciiDomain =>
            if existsb forbiddenDomainCodePoint asciiDomain then None
            else if endsInANumber asciiDomain
                 then option_map IPv4 (parseIPv4 asciiDomain)
                 else Some (Domain asciiDomain)
        end
  | [] => if isOpaque then parseOpaqueHost input else None
  end.

End HostParser.

Definition serializeHost (h : HostValue) : list N :=
  match h with
  | Domain d => d
  | IPv4 a => serializeIPv4 a
  | IPv6 a => [ch "["] ++ serializeIPv6 a ++ [ch "]"]
  | OpaqueHost o => o
  | EmptyHost => []
  end.

(** *** The parser's states *)

(** What the states after the authority produce. *)
Record Tail := mkTail {
  t_path : PathValue;
  t_query : option (list N);
  t_fragment : option (list N)
}.

(** The input up to the first code point satisfying [f], and the rest. *)
Fixpoint breakAt (f : N -> bool) (l : list N) : list N * list N :=
  match l with
  | [] => ([], [])
  | c :: t => if f c then ([], l) else let '(a, b) := breakAt f t in (c :: a, b)
  end.

Definition isSlash (c : N) : bool := (c =? ch "/")%N || (c =? 92)%N.

(** End of the authority, host and port: EOF (the empty input), ["/"],
    ["?"], ["#"], and the backslash in a special URL. *)
Definition endsAuthority (special : bool) (c : N) : bool :=
  (c =? ch "/")%N || (c =? ch "?")%N || (c =? ch "#")%N || (special && (c =? 92)%N).

(** Fragment state. *)
Definition fragmentState (r : list N) : list N :=
  flat_map (utf8PercentEncode fragmentSet) r.

(** Query state: the query, and the fragment when a ["#"] follows. *)
Definition queryState (special : bool) (r : list N) : list N * option (list N) :=
  let '(buffer, rest) := breakAt (fun c => c =? ch "#")%N r in
  (flat_map (utf8PercentEncode (if special then specialQuerySet else querySet)) buffer,
   match rest with
   | [] => None
   | _ :: t => Some (fragmentState t)
   end).

Definition isSingleDot (b : list N) : bool :=
  let l := map asciiLower b in
  str_eqb l (js ".") || str_eqb l (js "%2e").

Definition isDoubleDot (b : list N) : bool :=
  let l := map asciiLower b in
  str_eqb l (js "..") || str_eqb l (js ".%2e")
  || str_eqb l (js "%2e.") || str_eqb l (js "%2e%2e").

Definition isWindowsDriveLetter (b : list N) : bool :=
  match b with
  | [a; c] => isAlpha a && ((c =? ch ":") || (c =? ch "|"))%N
  | _ => false
  end.

Definition isNormalizedWindowsDriveLetter (b : list N) : bool :=
  match b with
  | [a; c] => isAlpha a && (c =? ch ":")%N
  | _ => false
  end.

Definition shortenPath (isFile : bool) (p : list (list N)) : list (list N) :=
  match p with
  | [seg] => if isFile && isNormalizedWindowsDriveLetter seg then p else removelast p
  | _ => removelast p
  end.

(** What path state does with [buffer] at the end of a segment; [slash]
    tells whether the segment ended at a slash. *)
Definition endSegment (isFile slash : bool) (p : list (list N)) (buffer : list N)
  : list (list N) :=
  if isDoubleDot buffer then
    let p' := shortenPath isFile p in
    if slash then p' else p' ++ [[]]
  else if isSingleDot buffer then
    if slash then p else p ++ [[]]
  else
    let seg :=
      match p, buffer with
      | [], [a; _] =>
          if isFile && isWindowsDriveLetter buffer then [a; ch ":"] else buffer
      | _, _ => buffer
      end in
    p ++ [seg].

(** Path state. *)
Fixpoint pathState (special isFile : bool) (p : list (list N)) (buffer r : list N)
  : Tail :=
  match r with
  | [] => mkTail (ListPath (endSegment isFile false p buffer)) None None
  | c :: t =>
      if (c =? ch "/")%N || (special && (c =? 92)%N) then
        pathState special isFile (endSegment isFile true p buffer) [] t
      else if (c =? ch "?")%N then
        let '(q, f) := queryState special t in
        mkTail (ListPath (endSegment isFile false p buffer)) (Some q) f
      else if (c =? ch "#")%N then
        mkTail (ListPath (endSegment isFile false p buffer)) None
               (Some (fragmentState t))
      else
        pathState special isFile p (buffer ++ utf8PercentEncode pathSet c) t
  end.

(** Path start state. *)
Definition pathStartState (special isFile : bool) (r : list N) : Tail :=
  match r with
  | [] =>
      if special then pathState special isFile [] [] []
      else mkTail (ListPath []) None None
  | c :: t =>
      if special then
        if isSlash c then pathState special isFile [] [] t
        else pathState special isFile [] [] r
      else if (c =? ch "?")%N then
        let '(q, f) := queryState special t in mkTail (ListPath []) (Some q) f
      else if (c =? ch "#")%N then
        mkTail (ListPath []) None (Some (fragmentState t))
      else if (c =? ch "/")%N then pathState special isFile [] [] t
      else pathState special isFile [] [] r
  end.

(** Opaque path state.  A space is encoded only before ["?"] or ["#"]
    (engines that predate this rule of the standard keep it as it is). *)
Fixpoint opaquePathState (p r : list N) : Tail :=
  match r with
  | [] => mkTail (OpaquePath p) None None
  | c :: t =>
      if (c =? ch "?")%N then
        let '(q, f) := queryState false t in mkTail (OpaquePath p) (Some q) f
      else if (c =? ch "#")%N then
        mkTail (OpaquePath p) None (Some (fragmentState t))
      else if (c =? ch " ")%N then
        match t with
        | d :: _ =>
            if (d =? ch "?")%N || (d =? ch "#")%N
            then opaquePathState (p ++ js "%20") t
            else opaquePathState (p ++ [c]) t
        | [] => opaquePathState (p ++ [c]) t
        end
      else opaquePathState (p ++ utf8PercentEncode c0ControlSet c) t
  end.

(** Port state: the port kept in the record (none for the scheme's default
    port) and the input from the code point that ended it. *)
Definition endPort (sch buffer r : list N) : option (option N * list N) :=
  match buffer with
  | [] => Some (None, r)
  | _ =>
      let p := radixValue 10 buffer in
      if (65535 <? p)%N then None
      else Some (match defaultPort sch with
                 | Some d => if (d =? p)%N then None else Some p
                 | None => Some p
                 end, r)
  end.

Fixpoint portState (special : bool) (sch buffer r : list N)
  : option (option N * list N) :=
  match r with
  | [] => endPort sch buffer r
  | c :: t =>
      if isDigit c then portState special sch (buffer ++ [c]) t
      else if endsAuthority special c then endPort sch buffer r
      else None
  end.

(** Authority state: credentials end at the last ["@"] before the end of the
    authority; with an ["@"] seen the host may not be empty.  The result is
    the input host state starts from. *)
Fixpoint authorityState (special atSignSeen : bool) (buffer r : list N)
  : option (list N) :=
  match r with
  | [] => if atSignSeen && str_eqb buffer [] then None else Some buffer
  | c :: t =>
      if (c =? ch "@")%N then authorityState special true [] t
      else if endsAuthority special c then
        if atSignSeen && str_eqb buffer [] then None else Some (buffer ++ r)
      else authorityState special atSignSeen (buffer ++ [c]) t
  end.

Section States.

Variable domainToASCII_unicode : list N -> option (list N).

(** Scheme start state and scheme state: the lowercased scheme and the
    input after the [":"].  Without a scheme the parser (run without a base
    URL) fails. *)
Fixpoint schemeState (buffer r : list N) : option (list N * list N) :=
  match r with
  | [] => None
  | c :: t =>
      if isAlpha c || isDigit c || isOneOf [ch "+"; ch "-"; ch "."] c
      then schemeState (buffer ++ [asciiLower c]) t
      else if (c =? ch ":")%N then Some (buffer, t)
      else None
  end.

Definition schemeStartState (r : list N) : option (list N * list N) :=
  match r with
  | c :: t => if isAlpha c then schemeState [asciiLower c] t else None
  | [] => None
  end.

(** Host state, then port state and path start state. *)
Definition afterHost (special : bool) (sch buffer : list N) (portFollows : bool)
           (r : list N) : option URLRecord :=
  match parseHost domainToASCII_unicode buffer (negb special) with
  | None => None
  | Some h =>
      if portFollows then
        match portState special sch [] r with
        | None => None
        | Some (p, r') =>
            let t := pathStartState special false r' in
            Some (mkURL sch (Some h) p (t_path t) (t_query t) (t_fragment t))
        end
      else
        let t := pathStartState special false r in
        Some (mkURL sch (Some h) None (t_path t) (t_query t) (t_fragment t))
  end.

Fixpoint hostState (special : bool) (sch : list N) (insideBrackets : bool)
         (buffer r : list N) : option URLRecord :=
  match r with
  | [] =>
      if special && str_eqb buffer [] then None
      else afterHost special sch buffer false r
  | c :: t =>
      if (c =? ch ":")%N && negb insideBrackets then
        if str_eqb buffer [] then None
        else afterHost special sch buffer true t
      else if endsAuthority special c then
        if special && str_eqb buffer [] then None
        else afterHost special sch buffer false r
      else
        hostState special sch
                  (if (c =? ch "[")%N then true
                   else if (c =? ch "]")%N then false else insideBrackets)
                  (buffer ++ [c]) t
  end.

Definition fromAuthority (special : bool) (sch r : list N) : option URLRecord :=
  match authorityState special false [] r with
  | None => None
  | Some r' => hostState special sch false [] r'
  end.

(** File state, file slash state and file host state. *)
Definition fileTail (sch : list N) (h : HostValue) (t : Tail) : URLRecord :=
  mkURL sch (Some h) None (t_path t) (t_query t) (t_fragment t).

Definition fileHostState (sch r : list N) : option URLRecord :=
  let '(buffer, rest) :=
    breakAt (fun c => isSlash c || (c =? ch "?")%N || (c =? ch "#")%N) r in
  if isWindowsDriveLetter buffer then
    Some (fileTail sch EmptyHost (pathState true true [] buffer rest))
  else if str_eqb buffer [] then
    Some (fileTail sch EmptyHost (pathStartState true true rest))
  else
    match parseHost domainToASCII_unicode buffer false with
    | None => None
    | Some h =>
        let h' :=
          match h with
          | Domain d => if str_eqb d (js "localhost") then EmptyHost else h
          | _ => h
          end in
        Some (fileTail sch h' (pathStartState true true rest))
    end.

Definition fileSlashState (sch r : list N) : option URLRecord :=
  match r with
  | c :: t =>
      if isSlash c then fileHostState sch t
      else Some (fileTail sch EmptyHost (pathState true true [] [] r))
  | [] => Some (fileTail sch EmptyHost (pathState true true [] [] r))
  end.

Definition fileState (sch r : list N) : option URLRecord :=
  match r with
  | c :: t =>
      if isSlash c then fileSlashState sch t
      else Some (fileTail sch EmptyHost (pathState true true [] [] r))
  | [] => Some (fileTail sch EmptyHost (pathState true true [] [] r))
  end.

Definition isC0OrSpace (c : N) : bool := (c <=? 32)%N.
Definition isTabOrNewline (c : N) : bool := isOneOf [9; 10; 13]%N c.

(** The basic URL parser on a string, without a base URL. *)
Definition parse (input : jsstring) : option URLRecord :=
  let cps := toCodePoints input in
  let stripped := rev (dropWhile isC0OrSpace (rev (dropWhile isC0OrSpace cps))) in
  let cleaned := filter (fun c => negb (isTabOrNewline c)) stripped in
  match schemeStartState cleaned with
  | None => None
  | Some (sch, r) =>
      if str_eqb sch (js "file") then fileState sch r
      else if isSpecial sch then fromAuthority true sch (dropWhile isSlash r)
      else
        match r with
        | c :: t =>
            if (c =? ch "/")%N then
              match t with
              | d :: t' =>
                  if (d =? ch "/")%N then fromAuthority false sch t'
                  else
                    let tl := pathState false false [] [] t in
                    Some (mkURL sch None None (t_path tl) (t_query tl) (t_fragment tl))
              | [] =>
                  let tl := pathState false false [] [] t in
                  Some (mkURL sch None None (t_path tl) (t_query tl) (t_fragment tl))
              end
            else
              let tl := opaquePathState [] r in
              Some (mkURL sch None None (t_path tl) (t_query tl) (t_fragment tl))
        | [] =>
            let tl := opaquePathState [] r in
            Some (mkURL sch None None (t_path tl) (t_query tl) (t_fragment tl))
        end
  end.

End States.

(** *** The URL object's getters *)

(** [url.protocol]: the scheme followed by [":"]. *)
Definition protocol (u : URLRecord) : jsstring := scheme u ++ [ch ":"].

(** [url.hostname]: the serialized host, empty when there is none. *)
Definition hostname (u : URLRecord) : jsstring :=
  match host u with
  | None => []
  | Some h => serializeHost h
  end.

(** [url.pathname]: an opaque path as it is, otherwise every segment after a
    ["/"]. *)
Definition pathname (u : URLRecord) : jsstring :=
  match path u with
  | OpaquePath p => p
  | ListPath segs => flat_map (fun seg => ch "/" :: seg) segs
  end.

(** [url.hash]: empty without a fragment or with an empty one, otherwise
    ["#"] and the fragment. *)
Definition hash (u : URLRecord) : jsstring :=
  match fragment u with
  | None | Some [] => []
  | Some f => ch "#" :: f
  end.

(** The application/x-www-form-urlencoded parser behind [url.searchParams]:
    one name-value pair per non-empty piece between ["&"], split at its
    first ["="], ["+"] read as a space, both sides percent-decoded.  Names
    and values are kept as bytes; their decoding into strings changes no
    count. *)
Definition plusToSpace (bs : list N) : list N :=
  map (fun b => if (b =? ch "+")%N then ch " " else b) bs.

Definition parsePair (piece : list N) : list N * list N :=
  let '(name, rest) := breakAt (fun c => c =? ch "=")%N piece in
  (percentDecode (plusToSpace name),
   percentDecode (plusToSpace (tl rest))).

Definition parseUrlencoded (bs : list N) : list (list N * list N) :=
  map parsePair
      (filter (fun piece => negb (str_eqb piece [])) (splitOn (ch "&") bs)).

Definition searchParams (u : URLRecord) : list (list N * list N) :=
  match query u with
  | None => []
  | Some q => parseUrlencoded q
  end.

(** [url.searchParams.keys()] *)
Definition searchParamsKeys (u : URLRecord) : list (list N) :=
  map fst (searchParams u).

End Url.

(** ** The JavaScript host

    What the module reads from its environment and the source does not
    determine.  The oracles are indexed by the count of reads made so far. *)

Record Host := mkHost {
  (** [globalThis.crypto?.randomUUID], when the host has it: the value of
      the k-th read *)
  crypto_randomUUID : option (nat -> jsstring);
  (** the time value the clock shows at the k-th read *)
  Date_now : nat -> Z;
  (** [Math.random().toString(16)] at the k-th read *)
  Math_random_toString16 : nat -> jsstring;
  (** [Date.prototype.toISOString] of a time value *)
  Date_toISOString : Z -> jsstring;
  (** [String.prototype.toLowerCase] on strings that are not plain ASCII *)
  unicode_toLowerCase : jsstring -> jsstring;
  (** UTS #46 ToASCII, see [Url.domainToASCII] *)
  unicode_domainToASCII : list N -> option (list N);
  (** the message of the [TypeError] that [new URL(s)] throws *)
  URL_error_message : jsstring -> jsstring;
  (** the text a property inherited from [Object.prototype] turns into when
      it is added to a number *)
  Object_prototype_text : jsstring -> jsstring
}.

(** Computations that read the host's oracles: the state is the number of
    reads made. *)
Definition M (A : Type) : Type := nat -> A * nat.

Definition ret (A : Type) (x : A) : M A := fun k => (x, k).
Definition bind (A B : Type) (m : M A) (f : A -> M B) : M B :=
  fun k => let '(x, k') := m k in f x k'.
Definition tick : M nat := fun k => (k, S k).

Declare Scope js_scope.
Delimit Scope js_scope with js_m.
Notation "x <- m ;; f" := (bind m (fun x => f))
  (at level 61, m at next level, right associativity) : js_scope.
Open Scope js_scope.

(** [array.map(f)] for an effectful callback: the elements in order. *)
Fixpoint mapM (A B : Type) (f : A -> M B) (l : list A) : M (list B) :=
  match l with
  | [] => ret []
  | x :: t => y <- f x ;; ys <- mapM f t ;; ret (y :: ys)
  end.

(** What a [try] block can throw. *)
Inductive Thrown :=
| ErrorObject (message : jsstring)
| OtherValue.

(** [new URL(s)] *)
Definition new_URL (h : Host) (s : jsstring) : Thrown + Url.URLRecord :=
  match Url.parse (unicode_domainToASCII h) s with
  | Some u => inr u
  | None => inl (ErrorObject (URL_error_message h s))
  end.

(** [s.toLowerCase()]: ASCII strings are lowercased letter by letter, the
    others by the host's Unicode tables. *)
Definition toLowerCase (h : Host) (s : jsstring) : jsstring :=
  if forallb isAscii s then map asciiLower s else unicode_toLowerCase h s.

(** A value is truthy when it is neither [undefined] nor the empty string. *)
Definition truthy (o : option jsstring) : bool :=
  match o with
  | Some (_ :: _) => true
  | _ => false
  end.

(** [s || undefined] *)
Definition orUndefined (s : jsstring) : option jsstring :=
  match s with
  | [] => None
  | _ => Some s
  end.

(** ** Plain objects used as counters: [Record<string, number>]

    The own properties in creation order (an object lists its integer-like
    keys first; the module reads only the values and the number of keys).
    A property can hold a string: see [inc]. *)
Inductive PropValue :=
| NumberValue (n : N)
| StringValue (s : jsstring).

Definition Dict := list (jsstring * PropValue).

Fixpoint getOwn (m : Dict) (key : jsstring) : option PropValue :=
  match m with
  | [] => None
  | (k, v) :: t => if str_eqb k key then Some v else getOwn t key
  end.

Fixpoint setOwn (m : Dict) (key : jsstring) (v : PropValue) : Dict :=
  match m with
  | [] => [(key, v)]
  | (k, w) :: t => if str_eqb k key then (k, v) :: t else (k, w) :: setOwn t key v
  end.

(** The properties every plain object inherits from [Object.prototype]. *)
Definition objectPrototypeKeys : list jsstring :=
  [js "constructor"; js "__defineGetter__"; js "__defineSetter__";
   js "hasOwnProperty"; js "__lookupGetter__"; js "__lookupSetter__";
   js "isPrototypeOf"; js "propertyIsEnumerable"; js "toString"; js "valueOf";
   js "__proto__"; js "toLocaleString"].

(** ** Insertion-ordered maps: [Map]

    [set] on a key already present replaces the value where the key stands;
    a new key goes to the end. *)
Section JSMap.
Variables K V : Type.
Variable eqb : K -> K -> bool.

Fixpoint Map_set (m : list (K * V)) (k : K) (v : V) : list (K * V) :=
  match m with
  | [] => [(k, v)]
  | (k', v') :: t =>
      if eqb k' k then (k', v) :: t else (k', v') :: Map_set t k v
  end.

(** [new Map(entries)] *)
Definition Map_new (entries : list (K * V)) : list (K * V) :=
  fold_left (fun m e => Map_set m (fst e) (snd e)) entries [].

(** [Array.from(m.values())] *)
Definition Map_values (m : list (K * V)) : list V := map snd m.

End JSMap.

(** ** lib/linkAnalysis.ts *)

Module LinkRow.
Record t := mk {
  id : jsstring;
  raw : jsstring;
  normalized : jsstring;
  isValid : bool;
  error : option jsstring;
  protocol : option jsstring;
  hostname : option jsstring;
  domain : option jsstring;
  tld : option jsstring;
  pathname : option jsstring;
  queryParams : nat;
  hasHash : bool;
  length : nat
}.
End LinkRow.

Module Metrics.
Record t := mk {
  total : nat;
  valid : nat;
  invalid : nat;
  uniqueDomains : nat;
  withQuery : nat;
  withHash : nat;
  avgLength : float
}.
End Metrics.

Module Distributions.
Record t := mk {
  protocol : Dict;
  domain : Dict;
  tld : Dict
}.
End Distributions.

Module LinkAnalysis.
Record t := mk {
  id : jsstring;
  createdAt : jsstring;
  input : jsstring;
  items : list LinkRow.t;
  metrics : Metrics.t;
  distributions : Distributions.t
}.
End LinkAnalysis.

Record AnalyzeOptions := mkOptions {
  assumeHttps : bool;
  dedupe : bool
}.

(** [safeId]: a UUID of the host when it offers them, otherwise a text made
    of the clock's time value and a random number. *)
Definition safeId (h : Host) : M jsstring :=
  match crypto_randomUUID h with
  | Some randomUUID => k <- tick ;; ret (randomUUID k)
  | None =>
      k <- tick ;;
      r <- tick ;;
      ret (js "a_" ++ decimal (Date_now h k) ++ js "_"
              ++ skipn 2 (Math_random_toString16 h r))
  end.

(** [new Date().toISOString()] *)
Definition nowISO (h : Host) : M jsstring :=
  k <- tick ;; ret (Date_toISOString h (Date_now h k)).

(** [inc]: [map[key] = (map[key] ?? 0) + 1].  A key the object does not own
    is looked up in [Object.prototype]: what is found there is not nullish,
    adding 1 to it concatenates, and the assignment stores the text (the
    setter of [__proto__] ignores it).  A text already stored gets ["1"]
    appended. *)
Definition inc (h : Host) (map : Dict) (key : jsstring) : Dict :=
  match getOwn map key with
  | Some (NumberValue n) => setOwn map key (NumberValue (n + 1))
  | Some (StringValue s) => setOwn map key (StringValue (s ++ js "1"))
  | None =>
      if existsb (str_eqb key) objectPrototypeKeys then
        if str_eqb key (js "__proto__") then map
        else setOwn map key (StringValue (Object_prototype_text h key ++ js "1"))
      else setOwn map key (NumberValue 1)
  end.

(** [/^[a-zA-Z][a-zA-Z0-9+.-]*:/.test(s)].  [":"] is not in the class, so
    the pattern matches exactly when the longest run of class characters
    after the first letter is followed by [":"]. *)
Definition isSchemeChar (c : unit16) : bool :=
  isAlpha c || isDigit c || (c =? ch "+")%N || (c =? ch ".")%N || (c =? ch "-")%N.

Definition hasSchemeTest (s : jsstring) : bool :=
  match s with
  | c :: t =>
      isAlpha c
      && match dropWhile isSchemeChar t with
         | d :: _ => (d =? ch ":")%N
         | [] => false
         end
  | [] => false
  end.

Definition normalizeLine (raw : jsstring) (assumeHttps : bool) : jsstring :=
  let trimmed := trim raw in
  if (List.length trimmed =? 0)%nat then []
  else if startsWith trimmed (js "//") then js "https:" ++ trimmed
  else if negb assumeHttps then trimmed
  else
    let hasScheme := hasSchemeTest trimmed in
    if hasScheme then trimmed
    else js "https://" ++ trimmed.

(** [hostname.replace(/^www\./i, "")], with the fallback on an empty
    result. *)
Definition isW (c : unit16) : bool := (c =? ch "w")%N || (c =? ch "W")%N.

Definition hostnameToDomain (hostname : jsstring) : jsstring :=
  let withoutWww :=
    match hostname with
    | a :: b :: c :: d :: t =>
        if isW a && isW b && isW c && (d =? ch ".")%N then t else hostname
    | _ => hostname
    end in
  if (0 <? List.length withoutWww)%nat then withoutWww else hostname.

Definition nonEmpty (s : jsstring) : bool := (0 <? List.length s)%nat.

Definition domainToTld (h : Host) (domain : jsstring) : option jsstring :=
  let parts := filter nonEmpty (splitOn (ch ".") domain) in
  match rev parts with
  | [] => None
  | last :: _ => Some (toLowerCase h last)
  end.

(** [s.replace(":", "")]: the first [":"] removed. *)
Fixpoint removeFirst (c : unit16) (s : jsstring) : jsstring :=
  match s with
  | [] => []
  | x :: t => if (x =? c)%N then t else x :: removeFirst c t
  end.

(** The body of the callback of [unique.map], after [safeId()] gave
    [rowId]: the [base] row, overridden on either side of the [try]. *)
Definition buildRow (h : Host) (rowId raw normalized : jsstring) : LinkRow.t :=
  let base :=
    LinkRow.mk rowId raw normalized false None None None None None None
               0 false (List.length normalized) in
  match new_URL h normalized with
  | inr url =>
      let protocol := removeFirst (ch ":") (Url.protocol url) in
      let hostname := orUndefined (Url.hostname url) in
      let domain :=
        match hostname with
        | Some hn => if truthy hostname then Some (hostnameToDomain hn) else None
        | None => None
        end in
      LinkRow.mk (LinkRow.id base) (LinkRow.raw base) (LinkRow.normalized base)
                 true
                 (LinkRow.error base)
                 (Some protocol)
                 hostname
                 domain
                 (match domain with
                  | Some d => if truthy domain then domainToTld h d else None
                  | None => None
                  end)
                 (Some (Url.pathname url))
                 (List.length (Url.searchParamsKeys url))
                 (match Url.hash url with
                  | [] => false
                  | hs => (1 <? List.length hs)%nat
                  end)
                 (LinkRow.length base)
  | inl err =>
      let message :=
        match err with
        | ErrorObject m => m
        | OtherValue => js "URL inv" ++ [225%N] ++ js "lida"
        end in
      LinkRow.mk (LinkRow.id base) (LinkRow.raw base) (LinkRow.normalized base)
                 (LinkRow.isValid base)
                 (Some message)
                 (LinkRow.protocol base) (LinkRow.hostname base)
                 (LinkRow.domain base) (LinkRow.tld base)
                 (LinkRow.pathname base)
                 (LinkRow.queryParams base) (LinkRow.hasHash base)
                 (LinkRow.length base)
  end.

(** The callback of [unique.map]: one row per line. *)
Definition analyzeRow (h : Host) (it : jsstring * jsstring) : M LinkRow.t :=
  rowId <- safeId h ;;
  ret (buildRow h rowId (fst it) (snd it)).

(** The counters of the aggregation loop. *)
Record Tally := mkTally {
  protocolDist : Dict;
  domainDist : Dict;
  tldDist : Dict;
  valid : nat;
  invalid : nat;
  withQuery : nat;
  withHash : nat;
  lengthSum : nat
}.

Definition emptyTally : Tally := mkTally [] [] [] 0 0 0 0 0.

(** The body of [for (const it of items)]. *)
Definition tallyRow (h : Host) (acc : Tally) (it : LinkRow.t) : Tally :=
  mkTally
    (match LinkRow.protocol it with
     | Some p => if truthy (LinkRow.protocol it) then inc h (protocolDist acc) p
                 else protocolDist acc
     | None => protocolDist acc
     end)
    (match LinkRow.domain it with
     | Some d => if truthy (LinkRow.domain it)
                 then inc h (domainDist acc) (toLowerCase h d)
                 else domainDist acc
     | None => domainDist acc
     end)
    (match LinkRow.tld it with
     | Some t => if truthy (LinkRow.tld it) then inc h (tldDist acc) t
                 else tldDist acc
     | None => tldDist acc
     end)
    (if LinkRow.isValid it then valid acc + 1 else valid acc)
    (if LinkRow.isValid it then invalid acc else invalid acc + 1)
    (if (0 <? LinkRow.queryParams it)%nat then withQuery acc + 1 else withQuery acc)
    (if LinkRow.hasHash it then withHash acc + 1 else withHash acc)
    (lengthSum acc + LinkRow.length it).

(** A count as a JavaScript number (exact below 2^53, which bounds every
    count and sum of lengths an array of strings can give). *)
Definition numberOfNat (n : nat) : float :=
  PrimFloat.of_uint63 (Uint63.of_Z (Z.of_nat n)).

(** The trimmed, non-empty lines of the input. *)
Definition inputLines (input : jsstring) : list jsstring :=
  filter (fun l => (0 <? List.length l)%nat) (map trim (splitLines input)).

Definition normalizedList (input : jsstring) (options : AnalyzeOptions)
  : list (jsstring * jsstring) :=
  map (fun raw => (raw, normalizeLine raw (assumeHttps options))) (inputLines input).

(** [Array.from(new Map(list.map((it) => [it.normalized.toLowerCase(), it])).values())] *)
Definition dedupeList (h : Host) (l : list (jsstring * jsstring))
  : list (jsstring * jsstring) :=
  Map_values (Map_new str_eqb (map (fun it => (toLowerCase h (snd it), it)) l)).

Definition uniqueList (h : Host) (input : jsstring) (options : AnalyzeOptions)
  : list (jsstring * jsstring) :=
  if dedupe options then dedupeList h (normalizedList input options)
  else normalizedList input options.

Definition analyzeLinks (h : Host) (input : jsstring) (options : AnalyzeOptions)
  : M LinkAnalysis.t :=
  let unique := uniqueList h input options in
  items <- mapM (analyzeRow h) unique ;;
  let acc := fold_left (tallyRow h) items emptyTally in
  let uniqueDomains := List.length (domainDist acc) in
  analysisId <- safeId h ;;
  createdAt <- nowISO h ;;
  ret (LinkAnalysis.mk
         analysisId
         createdAt
         input
         items
         (Metrics.mk (List.length items) (valid acc) (invalid acc) uniqueDomains
                     (withQuery acc) (withHash acc)
                     (if (List.length items =? 0)%nat then 0%float
                      else (numberOfNat (lengthSum acc)
                            / numberOfNat (List.length items))%float))
         (Distributions.mk (protocolDist acc) (domainDist acc) (tldDist acc))).

(** A host for running examples: UUIDs and times are the read count, no
    Unicode tables (the examples are ASCII). *)
Definition exampleHost : Host :=
  mkHost (Some (fun k => js "uuid-" ++ decimal (Z.of_nat k)))
         (fun k => Z.of_nat k)
         (fun _ => js "0.8")
         (fun t => js "T" ++ decimal t)
         (fun s => s)
         (fun _ => None)
         (fun _ => js "Invalid URL")
         (fun k => js "function " ++ k ++ js "() { [native code] }").

Definition run (A : Type) (m : M A) (k : nat) : A := fst (m k).

(** ** Arrays and own keys, as [topEntries] uses them *)

(** An array index among property keys: the canonical numeral of an integer
    up to 2^32 - 2. *)
Definition arrayIndex (key : jsstring) : option N :=
  match key with
  | [] => None
  | c :: t =>
      if forallb isDigit key
         && ((negb (c =? ch "0")%N) || (List.length t =? 0)%nat)
      then
        let n := Url.radixValue 10 key in
        if (n <? 4294967295)%N then Some n else None
      else None
  end.

Definition isArrayIndex (key : jsstring) : bool :=
  match arrayIndex key with
  | Some _ => true
  | None => false
  end.

Section ObjectEntries.
Variable V : Type.

Definition indexOf (e : jsstring * V) : N :=
  match arrayIndex (fst e) with
  | Some n => n
  | None => 0%N
  end.

Fixpoint insertByIndex (e : jsstring * V) (l : list (jsstring * V))
  : list (jsstring * V) :=
  match l with
  | [] => [e]
  | x :: t =>
      if (indexOf x <? indexOf e)%N then x :: insertByIndex e t else e :: l
  end.

(** [Object.entries(map)]: the array-index keys in ascending numeric order,
    then the other keys in the order of their creation. *)
Definition Object_entries (map : list (jsstring * V)) : list (jsstring * V) :=
  fold_right insertByIndex [] (filter (fun e => isArrayIndex (fst e)) map)
  ++ filter (fun e => negb (isArrayIndex (fst e))) map.

End ObjectEntries.

Section ArraySort.
Variable A : Type.

(** The comparator's result: negative, zero or positive. *)
Variable compareFn : A -> A -> Z.

Fixpoint insertSorted (x : A) (l : list A) : list A :=
  match l with
  | [] => [x]
  | y :: t => if (0 <? compareFn x y)%Z then y :: insertSorted x t else x :: l
  end.

(** [array.sort(compareFn)].  The sort is stable, so for a consistent
    comparator the result is the one arrangement that insertion from the
    right computes: an element goes behind those that must precede it and
    before the first one that need not. *)
Definition Array_sort (l : list A) : list A := fold_right insertSorted [] l.

(** [array.slice(0, end)] for an integral [end]: a negative one counts from
    the end of the array. *)
Definition Array_slice0 (l : list A) (finish : Z) : list A :=
  let len := Z.of_nat (List.length l) in
  let final := if (finish <? 0)%Z then Z.max (len + finish) 0 else Z.min finish len in
  firstn (Z.to_nat final) l.

End ArraySort.

(** [topEntries]: its record holds numbers, here the counts of a
    distribution; [limit] is integral (a fractional one is truncated by
    [slice]). *)
Definition topEntries (map : list (jsstring * N)) (limit : Z)
  : list (jsstring * N) :=
  Array_slice0
    (Array_sort (fun a b => (Z.of_N (snd b) - Z.of_N (snd a))%Z)
                (Object_entries map))
    limit.

(** ** app/page.tsx: the CSV export *)

(** [String(b)] and [String(n)] *)
Definition String_bool (b : bool) : jsstring :=
  if b then js "true" else js "false".

Definition String_nat (n : nat) : jsstring := decimal (Z.of_nat n).

(** [v ?? ""] *)
Definition orEmpty (v : option jsstring) : jsstring :=
  match v with
  | Some s => s
  | None => []
  end.

(** [array.join(sep)] *)
Fixpoint Array_join (sep : jsstring) (l : list jsstring) : jsstring :=
  match l with
  | [] => []
  | x :: t =>
      match t with
      | [] => x
      | _ :: _ => x ++ sep ++ Array_join sep t
      end
  end.

Definition csvHeader : list jsstring :=
  [js "raw"; js "normalized"; js "isValid"; js "protocol"; js "hostname";
   js "domain"; js "tld"; js "pathname"; js "queryParams"; js "hasHash";
   js "length"; js "error"].

Definition csvRow (it : LinkRow.t) : list jsstring :=
  [LinkRow.raw it;
   LinkRow.normalized it;
   String_bool (LinkRow.isValid it);
   orEmpty (LinkRow.protocol it);
   orEmpty (LinkRow.hostname it);
   orEmpty (LinkRow.domain it);
   orEmpty (LinkRow.tld it);
   orEmpty (LinkRow.pathname it);
   String_nat (LinkRow.queryParams it);
   String_bool (LinkRow.hasHash it);
   String_nat (LinkRow.length it);
   orEmpty (LinkRow.error it)].

(** The code unit of the double quote. *)
Definition quote : unit16 := 34%N.

(** [escape]: the value between double quotes, every double quote in it
    doubled. *)
Definition csvEscape (v : jsstring) : jsstring :=
  [quote] ++ flat_map (fun c => if (c =? quote)%N then [quote; quote] else [c]) v
          ++ [quote].

Definition toCsv (analysis : LinkAnalysis.t) : jsstring :=
  let header := csvHeader in
  let rows := map csvRow (LinkAnalysis.items analysis) in
  Array_join [10%N]
             (map (fun r => Array_join [ch ","] (map csvEscape r)) (header :: rows)).

(** [exportCsv]: nothing without an analysis; otherwise the name and the text
    of the file handed to [downloadText].  The date in the name is the
    first 19 code units of [createdAt] with [":"] and ["T"] replaced by
    ["-"]. *)
Definition exportCsv (analysis : option LinkAnalysis.t)
  : option (jsstring * jsstring) :=
  match analysis with
  | None => None
  | Some a =>
      let date :=
        map (fun c => if (c =? ch ":")%N || (c =? ch "T")%N then ch "-" else c)
            (firstn 19 (LinkAnalysis.createdAt a)) in
      Some (js "analise-links_" ++ date ++ js ".csv", toCsv a)
  end.

(** ** app/page.tsx: the component's state and handlers *)

Module Home.

(** What [localStorage] holds under the history key, as the mount effect
    reads it.  The text [JSON.stringify] wrote for a list of reports parses
    to an array with one object per report; an element that is [null] or
    no object is [None]; an object is taken for a report, as the cast in
    the source does. *)
Inductive Stored :=
| Absent                      (* no item, or the empty text *)
| Unparsable                  (* [JSON.parse] throws *)
| NotAnArray                  (* parses to something that is no array *)
| ArrayOf (elements : list (option LinkAnalysis.t)).

Record State := mk {
  input : jsstring;
  assumeHttps : bool;
  dedupe : bool;
  analysis : option LinkAnalysis.t;
  history : list LinkAnalysis.t;
  stored : Stored
}.

(** The state before the mount effect has run. *)
Definition initial (s : Stored) : State := mk [] true true None [] s.

(** [parsed.filter((x) => x && typeof x === "object")] *)
Definition objects (elements : list (option LinkAnalysis.t)) : list LinkAnalysis.t :=
  flat_map (fun x => match x with Some a => [a] | None => [] end) elements.

(** The mount effect: the stored history is read, cleaned and cut to 50; its
    first report, when it has an input, becomes the current one.  A text
    that does not parse empties history and analysis. *)
Definition mount (st : State) : State :=
  match stored st with
  | Absent => st
  | NotAnArray => st
  | Unparsable =>
      mk (input st) (assumeHttps st) (dedupe st) None [] (stored st)
  | ArrayOf elements =>
      let cleaned := firstn 50 (objects elements) in
      match cleaned with
      | first :: _ =>
          match LinkAnalysis.input first with
          | _ :: _ =>
              mk (LinkAnalysis.input first) (assumeHttps st) (dedupe st)
                 (Some first) cleaned (stored st)
          | [] =>
              mk (input st) (assumeHttps st) (dedupe st) (analysis st) cleaned
                 (stored st)
          end
      | [] =>
          mk (input st) (assumeHttps st) (dedupe st) (analysis st) cleaned
             (stored st)
      end
  end.

(** [runAnalysis] *)
Definition runAnalysis (h : Host) (st : State) : M State :=
  next <- analyzeLinks h (input st) (mkOptions (assumeHttps st) (dedupe st)) ;;
  let merged := firstn 50 (next :: history st) in
  ret (mk (input st) (assumeHttps st) (dedupe st) (Some next) merged
          (ArrayOf (map Some merged))).

(** [clearHistory] *)
Definition clearHistory (st : State) : State :=
  mk (input st) (assumeHttps st) (dedupe st) (analysis st) [] Absent.

(** The lines of the "Exemplo" button. *)
Definition exampleLines : list jsstring :=
  [js "https://vercel.com"; js "nextjs.org/docs";
   js "http://example.com/path?utm_source=test";
   js "www.google.com/search?q=echarts";
   js "https://github.com/vercel/next.js#readme"; js "nota-url";
   js "//cdn.example.com/assets/app.js?v=1"].

(** What the user can do. *)
Inductive Event :=
| SetInput (text : jsstring)          (* typing in the text area *)
| SetAssumeHttps (b : bool)
| SetDedupe (b : bool)
| LoadExample                         (* "Exemplo" *)
| RunAnalysis                         (* "Analisar" *)
| ClearInput                          (* "Limpar" under the text area *)
| ClearHistory                        (* "Limpar" of the history *)
| OpenHistory (i : nat).              (* a click on the i-th history entry *)

Definition handle (h : Host) (e : Event) (st : State) : M State :=
  match e with
  | SetInput text =>
      ret (mk text (assumeHttps st) (dedupe st) (analysis st) (history st) (stored st))
  | SetAssumeHttps b =>
      ret (mk (input st) b (dedupe st) (analysis st) (history st) (stored st))
  | SetDedupe b =>
      ret (mk (input st) (assumeHttps st) b (analysis st) (history st) (stored st))
  | LoadExample =>
      ret (mk (Array_join [10%N] exampleLines) (assumeHttps st) (dedupe st)
              (analysis st) (history st) (stored st))
  | RunAnalysis => runAnalysis h st
  | ClearInput =>
      ret (mk [] (assumeHttps st) (dedupe st) None (history st) (stored st))
  | ClearHistory => ret (clearHistory st)
  | OpenHistory i =>
      match nth_error (history st) i with
      | Some item =>
          ret (mk (LinkAnalysis.input item) (assumeHttps st) (dedupe st)
                  (Some item) (history st) (stored st))
      | None => ret st
      end
  end.

Fixpoint handleAll (h : Host) (events : list Event) (st : State) : M State :=
  match events with
  | [] => ret st
  | e :: rest => st' <- handle h e st ;; handleAll h rest st'
  end.




End Home.

(** ** Notions used in the statements *)

(** A string neither starts nor ends with white space. *)
Definition cleanStart (s : jsstring) : bool :=
  match s with
  | [] => true
  | c :: _ => negb (isWhiteSpace c)
  end.

Definition clean (s : jsstring) : bool := cleanStart s && cleanStart (rev s).

(** The aggregation, as a function of the rows. *)
Definition tallyOf (h : Host) (items : list LinkRow.t) : Tally :=
  fold_left (tallyRow h) items emptyTally.

Definition metricsOf (h : Host) (items : list LinkRow.t) : Metrics.t :=
  let acc := tallyOf h items in
  Metrics.mk (List.length items) (valid acc) (invalid acc)
             (List.length (domainDist acc)) (withQuery acc) (withHash acc)
             (if (List.length items =? 0)%nat then 0%float
              else (numberOfNat (lengthSum acc)
                    / numberOfNat (List.length items))%float).

Definition distributionsOf (h : Host) (items : list LinkRow.t) : Distributions.t :=
  let acc := tallyOf h items in
  Distributions.mk (protocolDist acc) (domainDist acc) (tldDist acc).

(** A row with its identifier blanked. *)
Definition withoutId (r : LinkRow.t) : LinkRow.t :=
  LinkRow.mk [] (LinkRow.raw r) (LinkRow.normalized r) (LinkRow.isValid r)
             (LinkRow.error r) (LinkRow.protocol r) (LinkRow.hostname r)
             (LinkRow.domain r) (LinkRow.tld r) (LinkRow.pathname r)
             (LinkRow.queryParams r) (LinkRow.hasHash r) (LinkRow.length r).

(** The rows of a run, identifiers apart: they need no oracle. *)
Definition pureRows (h : Host) (input : jsstring) (options : AnalyzeOptions)
  : list LinkRow.t :=
  map (fun it => buildRow h [] (fst it) (snd it)) (uniqueList h input options).

(** The two shapes of a row.  A valid row has no [error], a [protocol] and a
    [pathname]; [hostname] and [domain] come together, and [tld] only with
    them.  An invalid row has an [error] and no success field. *)
Definition validShape (r : LinkRow.t) : Prop :=
  LinkRow.isValid r = true
  /\ LinkRow.error r = None
  /\ LinkRow.protocol r <> None
  /\ LinkRow.pathname r <> None
  /\ (LinkRow.hostname r = None <-> LinkRow.domain r = None)
  /\ (LinkRow.domain r = None -> LinkRow.tld r = None).

Definition invalidShape (r : LinkRow.t) : Prop :=
  LinkRow.isValid r = false
  /\ LinkRow.error r <> None
  /\ LinkRow.protocol r = None
  /\ LinkRow.hostname r = None
  /\ LinkRow.domain r = None
  /\ LinkRow.tld r = None
  /\ LinkRow.pathname r = None.

(** Every identifier of a report: its own and those of its rows. *)
Definition idsOf (a : LinkAnalysis.t) : list jsstring :=
  LinkAnalysis.id a :: map LinkRow.id (LinkAnalysis.items a).

(** The number of oracle reads made when a run that started at read [k]
    returns. *)
Definition readsAfter (h : Host) (input : jsstring) (options : AnalyzeOptions)
           (k : nat) : nat :=
  snd (analyzeLinks h input options k).

(** The read at which a run consults the clock for [createdAt]: its last
    one. *)
Definition clockRead (h : Host) (input : jsstring) (options : AnalyzeOptions)
           (k : nat) : nat :=
  Nat.pred (readsAfter h input options k).

(** Two runs one after the other on the same host: the second starts where
    the first left the oracles. *)
Definition twice (h : Host) (input : jsstring) (options : AnalyzeOptions)
  : LinkAnalysis.t * LinkAnalysis.t :=
  let '(a1, k1) := analyzeLinks h input options 0 in
  let '(a2, _) := analyzeLinks h input options k1 in
  (a1, a2).

(** The reading of the row invariant that asks for all five success
    fields. *)
Definition allSuccessFields (r : LinkRow.t) : Prop :=
  LinkRow.protocol r <> None
  /\ LinkRow.hostname r <> None
  /\ LinkRow.domain r <> None
  /\ LinkRow.tld r <> None
  /\ LinkRow.pathname r <> None.

(** The distinct elements of a list, each at the place of its first
    occurrence. *)
Fixpoint firstOccurrences (K : Type) (eqb : K -> K -> bool) (ks : list K) : list K :=
  match ks with
  | [] => []
  | k :: t => k :: filter (fun x => negb (eqb x k)) (firstOccurrences eqb t)
  end.

(** The key under which a pair is deduplicated, and the last pair of a list
    that has a given key. *)
Definition keyOf (h : Host) (it : jsstring * jsstring) : jsstring :=
  toLowerCase h (snd it).

Definition lastWithKey (h : Host) (key : jsstring) (l : list (jsstring * jsstring))
  : option (jsstring * jsstring) :=
  find (fun it => str_eqb (keyOf h it) key) (rev l).

(** The value a map holds for a key. *)
Definition Map_get (K V : Type) (eqb : K -> K -> bool) (m : list (K * V)) (k : K)
  : option V :=
  option_map snd (find (fun e => eqb (fst e) k) m).

(** The keys the aggregation loop counts for a field: the field's values
    that are present and not empty, in the order of the rows. *)
Definition countedKeys (f : LinkRow.t -> option jsstring) (items : list LinkRow.t)
  : list jsstring :=
  flat_map (fun r => match f r with
                     | Some p => if truthy (f r) then [p] else []
                     | None => []
                     end) items.

(** How many rows have the value [key] in a field. *)
Definition rowsWith (f : LinkRow.t -> option jsstring) (key : jsstring)
           (items : list LinkRow.t) : nat :=
  List.length (filter (fun r => match f r with
                                | Some p => str_eqb p key
                                | None => false
                                end) items).

(** A record of counters as the loop builds it from a list of keys. *)
Definition incAll (h : Host) (keys : list jsstring) (map : Dict) : Dict :=
  fold_left (inc h) keys map.

Definition inherited (key : jsstring) : bool :=
  existsb (str_eqb key) objectPrototypeKeys.

Definition isNumberValue (v : option PropValue) : bool :=
  match v with
  | Some (NumberValue _) => true
  | _ => false
  end.

(** What an invalid row looks like to the loop: nothing to count. *)
Definition countsNothing (r : LinkRow.t) : Prop :=
  LinkRow.queryParams r = 0
  /\ LinkRow.hasHash r = false
  /\ LinkRow.protocol r = None
  /\ LinkRow.domain r = None
  /\ LinkRow.tld r = None.

(** The entry of a counter that was incremented [n] times. *)
Definition counted (n : nat) : option PropValue :=
  match n with
  | O => None
  | S _ => Some (NumberValue (N.of_nat n))
  end.

(** The prefixes [normalizeLine] can put before a trimmed line. *)
Definition normalizePrefixes : list jsstring := [[]; js "https:"; js "https://"].

(** The line feeds of a text. *)
Definition lineFeeds (s : jsstring) : nat := count_occ N.eq_dec s 10%N.

(** The pieces of a split put together again, a dot between two pieces. *)
Fixpoint joinDots (pieces : list jsstring) : jsstring :=
  match pieces with
  | [] => []
  | p :: ps =>
      match ps with
      | [] => p
      | _ :: _ => p ++ ch "." :: joinDots ps
      end
  end.

(** Entries ordered by descending count. *)
Definition byCountDesc (a b : jsstring * N) : Prop := (snd b <= snd a)%N.

Definition hasCount (c : N) (e : jsstring * N) : bool := (snd e =? c)%N.

(** A reader of CSV text whose fields are all quoted: records end at a line
    feed, fields at a comma, and inside a field two double quotes stand for
    one.  [field] and [record] are what has been read of the current field
    and record, in reverse; [records] are the finished records, in
    reverse. *)
Inductive CsvMode := FieldStart | InField | QuoteSeen.

Fixpoint readCsvFrom (mode : CsvMode) (field : jsstring) (record : list jsstring)
         (records : list (list jsstring)) (s : jsstring)
  : option (list (list jsstring)) :=
  match s with
  | [] =>
      match mode with
      | QuoteSeen => Some (rev (rev (rev field :: record) :: records))
      | _ => None
      end
  | c :: t =>
      match mode with
      | FieldStart =>
          if (c =? quote)%N then readCsvFrom InField [] record records t else None
      | InField =>
          if (c =? quote)%N then readCsvFrom QuoteSeen field record records t
          else readCsvFrom InField (c :: field) record records t
      | QuoteSeen =>
          if (c =? quote)%N then readCsvFrom InField (quote :: field) record records t
          else if (c =? ch ",")%N
               then readCsvFrom FieldStart [] (rev field :: record) records t
               else if (c =? 10)%N
                    then readCsvFrom FieldStart [] []
                                     (rev (rev field :: record) :: records) t
                    else None
      end
  end.

Definition readCsv (s : jsstring) : option (list (list jsstring)) :=
  readCsvFrom FieldStart [] [] [] s.

(** The history a reload of the page would show for what is stored. *)
Definition reloadable (s : Home.Stored) : list LinkAnalysis.t :=
  match s with
  | Home.ArrayOf elements => firstn 50 (Home.objects elements)
  | _ => []
  end.

(** A key joins the keys of a record at the end, unless it is there. *)
Definition addKey (keys : list jsstring) (key : jsstring) : list jsstring :=
  if existsb (fun k => str_eqb k key) keys then keys else keys ++ [key].

Definition notProto (key : jsstring) : bool := negb (str_eqb key (js "__proto__")).

(** The numbers a record of counters holds, added up. *)
Definition sumNumbers (d : Dict) : N :=
  fold_right (fun e acc => match snd e with
                           | NumberValue n => (n + acc)%N
                           | StringValue _ => acc
                           end) 0%N d.

(** A record as [inc] keeps it: a text under the property names of
    [Object.prototype], a number under every other key. *)
Definition wellKept (d : Dict) : Prop :=
  Forall (fun e => match snd e with
                   | NumberValue _ => inherited (fst e) = false
                   | StringValue _ => inherited (fst e) = true
                   end) d.

Definition numberIn (v : option PropValue) : N :=
  match v with
  | Some (NumberValue n) => n
  | _ => 0%N
  end.

(** * Properties *)

(** ** Strings *)

Lemma str_eqb_eq (a b : jsstring) : str_eqb a b = true <-> a = b.
Proof.
  unfold str_eqb. destruct (list_eq_dec N.eq_dec a b); split; congruence.
Qed.

Lemma str_eqb_refl (a : jsstring) : str_eqb a a = true.
Proof. now apply str_eqb_eq. Qed.

Lemma str_eqb_neq (a b : jsstring) : str_eqb a b = false <-> a <> b.
Proof.
  unfold str_eqb. destruct (list_eq_dec N.eq_dec a b); split; congruence.
Qed.

Lemma dropWhile_cleanStart (s : jsstring) :
  cleanStart (dropWhile isWhiteSpace s) = true.
Proof.
  induction s as [|c t IH]; simpl; auto.
  destruct (isWhiteSpace c) eqn:E; auto. simpl. now rewrite E.
Qed.

Lemma dropWhile_fixed (s : jsstring) :
  cleanStart s = true -> dropWhile isWhiteSpace s = s.
Proof.
  destruct s as [|c t]; simpl; auto.
  destruct (isWhiteSpace c); simpl; congruence.
Qed.

Lemma dropWhile_snoc (A : Type) (f : A -> bool) (l : list A) (c : A) :
  f c = false -> dropWhile f (l ++ [c]) = dropWhile f l ++ [c].
Proof.
  intros Hc. induction l as [|x t IH]; simpl.
  - now rewrite Hc.
  - destruct (f x); auto.
Qed.

Lemma trimEnd_cons (c : unit16) (t : jsstring) :
  isWhiteSpace c = false -> trimEnd (c :: t) = c :: trimEnd t.
Proof.
  intros Hc. unfold trimEnd. simpl.
  rewrite dropWhile_snoc by assumption.
  now rewrite rev_app_distr.
Qed.

Lemma trimEnd_cleanStart (s : jsstring) :
  cleanStart s = true -> cleanStart (trimEnd s) = true.
Proof.
  destruct s as [|c t]; simpl; auto.
  intros Hc. apply negb_true_iff in Hc.
  rewrite trimEnd_cons by assumption. simpl. now rewrite Hc.
Qed.

Lemma trim_clean (s : jsstring) : clean (trim s) = true.
Proof.
  unfold clean, trim. apply andb_true_iff. split.
  - apply trimEnd_cleanStart, dropWhile_cleanStart.
  - unfold trimEnd. rewrite rev_involutive. apply dropWhile_cleanStart.
Qed.

Lemma clean_trim (s : jsstring) : clean s = true -> trim s = s.
Proof.
  unfold clean, trim, trimEnd, trimStart. intros H.
  apply andb_true_iff in H. destruct H as [H1 H2].
  rewrite (dropWhile_fixed _ H1), (dropWhile_fixed _ H2).
  apply rev_involutive.
Qed.

Lemma trim_idempotent (s : jsstring) : trim (trim s) = trim s.
Proof. apply clean_trim, trim_clean. Qed.

(** A clean, non-empty string stays clean behind a prefix that starts with a
    character other than white space. *)
Lemma clean_prefixed (c : unit16) (p t : jsstring) :
  isWhiteSpace c = false -> clean t = true -> t <> [] ->
  clean ((c :: p) ++ t) = true.
Proof.
  intros Hc Ht Hne. unfold clean in *.
  apply andb_true_iff in Ht. destruct Ht as [_ Ht].
  apply andb_true_iff. split.
  - simpl. now rewrite Hc.
  - rewrite rev_app_distr.
    destruct (rev t) as [|x r] eqn:E.
    + exfalso. apply Hne. rewrite <- (rev_involutive t), E. reflexivity.
    + exact Ht.
Qed.

Lemma length_zero_nil (s : jsstring) :
  (List.length s =? 0)%nat = true <-> s = [].
Proof.
  destruct s; simpl; split; congruence.
Qed.

(** ** Normalisation *)

Lemma normalizeLine_fixed (t : jsstring) (assumeHttps : bool) :
  clean t = true ->
  (t = []
   \/ (assumeHttps = false /\ startsWith t (js "//") = false)
   \/ (startsWith t (js "//") = false /\ hasSchemeTest t = true)) ->
  normalizeLine t assumeHttps = t.
Proof.
  intros Hc H. unfold normalizeLine. rewrite (clean_trim _ Hc).
  destruct H as [-> | [[-> Hs] | [Hs Hsch]]].
  - reflexivity.
  - destruct (List.length t =? 0)%nat eqn:E.
    + symmetry. now apply length_zero_nil.
    + now rewrite Hs.
  - destruct (List.length t =? 0)%nat eqn:E.
    + symmetry. now apply length_zero_nil.
    + rewrite Hs, Hsch. now destruct assumeHttps.
Qed.

(** C10: normalising a normalised line changes nothing. *)
Theorem normalizeLine_idempotent (s : jsstring) (assumeHttps : bool) :
  normalizeLine (normalizeLine s assumeHttps) assumeHttps
  = normalizeLine s assumeHttps.
Proof.
  assert (Hfix : forall p : jsstring,
             trim s <> [] ->
             clean ((ch "h" :: p) ++ trim s) = true).
  { intros p Hne. apply clean_prefixed;
      [reflexivity | apply trim_clean | exact Hne]. }
  unfold normalizeLine at 2 3.
  destruct (List.length (trim s) =? 0)%nat eqn:Hlen; [reflexivity|].
  assert (Hne : trim s <> []).
  { intros E. rewrite E in Hlen. discriminate. }
  destruct (startsWith (trim s) (js "//")) eqn:Hsl.
  { apply normalizeLine_fixed.
    - exact (Hfix (js "ttps:") Hne).
    - right. destruct assumeHttps.
      + right. split; reflexivity.
      + left. split; reflexivity. }
  destruct assumeHttps; simpl negb; cbv iota.
  - destruct (hasSchemeTest (trim s)) eqn:Hsch.
    + apply normalizeLine_fixed; [apply trim_clean | auto].
    + apply normalizeLine_fixed.
      * exact (Hfix (js "ttps://") Hne).
      * right. right. split; reflexivity.
  - apply normalizeLine_fixed; [apply trim_clean | auto].
Qed.

(** ** Effects *)

Lemma mapM_Forall2 (A B : Type) (P : A -> B -> Prop) (f : A -> M B) :
  (forall x k, P x (fst (f x k))) ->
  forall l k, Forall2 P l (fst (mapM f l k)).
Proof.
  intros Hf. induction l as [|x t IH]; intros k; simpl.
  - constructor.
  - unfold bind. specialize (Hf x k). destruct (f x k) as [y k1].
    specialize (IH k1). destruct (mapM f t k1) as [ys k2]. simpl.
    constructor; assumption.
Qed.

Lemma Forall2_range (A B : Type) (P : A -> B -> Prop) (Q : B -> Prop)
      (l : list A) (l' : list B) :
  (forall x y, P x y -> Q y) -> Forall2 P l l' -> Forall Q l'.
Proof.
  intros HPQ H. induction H; constructor; eauto.
Qed.

Lemma Forall2_map_eq (A B C : Type) (f : A -> C) (g : B -> C)
      (l : list A) (l' : list B) :
  Forall2 (fun x y => g y = f x) l l' -> map g l' = map f l.
Proof.
  induction 1; simpl; congruence.
Qed.

(** Every row the module produces is built by [buildRow] from a line of the
    list that is analysed. *)
Lemma items_built (h : Host) (l : list (jsstring * jsstring)) (k : nat) :
  Forall2 (fun it r => exists rowId, r = buildRow h rowId (fst it) (snd it))
          l (fst (mapM (analyzeRow h) l k)).
Proof.
  apply mapM_Forall2. intros it k0. unfold analyzeRow, bind, ret.
  destruct (safeId h k0) as [rowId k1]. simpl. now exists rowId.
Qed.

Lemma analyzeLinks_run (h : Host) (input : jsstring) (options : AnalyzeOptions)
      (k : nat) :
  let a := run (analyzeLinks h input options) k in
  LinkAnalysis.items a = fst (mapM (analyzeRow h) (uniqueList h input options) k)
  /\ LinkAnalysis.input a = input
  /\ LinkAnalysis.metrics a = metricsOf h (LinkAnalysis.items a)
  /\ LinkAnalysis.distributions a = distributionsOf h (LinkAnalysis.items a).
Proof.
  unfold run, analyzeLinks, bind, ret.
  destruct (mapM (analyzeRow h) (uniqueList h input options) k) as [items k1].
  destruct (safeId h k1) as [i k2]. destruct (nowISO h k2) as [c k3].
  simpl. repeat split.
Qed.

Lemma analyzeLinks_items (h : Host) (input : jsstring) (options : AnalyzeOptions)
      (k : nat) :
  Forall2 (fun it r => exists rowId, r = buildRow h rowId (fst it) (snd it))
          (uniqueList h input options)
          (LinkAnalysis.items (run (analyzeLinks h input options) k)).
Proof.
  destruct (analyzeLinks_run h input options k) as [-> _]. apply items_built.
Qed.

(** ** Totality and the counts *)

Lemma tally_counts (h : Host) (items : list LinkRow.t) (acc : Tally) :
  let acc' := fold_left (tallyRow h) items acc in
  valid acc' + invalid acc' = valid acc + invalid acc + List.length items
  /\ lengthSum acc' = lengthSum acc + list_sum (map LinkRow.length items).
Proof.
  revert acc. induction items as [|r t IH]; intros acc; simpl.
  - lia.
  - destruct (IH (tallyRow h acc r)) as [IH1 IH2]. rewrite IH1, IH2.
    unfold tallyRow; simpl. destruct (LinkRow.isValid r); lia.
Qed.

(** C2: for every input and every choice of the options [analyzeLinks]
    returns a report, and in it valid + invalid = total = items.length. *)
Theorem analyzeLinks_total_counts (h : Host) (input : jsstring)
        (options : AnalyzeOptions) (k : nat) :
  exists a : LinkAnalysis.t,
    run (analyzeLinks h input options) k = a
    /\ Metrics.valid (LinkAnalysis.metrics a)
       + Metrics.invalid (LinkAnalysis.metrics a)
       = Metrics.total (LinkAnalysis.metrics a)
    /\ Metrics.total (LinkAnalysis.metrics a) = List.length (LinkAnalysis.items a).
Proof.
  eexists. split; [reflexivity|].
  destruct (analyzeLinks_run h input options k) as (_ & _ & -> & _).
  unfold metricsOf, tallyOf. simpl.
  destruct (tally_counts h (LinkAnalysis.items (run (analyzeLinks h input options) k))
                         emptyTally) as [Hc _].
  simpl in Hc. split; [exact Hc | reflexivity].
Qed.

(** ** The shape of a row *)

Lemma hostnameToDomain_nonempty (hn : jsstring) :
  hn <> [] -> hostnameToDomain hn <> [].
Proof.
  intros Hne. unfold hostnameToDomain.
  match goal with
  | |- (if (0 <? List.length ?w)%nat then _ else _) <> [] =>
      destruct w as [|x w'] eqn:E
  end; simpl; congruence.
Qed.

Lemma buildRow_fields (h : Host) (rowId raw normalized : jsstring) :
  let r := buildRow h rowId raw normalized in
  LinkRow.id r = rowId
  /\ LinkRow.raw r = raw
  /\ LinkRow.normalized r = normalized
  /\ LinkRow.length r = List.length normalized.
Proof.
  unfold buildRow. destruct (new_URL h normalized); simpl; auto.
Qed.

Lemma buildRow_shape (h : Host) (rowId raw normalized : jsstring) :
  let r := buildRow h rowId raw normalized in
  (validShape r /\ ~ invalidShape r) \/ (invalidShape r /\ ~ validShape r).
Proof.
  unfold buildRow. destruct (new_URL h normalized) as [err|url].
  - right. unfold validShape, invalidShape. simpl. split.
    + repeat split; congruence.
    + intros [H _]. discriminate.
  - left. unfold validShape, invalidShape. simpl. split.
    + destruct (Url.hostname url) as [|c t]; simpl;
        repeat split; congruence.
    + intros [H _]. discriminate.
Qed.

Lemma buildRow_withoutId (h : Host) (rowId raw normalized : jsstring) :
  withoutId (buildRow h rowId raw normalized) = buildRow h [] raw normalized.
Proof.
  unfold buildRow, withoutId. destruct (new_URL h normalized); reflexivity.
Qed.

Lemma items_withoutId (h : Host) (input : jsstring) (options : AnalyzeOptions)
      (k : nat) :
  map withoutId (LinkAnalysis.items (run (analyzeLinks h input options) k))
  = pureRows h input options.
Proof.
  unfold pureRows. apply Forall2_map_eq.
  eapply Forall2_impl; [|apply analyzeLinks_items].
  intros it r [rowId ->]. apply buildRow_withoutId.
Qed.

(** A field other than the id can be read off the pure rows. *)
Lemma items_projection (A : Type) (g : LinkRow.t -> A) (h : Host)
      (input : jsstring) (options : AnalyzeOptions) (k : nat) :
  (forall r, g (withoutId r) = g r) ->
  map g (LinkAnalysis.items (run (analyzeLinks h input options) k))
  = map g (pureRows h input options).
Proof.
  intros Hg. rewrite <- (items_withoutId h input options k), map_map.
  apply map_ext. intros r. now rewrite Hg.
Qed.

(** The rows carry, in order, the pairs of the list that is analysed. *)
Lemma items_pairs (h : Host) (input : jsstring) (options : AnalyzeOptions)
      (k : nat) :
  map (fun r => (LinkRow.raw r, LinkRow.normalized r))
      (LinkAnalysis.items (run (analyzeLinks h input options) k))
  = uniqueList h input options.
Proof.
  rewrite <- (map_id (uniqueList h input options)).
  apply Forall2_map_eq. eapply Forall2_impl; [|apply analyzeLinks_items].
  intros it r [rowId ->].
  destruct (buildRow_fields h rowId (fst it) (snd it)) as (_ & -> & -> & _).
  now destruct it.
Qed.

(** C5, as stated, fails: the row of ["mailto:a@b.c"] is valid and has no
    error, yet it has no hostname, domain or tld, so neither "all success
    fields present" nor "error present" holds. *)
Lemma row_without_error_lacks_success_fields :
  exists r : LinkRow.t,
    LinkAnalysis.items
      (run (analyzeLinks exampleHost (js "mailto:a@b.c") (mkOptions false false)) 0)
    = [r]
    /\ LinkRow.isValid r = true
    /\ LinkRow.error r = None
    /\ LinkRow.hostname r = None
    /\ ~ allSuccessFields r.
Proof.
  eexists. split; [vm_compute; reflexivity|].
  repeat split. intros (_ & H & _). now apply H.
Qed.

(** C5, amended: every row has exactly one of two shapes.  A valid row has
    no error and has a protocol and a pathname, while hostname and domain
    are present together or absent together and tld is absent when domain
    is; an invalid row has an error and none of the five success fields.
    Whatever the shape, raw and normalized are the analysed pair and length
    is the length of normalized. *)
Theorem row_shape (h : Host) (input : jsstring) (options : AnalyzeOptions)
        (k : nat) :
  let items := LinkAnalysis.items (run (analyzeLinks h input options) k) in
  Forall (fun r => (validShape r /\ ~ invalidShape r)
                   \/ (invalidShape r /\ ~ validShape r)) items
  /\ Forall (fun r => LinkRow.length r = List.length (LinkRow.normalized r)) items
  /\ map (fun r => (LinkRow.raw r, LinkRow.normalized r)) items
     = uniqueList h input options.
Proof.
  cbv zeta. pose proof (analyzeLinks_items h input options k) as H.
  repeat split.
  - eapply Forall2_range; [|exact H]. intros it r [rowId ->].
    apply buildRow_shape.
  - eapply Forall2_range; [|exact H]. intros it r [rowId ->].
    destruct (buildRow_fields h rowId (fst it) (snd it)) as (_ & _ & -> & ->).
    reflexivity.
  - apply items_pairs.
Qed.

(** ** Top-level domains *)

Lemma splitOn_without (sep : unit16) (s : jsstring) :
  ~ In sep s -> splitOn sep s = [s].
Proof.
  induction s as [|c t IH]; simpl; intros Hn; [reflexivity|].
  destruct (c =? sep)%N eqn:E.
  - apply N.eqb_eq in E. exfalso. apply Hn. now left.
  - rewrite IH by (intros Hin; apply Hn; now right). reflexivity.
Qed.

Lemma domainToTld_without_dot (h : Host) (d : jsstring) :
  d <> [] -> ~ In (ch ".") d -> domainToTld h d = Some (toLowerCase h d).
Proof.
  intros Hne Hn. unfold domainToTld. rewrite splitOn_without by assumption.
  destruct d; [congruence | reflexivity].
Qed.

Lemma buildRow_tld (h : Host) (rowId raw normalized : jsstring) :
  let r := buildRow h rowId raw normalized in
  match LinkRow.domain r with
  | None => LinkRow.tld r = None
  | Some d => d <> [] /\ LinkRow.tld r = domainToTld h d
  end.
Proof.
  unfold buildRow. destruct (new_URL h normalized) as [err|url]; simpl; auto.
  destruct (Url.hostname url) as [|c t] eqn:E; simpl; auto.
  assert (Hne : hostnameToDomain (c :: t) <> [])
    by (apply hostnameToDomain_nonempty; congruence).
  split; [exact Hne|].
  destruct (hostnameToDomain (c :: t)); [congruence | reflexivity].
Qed.

(** C4, as stated, fails: with [assumeHttps] the line ["nota-url"] gives a
    valid row whose domain ["nota-url"] has no dot, and its tld is present:
    it is ["nota-url"]. *)
Lemma tld_present_without_dot :
  exists r : LinkRow.t,
    LinkAnalysis.items
      (run (analyzeLinks exampleHost (js "nota-url") (mkOptions true true)) 0)
    = [r]
    /\ LinkRow.isValid r = true
    /\ LinkRow.domain r = Some (js "nota-url")
    /\ ~ In (ch ".") (js "nota-url")
    /\ LinkRow.tld r = Some (js "nota-url")
    /\ LinkRow.tld r <> None.
Proof.
  eexists. split; [vm_compute; reflexivity|].
  repeat split; try discriminate.
  vm_compute. intros H. repeat (destruct H as [H|H]; [discriminate|]).
  exact H.
Qed.

(** C4, amended: a row without domain has no tld; a row with a domain has
    the tld [domainToTld] computes, the lowercased last non-empty piece
    between dots, which for a domain without a dot is the whole domain in
    lowercase.  For the line ["nota-url"] with [assumeHttps] the row is
    valid with domain ["nota-url"] and tld ["nota-url"]. *)
Theorem tld_of_domain (h : Host) (input : jsstring) (options : AnalyzeOptions)
        (k : nat) :
  Forall (fun r =>
            match LinkRow.domain r with
            | None => LinkRow.tld r = None
            | Some d =>
                LinkRow.tld r = domainToTld h d
                /\ (~ In (ch ".") d -> LinkRow.tld r = Some (toLowerCase h d))
            end)
         (LinkAnalysis.items (run (analyzeLinks h input options) k))
  /\ map withoutId
         (LinkAnalysis.items
            (run (analyzeLinks h (js "nota-url") (mkOptions true (dedupe options))) k))
     = [LinkRow.mk [] (js "nota-url") (js "https://nota-url") true None
                   (Some (js "https")) (Some (js "nota-url"))
                   (Some (js "nota-url")) (Some (js "nota-url"))
                   (Some (js "/")) 0 false 16].
Proof.
  split.
  - eapply Forall2_range; [|apply analyzeLinks_items].
    intros it r [rowId ->].
    pose proof (buildRow_tld h rowId (fst it) (snd it)) as H. cbv zeta in H.
    destruct (LinkRow.domain (buildRow h rowId (fst it) (snd it))) as [d|];
      [|exact H].
    destruct H as [Hne ->]. split; [reflexivity|].
    intros Hn. now apply domainToTld_without_dot.
  - rewrite items_withoutId. destruct (dedupe options); vm_compute; reflexivity.
Qed.

(** The rule of C4 at work on a domain without a dot: the row of
    ["nota-url"]. *)
Lemma tld_of_domain_witness :
  Forall (fun r => LinkRow.domain r = Some (js "nota-url")
                   /\ LinkRow.tld r = Some (js "nota-url"))
         (LinkAnalysis.items
            (run (analyzeLinks exampleHost (js "nota-url") (mkOptions true true)) 0)).
Proof.
  destruct (tld_of_domain exampleHost (js "nota-url") (mkOptions true true) 0)
    as [H _].
  revert H.
  set (items := LinkAnalysis.items
                  (run (analyzeLinks exampleHost (js "nota-url")
                                     (mkOptions true true)) 0)).
  vm_compute in items. subst items.
  intros H. inversion H as [|r l Hr Hl]; subst.
  constructor; [|constructor].
  simpl in Hr. destruct Hr as [_ Hr]. split; [reflexivity|].
  rewrite Hr.
  - reflexivity.
  - vm_compute. intros Hin.
    repeat (destruct Hin as [Hin|Hin]; [discriminate|]). exact Hin.
Defined.

(** ** The average length *)

(** C9: [avgLength] is the sum of the rows' lengths divided by [total], and
    0 when [total] is 0, so no division by zero happens; the empty input
    gives no items, total 0, average 0 and three empty distributions. *)
Theorem avgLength_guarded (h : Host) (input : jsstring) (options : AnalyzeOptions)
        (k : nat) :
  let a := run (analyzeLinks h input options) k in
  let m := LinkAnalysis.metrics a in
  let e := run (analyzeLinks h (js "") (mkOptions true true)) k in
  Metrics.avgLength m
  = (if (Metrics.total m =? 0)%nat then 0%float
     else (numberOfNat (list_sum (map LinkRow.length (LinkAnalysis.items a)))
           / numberOfNat (Metrics.total m))%float)
  /\ LinkAnalysis.items e = []
  /\ Metrics.total (LinkAnalysis.metrics e) = 0
  /\ Metrics.avgLength (LinkAnalysis.metrics e) = 0%float
  /\ LinkAnalysis.distributions e = Distributions.mk [] [] [].
Proof.
  cbv zeta. split.
  - destruct (analyzeLinks_run h input options k) as (_ & _ & -> & _).
    unfold metricsOf, tallyOf. simpl.
    destruct (tally_counts h (LinkAnalysis.items (run (analyzeLinks h input options) k))
                           emptyTally) as [_ ->].
    reflexivity.
  - destruct (analyzeLinks_run h (js "") (mkOptions true true) k)
      as (Hi & _ & Hm & Hd).
    assert (E : LinkAnalysis.items (run (analyzeLinks h (js "") (mkOptions true true)) k)
                = []) by (rewrite Hi; reflexivity).
    rewrite Hm, Hd, E. repeat split.
Qed.

(** ** Determinism *)

Lemma tallyRow_withoutId (h : Host) (acc : Tally) (r : LinkRow.t) :
  tallyRow h acc (withoutId r) = tallyRow h acc r.
Proof. reflexivity. Qed.

Lemma tallyOf_withoutId (h : Host) (items : list LinkRow.t) :
  tallyOf h (map withoutId items) = tallyOf h items.
Proof.
  unfold tallyOf. generalize emptyTally.
  induction items as [|r t IH]; intros acc; simpl; [reflexivity|].
  now rewrite tallyRow_withoutId, IH.
Qed.

Lemma metricsOf_withoutId (h : Host) (items : list LinkRow.t) :
  metricsOf h (map withoutId items) = metricsOf h items.
Proof.
  unfold metricsOf. now rewrite tallyOf_withoutId, length_map.
Qed.

Lemma distributionsOf_withoutId (h : Host) (items : list LinkRow.t) :
  distributionsOf h (map withoutId items) = distributionsOf h items.
Proof.
  unfold distributionsOf. now rewrite tallyOf_withoutId.
Qed.

(** The report, identifiers and time stamp apart, as a function of the input
    and the options. *)
Lemma analyzeLinks_pure (h : Host) (input : jsstring) (options : AnalyzeOptions)
      (k : nat) :
  let a := run (analyzeLinks h input options) k in
  LinkAnalysis.input a = input
  /\ map withoutId (LinkAnalysis.items a) = pureRows h input options
  /\ LinkAnalysis.metrics a = metricsOf h (pureRows h input options)
  /\ LinkAnalysis.distributions a = distributionsOf h (pureRows h input options).
Proof.
  cbv zeta. destruct (analyzeLinks_run h input options k) as (_ & Hin & Hm & Hd).
  rewrite Hin, Hm, Hd, <- (items_withoutId h input options k).
  now rewrite metricsOf_withoutId, distributionsOf_withoutId.
Qed.

(** *** Identifiers and the time stamp *)

Lemma safeId_uuid (h : Host) (randomUUID : nat -> jsstring) (k : nat) :
  crypto_randomUUID h = Some randomUUID -> safeId h k = (randomUUID k, S k).
Proof.
  intros Hc. unfold safeId. now rewrite Hc.
Qed.

Lemma mapM_uuid (h : Host) (randomUUID : nat -> jsstring)
      (l : list (jsstring * jsstring)) (k : nat) :
  crypto_randomUUID h = Some randomUUID ->
  map LinkRow.id (fst (mapM (analyzeRow h) l k))
  = map randomUUID (seq k (List.length l))
  /\ snd (mapM (analyzeRow h) l k) = k + List.length l.
Proof.
  intros Hc. revert k. induction l as [|it t IH]; intros k.
  - simpl. split; [reflexivity|lia].
  - assert (Hrow : analyzeRow h it k
                   = (buildRow h (randomUUID k) (fst it) (snd it), S k)).
    { unfold analyzeRow, bind. now rewrite (safeId_uuid h k Hc). }
    change (mapM (analyzeRow h) (it :: t) k)
      with (let '(y, k') := analyzeRow h it k in
            let '(ys, k'') := mapM (analyzeRow h) t k' in (y :: ys, k'')).
    rewrite Hrow. destruct (IH (S k)) as [IH1 IH2].
    destruct (mapM (analyzeRow h) t (S k)) as [ys k'].
    cbn [fst snd] in *. split.
    + cbn [map List.length seq]. f_equal; [|exact IH1].
      now destruct (buildRow_fields h (randomUUID k) (fst it) (snd it)) as [-> _].
    + subst k'. cbn [List.length]. lia.
Qed.

Lemma analyzeLinks_uuid (h : Host) (randomUUID : nat -> jsstring)
      (input : jsstring) (options : AnalyzeOptions) (k : nat) :
  crypto_randomUUID h = Some randomUUID ->
  let a := run (analyzeLinks h input options) k in
  let n := List.length (LinkAnalysis.items a) in
  map LinkRow.id (LinkAnalysis.items a) = map randomUUID (seq k n)
  /\ LinkAnalysis.id a = randomUUID (k + n)
  /\ readsAfter h input options k = k + n + 2.
Proof.
  intros Hc. cbv zeta. unfold readsAfter, run, analyzeLinks, bind.
  destruct (mapM_uuid h (uniqueList h input options) k Hc) as [H1 H2].
  destruct (mapM (analyzeRow h) (uniqueList h input options) k) as [items k1] eqn:E.
  cbn [fst snd] in H1, H2.
  assert (Hn : List.length items = List.length (uniqueList h input options)).
  { rewrite <- (length_map LinkRow.id), H1, length_map, length_seq. reflexivity. }
  rewrite (safeId_uuid h k1 Hc). unfold nowISO, bind, tick, ret.
  cbn [fst snd LinkAnalysis.items LinkAnalysis.id].
  rewrite Hn. subst k1. repeat split; [exact H1|lia].
Qed.

Lemma analyzeLinks_createdAt (h : Host) (input : jsstring)
      (options : AnalyzeOptions) (k : nat) :
  LinkAnalysis.createdAt (run (analyzeLinks h input options) k)
  = Date_toISOString h (Date_now h (clockRead h input options k)).
Proof.
  unfold clockRead, readsAfter, run, analyzeLinks, bind.
  destruct (mapM (analyzeRow h) (uniqueList h input options) k) as [items k1].
  destruct (safeId h k1) as [i k2]. unfold nowISO, bind, tick, ret. reflexivity.
Qed.

Lemma NoDup_map_injective (A B : Type) (f : A -> B) (l : list A) :
  (forall x y, f x = f y -> x = y) -> NoDup l -> NoDup (map f l).
Proof.
  intros Hf Hl. induction Hl as [|x l Hx Hl IH]; simpl; constructor; auto.
  intros Hin. apply in_map_iff in Hin. destruct Hin as (y & E & Hy).
  apply Hf in E. now subst y.
Qed.

Lemma NoDup_reads (k1 k2 n : nat) :
  k1 + n + 2 <= k2 ->
  NoDup (((k1 + n) :: seq k1 n) ++ (k2 + n) :: seq k2 n).
Proof.
  intros Hk. apply NoDup_app.
  - constructor; [rewrite in_seq; lia|apply seq_NoDup].
  - constructor; [rewrite in_seq; lia|apply seq_NoDup].
  - intros x [<-|H1] [E|H2]; rewrite ?in_seq in *; lia.
Qed.

Lemma js_injective (a b : string) : js a = js b -> a = b.
Proof.
  unfold js. intros E.
  rewrite <- (string_of_list_ascii_of_string a),
          <- (string_of_list_ascii_of_string b).
  f_equal. revert E. generalize (list_ascii_of_string a) (list_ascii_of_string b).
  intros l. induction l as [|x l IH]; intros [|y m] E; simpl in E;
    try discriminate; [reflexivity|].
  injection E as Ex El. f_equal; [|now apply IH].
  now rewrite <- (ascii_N_embedding x), <- (ascii_N_embedding y), Ex.
Qed.

Lemma to_int_nonnil (z : Z) :
  Z.to_int z <> Decimal.Pos Decimal.Nil /\ Z.to_int z <> Decimal.Neg Decimal.Nil.
Proof.
  destruct z as [|p|p]; simpl; split; try discriminate;
    intros [= E]; exact (DecimalPos.Unsigned.to_uint_nonnil p E).
Qed.

Lemma decimal_injective (x y : Z) : decimal x = decimal y -> x = y.
Proof.
  unfold decimal. intros E. apply js_injective in E.
  apply (f_equal DecimalString.NilZero.int_of_string) in E.
  destruct (to_int_nonnil x) as [Px Nx]. destruct (to_int_nonnil y) as [Py Ny].
  rewrite !DecimalString.NilZero.isi in E by assumption. injection E as E.
  apply (f_equal Z.of_int) in E. now rewrite !DecimalZ.of_to in E.
Qed.

Lemma exampleHost_randomUUID_injective (i j : nat) :
  js "uuid-" ++ decimal (Z.of_nat i) = js "uuid-" ++ decimal (Z.of_nat j) -> i = j.
Proof.
  intros E. apply app_inv_head, decimal_injective in E. lia.
Qed.

(** C1, as stated, fails: two runs in a row on the same input and options
    differ in the report's id and in the rows' ids, so the two records are
    not identical. *)
Lemma two_runs_differ :
  let '(a1, a2) := twice exampleHost (js "a.io") (mkOptions true true) in
  LinkAnalysis.id a1 <> LinkAnalysis.id a2
  /\ map LinkRow.id (LinkAnalysis.items a1) <> map LinkRow.id (LinkAnalysis.items a2)
  /\ a1 <> a2.
Proof.
  vm_compute. repeat split; discriminate.
Qed.

(** C1, amended: whatever the oracles have given before, two runs on the
    same input and options return the same input, the same rows up to their
    ids, the same metrics and the same distributions.  The identifiers and
    the time stamp are not functions of the input and the options: createdAt
    is the ISO text of the time the clock shows at the run's last read, so
    it is the same for two runs whenever the clock shows the same time to
    both; and on a host whose [crypto.randomUUID] never returns a
    value twice, all identifiers of a run and of a later run (of the reports
    and of the rows) are distinct from one another. *)
Theorem analyzeLinks_deterministic_up_to_ids (h : Host) (input : jsstring)
        (options : AnalyzeOptions) (k1 k2 : nat) :
  let a1 := run (analyzeLinks h input options) k1 in
  let a2 := run (analyzeLinks h input options) k2 in
  LinkAnalysis.input a1 = LinkAnalysis.input a2
  /\ map withoutId (LinkAnalysis.items a1) = map withoutId (LinkAnalysis.items a2)
  /\ LinkAnalysis.metrics a1 = LinkAnalysis.metrics a2
  /\ LinkAnalysis.distributions a1 = LinkAnalysis.distributions a2
  /\ LinkAnalysis.createdAt a1
     = Date_toISOString h (Date_now h (clockRead h input options k1))
  /\ LinkAnalysis.createdAt a2
     = Date_toISOString h (Date_now h (clockRead h input options k2))
  /\ (Date_now h (clockRead h input options k1)
      = Date_now h (clockRead h input options k2) ->
      LinkAnalysis.createdAt a1 = LinkAnalysis.createdAt a2)
  /\ (forall randomUUID,
         crypto_randomUUID h = Some randomUUID ->
         (forall i j, randomUUID i = randomUUID j -> i = j) ->
         readsAfter h input options k1 <= k2 ->
         NoDup (idsOf a1 ++ idsOf a2)).
Proof.
  cbv zeta.
  pose proof (analyzeLinks_pure h input options k1) as (E1 & I1 & M1 & D1).
  pose proof (analyzeLinks_pure h input options k2) as (E2 & I2 & M2 & D2).
  cbv zeta in *.
  rewrite !analyzeLinks_createdAt.
  split; [congruence|]. split; [congruence|]. split; [congruence|].
  split; [congruence|]. split; [reflexivity|]. split; [reflexivity|].
  split; [intros E; now rewrite E|].
  intros randomUUID Hc Hinj Hk.
  destruct (analyzeLinks_uuid h input options k1 Hc) as (R1 & A1 & K1).
  destruct (analyzeLinks_uuid h input options k2 Hc) as (R2 & A2 & _).
  cbv zeta in *.
  assert (Hn : List.length (LinkAnalysis.items (run (analyzeLinks h input options) k2))
               = List.length (LinkAnalysis.items (run (analyzeLinks h input options) k1))).
  { rewrite <- (length_map withoutId), I2, <- I1, length_map. reflexivity. }
  unfold idsOf. rewrite R1, A1, R2, A2, Hn.
  set (n := List.length (LinkAnalysis.items (run (analyzeLinks h input options) k1))) in *.
  replace ((randomUUID (k1 + n) :: map randomUUID (seq k1 n))
             ++ randomUUID (k2 + n) :: map randomUUID (seq k2 n))
    with (map randomUUID (((k1 + n) :: seq k1 n) ++ (k2 + n) :: seq k2 n))
    by (rewrite map_app; reflexivity).
  apply NoDup_map_injective; [exact Hinj|]. apply NoDup_reads. lia.
Qed.

(** On the example host, whose identifiers are numbered, the identifiers of
    two runs in a row are all distinct. *)
Lemma analyzeLinks_deterministic_up_to_ids_witness :
  let a1 := run (analyzeLinks exampleHost (js "a.io") (mkOptions true true)) 0 in
  let a2 := run (analyzeLinks exampleHost (js "a.io") (mkOptions true true)) 3 in
  NoDup (idsOf a1 ++ idsOf a2).
Proof.
  cbv zeta.
  refine (proj2 (proj2 (proj2 (proj2 (proj2 (proj2 (proj2
            (analyzeLinks_deterministic_up_to_ids
               exampleHost (js "a.io") (mkOptions true true) 0 3)))))))
            (fun k => js "uuid-" ++ decimal (Z.of_nat k)) eq_refl
            exampleHost_randomUUID_injective _).
  vm_compute. apply le_n.
Defined.

(** ** Hosts, domains and query parameters on concrete links *)

Lemma options_cases (P : AnalyzeOptions -> Prop) :
  P (mkOptions true true) -> P (mkOptions true false) ->
  P (mkOptions false true) -> P (mkOptions false false) ->
  forall options, P options.
Proof.
  intros H1 H2 H3 H4 [[|] [|]]; assumption.
Qed.

(** C7, as stated, fails: the URL parser lowercases the host of an https
    URL, so the row of ["https://www.Example.com/x"] has hostname
    ["www.example.com"] and domain ["example.com"], not ["Example.com"]. *)
Lemma domain_case_not_preserved :
  exists r : LinkRow.t,
    LinkAnalysis.items
      (run (analyzeLinks exampleHost (js "https://www.Example.com/x")
                         (mkOptions true true)) 0)
    = [r]
    /\ LinkRow.normalized r = js "https://www.Example.com/x"
    /\ LinkRow.hostname r = Some (js "www.example.com")
    /\ LinkRow.domain r = Some (js "example.com")
    /\ LinkRow.domain r <> Some (js "Example.com").
Proof.
  eexists. split; [vm_compute; reflexivity|].
  repeat split. discriminate.
Qed.

(** C7, amended: for the normalized string ["https://www.Example.com/x"]
    the row has domain ["example.com"] (the parser has lowercased the host,
    the leading ["www."] is removed) and the key of the domain distribution
    is ["example.com"].  [hostnameToDomain] itself keeps the case of what it
    is given and matches the prefix whatever its case; a scheme whose host
    the parser leaves as written shows it: ["git://WWW.Example.com/x"] has
    domain ["Example.com"] and the key ["example.com"]. *)
Theorem www_stripping (h : Host) (options : AnalyzeOptions) (k : nat) :
  let a := run (analyzeLinks h (js "https://www.Example.com/x") options) k in
  let g := run (analyzeLinks h (js "git://WWW.Example.com/x") options) k in
  map withoutId (LinkAnalysis.items a)
  = [LinkRow.mk [] (js "https://www.Example.com/x") (js "https://www.Example.com/x")
                true None (Some (js "https")) (Some (js "www.example.com"))
                (Some (js "example.com")) (Some (js "com")) (Some (js "/x"))
                0 false 25]
  /\ Distributions.domain (LinkAnalysis.distributions a)
     = [(js "example.com", NumberValue 1)]
  /\ hostnameToDomain (js "WWW.Example.com") = js "Example.com"
  /\ map LinkRow.domain (LinkAnalysis.items g) = [Some (js "Example.com")]
  /\ Distributions.domain (LinkAnalysis.distributions g)
     = [(js "example.com", NumberValue 1)].
Proof.
  cbv zeta.
  rewrite (items_projection LinkRow.domain) by reflexivity.
  destruct (analyzeLinks_pure h (js "https://www.Example.com/x") options k)
    as (_ & -> & _ & ->).
  destruct (analyzeLinks_pure h (js "git://WWW.Example.com/x") options k)
    as (_ & _ & _ & ->).
  revert options. apply options_cases; vm_compute; repeat split.
Qed.

(** C8: [queryParams] counts the name-value pairs of the query in order, a
    repeated name once per occurrence: ["http://example.com/path?a=1&b=2"]
    and ["http://example.com/path?a=1&a=2"] both give 2. *)
Theorem queryParams_counts_pairs (h : Host) (options : AnalyzeOptions) (k : nat) :
  map LinkRow.queryParams
      (LinkAnalysis.items
         (run (analyzeLinks h (js "http://example.com/path?a=1&b=2") options) k))
  = [2]
  /\ map LinkRow.queryParams
         (LinkAnalysis.items
            (run (analyzeLinks h (js "http://example.com/path?a=1&a=2") options) k))
     = [2]
  /\ option_map Url.searchParamsKeys
                (Url.parse (unicode_domainToASCII h)
                           (js "http://example.com/path?a=1&b=2"))
     = Some [js "a"; js "b"]
  /\ option_map Url.searchParamsKeys
                (Url.parse (unicode_domainToASCII h)
                           (js "http://example.com/path?a=1&a=2"))
     = Some [js "a"; js "a"]
  /\ forall rowId raw normalized,
      LinkRow.queryParams (buildRow h rowId raw normalized)
      = match new_URL h normalized with
        | inr url => List.length (Url.searchParams url)
        | inl _ => 0
        end.
Proof.
  rewrite !(items_projection LinkRow.queryParams) by reflexivity.
  split; [|split; [|split; [|split]]].
  - revert options. apply options_cases; vm_compute; reflexivity.
  - revert options. apply options_cases; vm_compute; reflexivity.
  - vm_compute. reflexivity.
  - vm_compute. reflexivity.
  - intros rowId raw normalized. unfold buildRow.
    destruct (new_URL h normalized) as [err|url]; cbn [LinkRow.queryParams].
    + reflexivity.
    + unfold Url.searchParamsKeys. apply length_map.
Qed.

(** ** Insertion-ordered maps *)

Lemma filter_twice (A : Type) (f g : A -> bool) (l : list A) :
  filter f (filter g l) = filter (fun x => g x && f x) l.
Proof.
  induction l as [|x t IH]; simpl; [reflexivity|].
  destruct (g x); simpl; [destruct (f x)|]; congruence.
Qed.

Section MapFacts.

Variables K V : Type.
Variable eqb : K -> K -> bool.
Hypothesis eqb_spec : forall a b, eqb a b = true <-> a = b.

Let step (m : list (K * V)) (e : K * V) : list (K * V) :=
  Map_set eqb m (fst e) (snd e).

Lemma eqb_same (a : K) : eqb a a = true.
Proof. now apply eqb_spec. Qed.

Lemma eqb_sym (a b : K) : eqb a b = eqb b a.
Proof.
  destruct (eqb a b) eqn:E1, (eqb b a) eqn:E2; auto.
  - apply eqb_spec in E1. subst. now rewrite eqb_same in E2.
  - apply eqb_spec in E2. subst. now rewrite eqb_same in E1.
Qed.

Lemma Map_set_keys (m : list (K * V)) (k : K) (v : V) :
  map fst (Map_set eqb m k v)
  = if existsb (fun k' => eqb k' k) (map fst m)
    then map fst m else map fst m ++ [k].
Proof.
  induction m as [|[k' v'] t IH]; simpl; [reflexivity|].
  destruct (eqb k' k) eqn:E; simpl; [reflexivity|].
  rewrite IH. now destruct (existsb (fun k'0 => eqb k'0 k) (map fst t)).
Qed.

Lemma Map_fold_keys (es m : list (K * V)) :
  map fst (fold_left step es m)
  = map fst m
    ++ filter (fun x => negb (existsb (fun k' => eqb k' x) (map fst m)))
              (firstOccurrences eqb (map fst es)).
Proof.
  revert m. induction es as [|[k v] t IH]; intros m; simpl.
  - now rewrite app_nil_r.
  - rewrite IH. unfold step at 1 2. simpl. rewrite Map_set_keys.
    destruct (existsb (fun k' => eqb k' k) (map fst m)) eqn:E; simpl.
    + f_equal. rewrite filter_twice. apply filter_ext. intros x.
      destruct (eqb x k) eqn:Exk; simpl.
      * apply eqb_spec in Exk. subst. now rewrite E.
      * reflexivity.
    + rewrite <- app_assoc. simpl. do 2 f_equal.
      rewrite filter_twice. apply filter_ext. intros x.
      rewrite existsb_app. simpl. rewrite orb_false_r, negb_orb.
      rewrite (eqb_sym k x). apply andb_comm.
Qed.

Lemma Map_new_keys (es : list (K * V)) :
  map fst (Map_new eqb es) = firstOccurrences eqb (map fst es).
Proof.
  unfold Map_new. change (fun m e => Map_set eqb m (fst e) (snd e)) with step.
  rewrite Map_fold_keys. simpl.
  induction (firstOccurrences eqb (map fst es)); simpl; congruence.
Qed.

Lemma firstOccurrences_In (ks : list K) (x : K) :
  In x (firstOccurrences eqb ks) <-> In x ks.
Proof.
  induction ks as [|k t IH]; simpl; [tauto|].
  rewrite filter_In, IH. split.
  - intros [H|[H _]]; auto.
  - intros [H|H]; auto. destruct (eqb x k) eqn:E.
    + left. symmetry. now apply eqb_spec.
    + right. auto.
Qed.

Lemma firstOccurrences_NoDup (ks : list K) : NoDup (firstOccurrences eqb ks).
Proof.
  induction ks as [|k t IH]; simpl; constructor.
  - rewrite filter_In. intros [_ H]. now rewrite eqb_same in H.
  - now apply NoDup_filter.
Qed.

Lemma Map_get_set (m : list (K * V)) (k k' : K) (v : V) :
  Map_get eqb (Map_set eqb m k v) k'
  = if eqb k k' then Some v else Map_get eqb m k'.
Proof.
  unfold Map_get. induction m as [|[k0 v0] t IH]; simpl.
  - now destruct (eqb k k').
  - destruct (eqb k0 k) eqn:E; simpl.
    + apply eqb_spec in E. subst. now destruct (eqb k k').
    + destruct (eqb k0 k') eqn:E'; simpl.
      * apply eqb_spec in E'. subst. now rewrite eqb_sym, E.
      * exact IH.
Qed.

Lemma find_snoc (A : Type) (p : A -> bool) (l : list A) (x : A) :
  find p (l ++ [x])
  = match find p l with
    | Some y => Some y
    | None => if p x then Some x else None
    end.
Proof.
  induction l as [|a t IH]; simpl; [reflexivity|]. now destruct (p a).
Qed.

Lemma Map_fold_get (es m : list (K * V)) (k : K) :
  Map_get eqb (fold_left step es m) k
  = match find (fun e => eqb (fst e) k) (rev es) with
    | Some e => Some (snd e)
    | None => Map_get eqb m k
    end.
Proof.
  revert m. induction es as [|e t IH]; intros m; simpl; [reflexivity|].
  rewrite IH, find_snoc.
  destruct (find (fun e0 => eqb (fst e0) k) (rev t)); [reflexivity|].
  unfold step. rewrite Map_get_set. now destruct (eqb (fst e) k).
Qed.

Lemma Map_get_In (m : list (K * V)) (k : K) (v : V) :
  NoDup (map fst m) -> In (k, v) m -> Map_get eqb m k = Some v.
Proof.
  unfold Map_get. induction m as [|[k0 v0] t IH]; simpl; [tauto|].
  intros Hnd [H|H].
  - inversion H; subst. now rewrite eqb_same.
  - inversion Hnd as [|? ? Hnotin Hnd']; subst.
    destruct (eqb k0 k) eqn:E.
    + apply eqb_spec in E. subst. exfalso. apply Hnotin.
      change k with (fst (k, v)). now apply in_map.
    + now apply IH.
Qed.

(** What [new Map(entries)] holds: an entry of the map is the last of the
    entries given with its key. *)
Lemma Map_new_last (es : list (K * V)) (k : K) (v : V) :
  In (k, v) (Map_new eqb es) ->
  exists e, find (fun e => eqb (fst e) k) (rev es) = Some e /\ snd e = v.
Proof.
  intros Hin.
  assert (Hget : Map_get eqb (Map_new eqb es) k = Some v).
  { apply Map_get_In; [|exact Hin]. rewrite Map_new_keys.
    apply firstOccurrences_NoDup. }
  unfold Map_new in Hget.
  change (fun m e => Map_set eqb m (fst e) (snd e)) with step in Hget.
  rewrite Map_fold_get in Hget.
  destruct (find (fun e => eqb (fst e) k) (rev es)) as [e|]; [|discriminate].
  exists e. split; [reflexivity|]. simpl in Hget. congruence.
Qed.

End MapFacts.

(** ** Deduplication *)

Lemma find_mapped (A B : Type) (f : A -> B) (p : B -> bool) (l : list A) :
  find p (map f l) = option_map f (find (fun x => p (f x)) l).
Proof.
  induction l as [|x t IH]; simpl; [reflexivity|]. now destruct (p (f x)).
Qed.

Lemma dedupe_entry (h : Host) (l : list (jsstring * jsstring))
      (k : jsstring) (it : jsstring * jsstring) :
  In (k, it) (Map_new str_eqb (map (fun x => (toLowerCase h (snd x), x)) l)) ->
  k = keyOf h it /\ lastWithKey h (keyOf h it) l = Some it.
Proof.
  intros Hin. apply (Map_new_last str_eqb str_eqb_eq) in Hin.
  destruct Hin as (e & Hfind & Hsnd).
  rewrite <- map_rev, find_mapped in Hfind. simpl in Hfind.
  destruct (find (fun x => str_eqb (toLowerCase h (snd x)) k) (rev l))
    as [x|] eqn:E; [|discriminate].
  simpl in Hfind. inversion Hfind; subst e. simpl in Hsnd. subst x.
  destruct (find_some _ _ E) as [_ Hk]. apply str_eqb_eq in Hk.
  split; [now symmetry|].
  unfold lastWithKey, keyOf. rewrite Hk. exact E.
Qed.

Lemma dedupeList_last (h : Host) (l : list (jsstring * jsstring))
      (it : jsstring * jsstring) :
  In it (dedupeList h l) -> lastWithKey h (keyOf h it) l = Some it.
Proof.
  unfold dedupeList, Map_values. intros Hin. apply in_map_iff in Hin.
  destruct Hin as ([k x] & Hx & Hin). simpl in Hx. subst x.
  now apply dedupe_entry in Hin.
Qed.

Lemma dedupeList_In (h : Host) (l : list (jsstring * jsstring))
      (it : jsstring * jsstring) :
  In it (dedupeList h l) -> In it l.
Proof.
  intros Hin. apply dedupeList_last in Hin. unfold lastWithKey in Hin.
  apply find_some in Hin. now apply in_rev.
Qed.

Lemma dedupeList_keys (h : Host) (l : list (jsstring * jsstring)) :
  map (keyOf h) (dedupeList h l) = firstOccurrences str_eqb (map (keyOf h) l).
Proof.
  unfold dedupeList, Map_values. rewrite map_map.
  transitivity
    (map fst (Map_new str_eqb (map (fun x => (toLowerCase h (snd x), x)) l))).
  - apply map_ext_in. intros [k it] Hin. simpl.
    now destruct (dedupe_entry h l k it Hin) as [-> _].
  - rewrite (Map_new_keys str_eqb str_eqb_eq), map_map. reflexivity.
Qed.

(** C3, as stated, fails: of the lines ["Example.com"] and ["example.com"]
    the one kept is the second, the last with its key. *)
Lemma dedupe_keeps_second_line :
  map LinkRow.raw
      (LinkAnalysis.items
         (run (analyzeLinks exampleHost
                            (js "Example.com" ++ [10%N] ++ js "example.com")
                            (mkOptions true true)) 0))
  = [js "example.com"]
  /\ map LinkRow.raw
         (LinkAnalysis.items
            (run (analyzeLinks exampleHost
                               (js "Example.com" ++ [10%N] ++ js "example.com")
                               (mkOptions true true)) 0))
     <> [js "Example.com"].
Proof.
  split; vm_compute; [reflexivity | discriminate].
Qed.

(** C3, amended: with [dedupe] the rows have pairwise distinct lowercased
    normalized values, listed in the order in which these values first
    occur among the lines, and the pair kept for a value is the one of its
    LAST occurrence.  The lines ["Example.com"] and ["example.com"] with
    [assumeHttps] collapse to one row, whose raw text is ["example.com"]. *)
Theorem dedupe_keeps_last (h : Host) (input : jsstring) (assume : bool) (k : nat) :
  let options := mkOptions assume true in
  let l := normalizedList input options in
  let items := LinkAnalysis.items (run (analyzeLinks h input options) k) in
  map (fun r => toLowerCase h (LinkRow.normalized r)) items
  = firstOccurrences str_eqb (map (keyOf h) l)
  /\ NoDup (map (fun r => toLowerCase h (LinkRow.normalized r)) items)
  /\ Forall (fun r => lastWithKey h (toLowerCase h (LinkRow.normalized r)) l
                      = Some (LinkRow.raw r, LinkRow.normalized r)) items
  /\ map withoutId
         (LinkAnalysis.items
            (run (analyzeLinks h (js "Example.com" ++ [10%N] ++ js "example.com")
                               (mkOptions true true)) k))
     = [LinkRow.mk [] (js "example.com") (js "https://example.com") true None
                   (Some (js "https")) (Some (js "example.com"))
                   (Some (js "example.com")) (Some (js "com")) (Some (js "/"))
                   0 false 19].
Proof.
  cbv zeta.
  pose proof (items_pairs h input (mkOptions assume true) k) as Hpairs.
  unfold uniqueList in Hpairs. simpl dedupe in Hpairs.
  cbv iota in Hpairs.
  set (items := LinkAnalysis.items (run (analyzeLinks h input (mkOptions assume true)) k))
    in *.
  set (l := normalizedList input (mkOptions assume true)) in *.
  assert (Hkeys : map (fun r => toLowerCase h (LinkRow.normalized r)) items
                  = firstOccurrences str_eqb (map (keyOf h) l)).
  { rewrite <- dedupeList_keys, <- Hpairs, map_map. reflexivity. }
  split; [exact Hkeys|]. split; [|split].
  - rewrite Hkeys. apply (firstOccurrences_NoDup str_eqb str_eqb_eq).
  - apply Forall_forall. intros r Hr.
    apply (dedupeList_last h l (LinkRow.raw r, LinkRow.normalized r)).
    rewrite <- Hpairs.
    apply (in_map (fun r => (LinkRow.raw r, LinkRow.normalized r))) in Hr.
    exact Hr.
  - rewrite items_withoutId. vm_compute. reflexivity.
Qed.

(** ** The raw text of a row *)

Lemma inputLines_trimmed (input x : jsstring) :
  In x (inputLines input) -> trim x = x /\ x <> [].
Proof.
  unfold inputLines. intros Hin. apply filter_In in Hin.
  destruct Hin as [Hin Hlen]. apply in_map_iff in Hin.
  destruct Hin as (y & <- & _). split; [apply trim_idempotent|].
  intros E. rewrite E in Hlen. discriminate.
Qed.

Lemma uniqueList_In (h : Host) (input : jsstring) (options : AnalyzeOptions)
      (it : jsstring * jsstring) :
  In it (uniqueList h input options) -> In (fst it) (inputLines input).
Proof.
  unfold uniqueList. intros Hin.
  assert (H : In it (normalizedList input options)).
  { destruct (dedupe options); [now apply dedupeList_In in Hin | exact Hin]. }
  unfold normalizedList in H. apply in_map_iff in H.
  destruct H as (raw & <- & H). exact H.
Qed.

(** C6, as stated, fails: the line ["  a.io  "] is kept as the row's raw
    text without its leading and trailing spaces. *)
Lemma raw_loses_surrounding_spaces :
  splitLines (js "  a.io  ") = [js "  a.io  "]
  /\ map LinkRow.raw
         (LinkAnalysis.items
            (run (analyzeLinks exampleHost (js "  a.io  ") (mkOptions true false)) 0))
     = [js "a.io"]
  /\ map LinkRow.raw
         (LinkAnalysis.items
            (run (analyzeLinks exampleHost (js "  a.io  ") (mkOptions true false)) 0))
     <> [js "  a.io  "].
Proof.
  repeat split; vm_compute; try reflexivity. discriminate.
Qed.

(** C6, amended: the raw text of a row is a line of the input after
    trimming, never empty: without [dedupe] the raw texts are exactly the
    trimmed non-empty lines in order, with [dedupe] they are among them. *)
Theorem raw_is_trimmed_line (h : Host) (input : jsstring)
        (options : AnalyzeOptions) (k : nat) :
  map LinkRow.raw
      (LinkAnalysis.items
         (run (analyzeLinks h input (mkOptions (assumeHttps options) false)) k))
  = filter nonEmpty (map trim (splitLines input))
  /\ Forall (fun r => In (LinkRow.raw r) (filter nonEmpty (map trim (splitLines input)))
                      /\ trim (LinkRow.raw r) = LinkRow.raw r
                      /\ LinkRow.raw r <> [])
            (LinkAnalysis.items (run (analyzeLinks h input options) k)).
Proof.
  change (filter nonEmpty (map trim (splitLines input))) with (inputLines input).
  split.
  - pose proof (items_pairs h input (mkOptions (assumeHttps options) false) k)
      as Hpairs.
    apply (f_equal (map fst)) in Hpairs.
    rewrite map_map in Hpairs. simpl in Hpairs.
    etransitivity; [exact Hpairs|].
    unfold uniqueList, normalizedList. simpl. rewrite map_map. simpl.
    apply map_id.
  - pose proof (items_pairs h input options k) as Hpairs.
    apply Forall_forall. intros r Hr.
    assert (Hin : In (LinkRow.raw r) (inputLines input)).
    { apply (uniqueList_In h input options (LinkRow.raw r, LinkRow.normalized r)).
      rewrite <- Hpairs.
      exact (in_map (fun r => (LinkRow.raw r, LinkRow.normalized r)) _ _ Hr). }
    split; [exact Hin|]. exact (inputLines_trimmed input _ Hin).
Qed.

(** * Further properties of the aggregation *)

(** ** Counters *)

Lemma setOwn_keys (m : Dict) (key : jsstring) (v : PropValue) :
  map fst (setOwn m key v)
  = if existsb (fun k => str_eqb k key) (map fst m)
    then map fst m else map fst m ++ [key].
Proof.
  induction m as [|[k w] t IH]; simpl; [reflexivity|].
  destruct (str_eqb k key) eqn:E; simpl; [reflexivity|].
  rewrite IH. now destruct (existsb (fun k0 => str_eqb k0 key) (map fst t)).
Qed.

Lemma getOwn_None (m : Dict) (key : jsstring) :
  getOwn m key = None <-> existsb (fun k => str_eqb k key) (map fst m) = false.
Proof.
  induction m as [|[k w] t IH]; simpl; [tauto|].
  destruct (str_eqb k key); simpl; [split; discriminate | exact IH].
Qed.

Lemma getOwn_setOwn (m : Dict) (key key' : jsstring) (v : PropValue) :
  getOwn (setOwn m key v) key'
  = if str_eqb key key' then Some v else getOwn m key'.
Proof.
  induction m as [|[k w] t IH]; simpl.
  - now destruct (str_eqb key key').
  - destruct (str_eqb k key) eqn:E; simpl.
    + apply str_eqb_eq in E. subst k. now destruct (str_eqb key key').
    + destruct (str_eqb k key') eqn:E'.
      * apply str_eqb_eq in E'. subst k.
        destruct (str_eqb key key') eqn:E2; [|reflexivity].
        apply str_eqb_eq in E2. subst. now rewrite str_eqb_refl in E.
      * exact IH.
Qed.

Lemma setOwn_NoDup (m : Dict) (key : jsstring) (v : PropValue) :
  NoDup (map fst m) -> NoDup (map fst (setOwn m key v)).
Proof.
  intros Hnd. rewrite setOwn_keys.
  destruct (existsb (fun k => str_eqb k key) (map fst m)) eqn:E; [exact Hnd|].
  apply NoDup_rev in Hnd. rewrite <- (rev_involutive (map fst m ++ [key])).
  apply NoDup_rev. rewrite rev_app_distr. simpl. constructor; [|exact Hnd].
  intros Hin. apply in_rev in Hin.
  assert (Ht : existsb (fun k => str_eqb k key) (map fst m) = true).
  { apply existsb_exists. exists key. split; [exact Hin | apply str_eqb_refl]. }
  congruence.
Qed.

Lemma setOwn_length (m : Dict) (key : jsstring) (v : PropValue) :
  List.length m <= List.length (setOwn m key v) <= S (List.length m).
Proof.
  induction m as [|[k w] t IH]; simpl; [lia|].
  destruct (str_eqb k key); simpl; lia.
Qed.

Lemma inc_cases (h : Host) (m : Dict) (key : jsstring) :
  inc h m key = m \/ exists v, inc h m key = setOwn m key v.
Proof.
  unfold inc. destruct (getOwn m key) as [[n|s]|]; eauto.
  destruct (existsb (str_eqb key) objectPrototypeKeys); eauto.
  destruct (str_eqb key (js "__proto__")); eauto.
Qed.

Lemma inc_NoDup (h : Host) (m : Dict) (key : jsstring) :
  NoDup (map fst m) -> NoDup (map fst (inc h m key)).
Proof.
  intros Hnd. destruct (inc_cases h m key) as [-> | [v ->]];
    [exact Hnd | now apply setOwn_NoDup].
Qed.

Lemma inc_length (h : Host) (m : Dict) (key : jsstring) :
  List.length m <= List.length (inc h m key) <= S (List.length m).
Proof.
  destruct (inc_cases h m key) as [-> | [v ->]]; [lia | apply setOwn_length].
Qed.

Lemma incAll_NoDup (h : Host) (keys : list jsstring) (m : Dict) :
  NoDup (map fst m) -> NoDup (map fst (incAll h keys m)).
Proof.
  unfold incAll. revert m. induction keys as [|k t IH]; intros m Hnd; simpl;
    [exact Hnd|]. apply IH. now apply inc_NoDup.
Qed.

Lemma incAll_length (h : Host) (keys : list jsstring) (m : Dict) :
  List.length (incAll h keys m) <= List.length m + List.length keys.
Proof.
  unfold incAll. revert m. induction keys as [|k t IH]; intros m; simpl; [lia|].
  specialize (IH (inc h m k)). pose proof (inc_length h m k). lia.
Qed.

(** The three records of the loop are those of the counted keys. *)
Lemma tally_dists (h : Host) (items : list LinkRow.t) (acc : Tally) :
  let acc' := fold_left (tallyRow h) items acc in
  protocolDist acc' = incAll h (countedKeys LinkRow.protocol items) (protocolDist acc)
  /\ domainDist acc'
     = incAll h (map (toLowerCase h) (countedKeys LinkRow.domain items))
              (domainDist acc)
  /\ tldDist acc' = incAll h (countedKeys LinkRow.tld items) (tldDist acc).
Proof.
  revert acc. induction items as [|r t IH]; intros acc; simpl; [auto|].
  destruct (IH (tallyRow h acc r)) as (-> & -> & ->).
  unfold countedKeys, incAll. simpl. rewrite !map_app, !fold_left_app.
  unfold tallyRow. simpl.
  destruct (LinkRow.protocol r) as [[|? ?]|], (LinkRow.domain r) as [[|? ?]|],
    (LinkRow.tld r) as [[|? ?]|]; simpl; repeat split.
Qed.

Lemma inc_other (h : Host) (m : Dict) (key k : jsstring) :
  key <> k -> getOwn (inc h m key) k = getOwn m k.
Proof.
  intros Hne. destruct (inc_cases h m key) as [-> | [v ->]]; [reflexivity|].
  rewrite getOwn_setOwn. apply str_eqb_neq in Hne. now rewrite Hne.
Qed.

Lemma inc_same (h : Host) (m : Dict) (k : jsstring) (n : nat) :
  inherited k = false -> getOwn m k = counted n ->
  getOwn (inc h m k) k = counted (S n).
Proof.
  intros Hk Hget. unfold inc, inherited in *. rewrite Hget.
  destruct n as [|n]; simpl counted at 1; cbv iota.
  - rewrite Hk, getOwn_setOwn, str_eqb_refl. reflexivity.
  - rewrite getOwn_setOwn, str_eqb_refl. unfold counted. do 2 f_equal. lia.
Qed.

Lemma incAll_counted (h : Host) (keys : list jsstring) (m : Dict)
      (k : jsstring) (n : nat) :
  inherited k = false -> getOwn m k = counted n ->
  getOwn (incAll h keys m) k
  = counted (n + List.length (filter (str_eqb k) keys)).
Proof.
  intros Hk. unfold incAll. revert m n.
  induction keys as [|key t IH]; intros m n Hget; simpl.
  - now rewrite Nat.add_0_r.
  - destruct (str_eqb k key) eqn:E; simpl.
    + apply str_eqb_eq in E. subst key.
      rewrite (IH (inc h m k) (S n)) by now apply inc_same.
      f_equal. lia.
    + apply IH. rewrite inc_other; [exact Hget|].
      apply str_eqb_neq in E. congruence.
Qed.

Lemma inc_inherited (h : Host) (m : Dict) (key k : jsstring) :
  inherited k = true -> isNumberValue (getOwn m k) = false ->
  isNumberValue (getOwn (inc h m key) k) = false.
Proof.
  intros Hk Hm. destruct (str_eqb key k) eqn:E.
  - apply str_eqb_eq in E. subst key. unfold inc, inherited in *.
    destruct (getOwn m k) as [[n|s]|] eqn:G; simpl in Hm; try discriminate.
    + rewrite getOwn_setOwn, str_eqb_refl. reflexivity.
    + rewrite Hk. destruct (str_eqb k (js "__proto__")).
      * now rewrite G.
      * rewrite getOwn_setOwn, str_eqb_refl. reflexivity.
  - rewrite inc_other; [exact Hm|]. apply str_eqb_neq in E. exact E.
Qed.

Lemma inc_proto (h : Host) (m : Dict) (key : jsstring) :
  getOwn m (js "__proto__") = None ->
  getOwn (inc h m key) (js "__proto__") = None.
Proof.
  intros Hm. destruct (str_eqb key (js "__proto__")) eqn:E.
  - apply str_eqb_eq in E. subst key. unfold inc. rewrite Hm. exact Hm.
  - rewrite inc_other; [exact Hm|]. apply str_eqb_neq in E. exact E.
Qed.

Lemma incAll_inherited (h : Host) (keys : list jsstring) (m : Dict) :
  (Forall (fun k => isNumberValue (getOwn m k) = false) objectPrototypeKeys
   /\ getOwn m (js "__proto__") = None) ->
  Forall (fun k => isNumberValue (getOwn (incAll h keys m) k) = false)
         objectPrototypeKeys
  /\ getOwn (incAll h keys m) (js "__proto__") = None.
Proof.
  unfold incAll. revert m. induction keys as [|key t IH]; intros m [Hf Hp]; simpl;
    [auto|].
  apply IH. split; [|now apply inc_proto].
  rewrite Forall_forall in *. intros k Hin. apply inc_inherited; [|auto].
  unfold inherited. apply existsb_exists. exists k. split; [exact Hin|].
  apply str_eqb_refl.
Qed.

Lemma countedKeys_count (f : LinkRow.t -> option jsstring) (k : jsstring)
      (items : list LinkRow.t) :
  k <> [] ->
  List.length (filter (str_eqb k) (countedKeys f items)) = rowsWith f k items.
Proof.
  intros Hne. unfold countedKeys, rowsWith.
  induction items as [|r t IH]; simpl; [reflexivity|].
  rewrite filter_app, length_app, IH.
  destruct (f r) as [[|c p]|]; simpl; try reflexivity.
  - destruct (str_eqb [] k) eqn:E; [|reflexivity].
    apply str_eqb_eq in E. congruence.
  - destruct (str_eqb k (c :: p)) eqn:E1, (str_eqb (c :: p) k) eqn:E2;
      simpl; try reflexivity.
    + apply str_eqb_eq in E1. subst k. now rewrite str_eqb_refl in E2.
    + apply str_eqb_eq in E2. subst k. now rewrite str_eqb_refl in E1.
Qed.

Lemma loweredKeys_count (h : Host) (k : jsstring) (items : list LinkRow.t) :
  k <> [] ->
  List.length (filter (str_eqb k)
                      (map (toLowerCase h) (countedKeys LinkRow.domain items)))
  = rowsWith (fun r => option_map (toLowerCase h) (LinkRow.domain r)) k items.
Proof.
  intros Hne. unfold countedKeys, rowsWith.
  induction items as [|r t IH]; simpl; [reflexivity|].
  rewrite map_app, filter_app, length_app, IH.
  destruct (LinkRow.domain r) as [[|c p]|]; simpl; try reflexivity.
  - destruct (str_eqb (toLowerCase h []) k) eqn:E; [|reflexivity].
    apply str_eqb_eq in E. unfold toLowerCase in E. simpl in E.
    symmetry in E. contradiction.
  - destruct (str_eqb k (toLowerCase h (c :: p))) eqn:E1,
             (str_eqb (toLowerCase h (c :: p)) k) eqn:E2;
      simpl; try reflexivity.
    + apply str_eqb_eq in E1. rewrite <- E1 in E2. now rewrite str_eqb_refl in E2.
    + apply str_eqb_eq in E2. rewrite E2 in E1. now rewrite str_eqb_refl in E1.
Qed.

Lemma distributions_of_run (h : Host) (input : jsstring) (options : AnalyzeOptions)
      (k : nat) :
  let a := run (analyzeLinks h input options) k in
  let d := LinkAnalysis.distributions a in
  let items := LinkAnalysis.items a in
  Distributions.protocol d = incAll h (countedKeys LinkRow.protocol items) []
  /\ Distributions.domain d
     = incAll h (map (toLowerCase h) (countedKeys LinkRow.domain items)) []
  /\ Distributions.tld d = incAll h (countedKeys LinkRow.tld items) [].
Proof.
  cbv zeta. destruct (analyzeLinks_run h input options k) as (_ & _ & _ & ->).
  unfold distributionsOf, tallyOf. simpl.
  exact (tally_dists h (LinkAnalysis.items (run (analyzeLinks h input options) k))
                     emptyTally).
Qed.

(** A distribution holds, for a key that is neither empty nor a property of
    [Object.prototype], the number of rows with that value: protocol and tld
    as they are, domain in lowercase; a key no row has is not in the
    record. *)
Theorem distribution_counts_rows (h : Host) (input : jsstring)
        (options : AnalyzeOptions) (k : nat) (key : jsstring) :
  key <> [] -> inherited key = false ->
  let a := run (analyzeLinks h input options) k in
  let d := LinkAnalysis.distributions a in
  let items := LinkAnalysis.items a in
  getOwn (Distributions.protocol d) key
  = counted (rowsWith LinkRow.protocol key items)
  /\ getOwn (Distributions.domain d) key
     = counted (rowsWith (fun r => option_map (toLowerCase h) (LinkRow.domain r))
                         key items)
  /\ getOwn (Distributions.tld d) key = counted (rowsWith LinkRow.tld key items).
Proof.
  intros Hne Hk. cbv zeta.
  destruct (distributions_of_run h input options k) as (-> & -> & ->).
  rewrite <- loweredKeys_count, <- !countedKeys_count by assumption.
  repeat split; apply (incAll_counted h _ [] key 0 Hk); reflexivity.
Qed.

Lemma distribution_counts_rows_witness :
  getOwn (Distributions.protocol
            (LinkAnalysis.distributions
               (run (analyzeLinks exampleHost
                                  (js "http://a.io" ++ [10%N] ++ js "http://b.io")
                                  (mkOptions true true)) 0)))
         (js "http")
  = Some (NumberValue 2).
Proof.
  destruct (distribution_counts_rows
              exampleHost (js "http://a.io" ++ [10%N] ++ js "http://b.io")
              (mkOptions true true) 0 (key := js "http")) as (H & _ & _).
  - discriminate.
  - reflexivity.
  - rewrite H. vm_compute. reflexivity.
Defined.

(** No distribution ever holds a number under a property name of
    [Object.prototype], and none ever has the key ["__proto__"]: rows whose
    protocol, domain or tld is such a name are not counted. *)
Theorem distribution_never_counts_inherited (h : Host) (input : jsstring)
        (options : AnalyzeOptions) (k : nat) :
  let d := LinkAnalysis.distributions (run (analyzeLinks h input options) k) in
  Forall (fun dist =>
            Forall (fun key => isNumberValue (getOwn dist key) = false)
                   objectPrototypeKeys
            /\ getOwn dist (js "__proto__") = None)
         [Distributions.protocol d; Distributions.domain d; Distributions.tld d].
Proof.
  cbv zeta. destruct (distributions_of_run h input options k) as (-> & -> & ->).
  assert (H0 : Forall (fun key => isNumberValue (getOwn [] key) = false)
                      objectPrototypeKeys
               /\ getOwn [] (js "__proto__") = None).
  { split; [|reflexivity]. apply Forall_forall. reflexivity. }
  apply Forall_cons; [|apply Forall_cons; [|apply Forall_cons; [|apply Forall_nil]]];
    apply incAll_inherited; exact H0.
Qed.

(** ** Metrics *)

Lemma tally_filters (h : Host) (items : list LinkRow.t) (acc : Tally) :
  let acc' := fold_left (tallyRow h) items acc in
  valid acc' = valid acc + List.length (filter LinkRow.isValid items)
  /\ invalid acc'
     = invalid acc + List.length (filter (fun r => negb (LinkRow.isValid r)) items)
  /\ withQuery acc'
     = withQuery acc
       + List.length (filter (fun r => (0 <? LinkRow.queryParams r)%nat) items)
  /\ withHash acc' = withHash acc + List.length (filter LinkRow.hasHash items).
Proof.
  revert acc. induction items as [|r t IH]; intros acc; simpl; [lia|].
  destruct (IH (tallyRow h acc r)) as (-> & -> & -> & ->).
  unfold tallyRow; simpl.
  destruct (LinkRow.isValid r), (0 <? LinkRow.queryParams r)%nat,
    (LinkRow.hasHash r); simpl; lia.
Qed.

Lemma filter_length_le (A : Type) (f g : A -> bool) (l : list A) :
  Forall (fun x => f x = true -> g x = true) l ->
  List.length (filter f l) <= List.length (filter g l).
Proof.
  induction 1 as [|x t Hx _ IH]; simpl; [lia|].
  destruct (f x) eqn:Ef.
  - rewrite (Hx eq_refl). simpl. lia.
  - destruct (g x); simpl; lia.
Qed.

Lemma buildRow_invalid (h : Host) (rowId raw normalized : jsstring) :
  let r := buildRow h rowId raw normalized in
  LinkRow.isValid r = false -> countsNothing r.
Proof.
  unfold buildRow, countsNothing.
  destruct (new_URL h normalized); simpl; [auto | discriminate].
Qed.

Lemma items_invalid (h : Host) (input : jsstring) (options : AnalyzeOptions)
      (k : nat) :
  Forall (fun r => LinkRow.isValid r = false -> countsNothing r)
         (LinkAnalysis.items (run (analyzeLinks h input options) k)).
Proof.
  eapply Forall2_range; [|apply analyzeLinks_items].
  intros it r [rowId ->]. apply buildRow_invalid.
Qed.

Lemma countedKeys_length (f : LinkRow.t -> option jsstring) (items : list LinkRow.t) :
  Forall (fun r => LinkRow.isValid r = false -> f r = None) items ->
  List.length (countedKeys f items) <= List.length (filter LinkRow.isValid items).
Proof.
  unfold countedKeys. induction 1 as [|r t Hr _ IH]; simpl; [lia|].
  rewrite length_app. destruct (LinkRow.isValid r) eqn:E.
  - destruct (f r) as [[|? ?]|]; simpl; lia.
  - rewrite (Hr eq_refl). simpl. lia.
Qed.

(** The counters of the report are counts of rows, and only valid rows can
    have query parameters, a fragment or a domain: [withQuery], [withHash]
    and [uniqueDomains] never exceed [valid], which never exceeds
    [total]. *)
Theorem metrics_bounds (h : Host) (input : jsstring) (options : AnalyzeOptions)
        (k : nat) :
  let a := run (analyzeLinks h input options) k in
  let m := LinkAnalysis.metrics a in
  let items := LinkAnalysis.items a in
  Metrics.valid m = List.length (filter LinkRow.isValid items)
  /\ Metrics.withQuery m
     = List.length (filter (fun r => (0 <? LinkRow.queryParams r)%nat) items)
  /\ Metrics.withHash m = List.length (filter LinkRow.hasHash items)
  /\ Metrics.withQuery m <= Metrics.valid m
  /\ Metrics.withHash m <= Metrics.valid m
  /\ Metrics.uniqueDomains m <= Metrics.valid m
  /\ Metrics.valid m <= Metrics.total m.
Proof.
  cbv zeta. pose proof (items_invalid h input options k) as Hinv.
  destruct (analyzeLinks_run h input options k) as (_ & _ & Hm & _).
  set (items := LinkAnalysis.items (run (analyzeLinks h input options) k)) in *.
  rewrite Hm. unfold metricsOf, tallyOf. simpl.
  destruct (tally_filters h items emptyTally) as (Hv & _ & Hq & Hh).
  destruct (tally_dists h items emptyTally) as (_ & Hd & _).
  cbv zeta in Hv, Hq, Hh, Hd. simpl in Hv, Hq, Hh, Hd.
  rewrite Hv, Hq, Hh, Hd.
  split; [reflexivity|]. split; [reflexivity|]. split; [reflexivity|].
  split; [|split; [|split]].
  - apply filter_length_le. eapply Forall_impl; [|exact Hinv].
    intros r Hr Hq0. destruct (LinkRow.isValid r) eqn:E; [reflexivity|].
    destruct (Hr E) as (Hz & _). rewrite Hz in Hq0. discriminate.
  - apply filter_length_le. eapply Forall_impl; [|exact Hinv].
    intros r Hr Hh0. destruct (LinkRow.isValid r) eqn:E; [reflexivity|].
    destruct (Hr E) as (_ & Hz & _). congruence.
  - pose proof (incAll_length
                  h (map (toLowerCase h) (countedKeys LinkRow.domain items)) [])
      as Hlen.
    rewrite length_map in Hlen. simpl in Hlen.
    etransitivity; [exact Hlen|]. apply countedKeys_length.
    eapply Forall_impl; [|exact Hinv]. intros r Hr E.
    now destruct (Hr E) as (_ & _ & _ & Hz & _).
  - pose proof (filter_length LinkRow.isValid items). lia.
Qed.

(** [length] is the length of [normalized] in every row. *)
Lemma row_lengths (h : Host) (input : jsstring) (options : AnalyzeOptions)
      (k : nat) :
  Forall (fun r => LinkRow.length r = List.length (LinkRow.normalized r))
         (LinkAnalysis.items (run (analyzeLinks h input options) k)).
Proof.
  eapply Forall2_range; [|apply analyzeLinks_items]. intros it r [rowId ->].
  destruct (buildRow_fields h rowId (fst it) (snd it)) as (_ & _ & -> & ->).
  reflexivity.
Qed.

(** * Further properties of the normaliser and the line splitter *)

Lemma normalizeLine_cases (raw : jsstring) (assumeHttps : bool) :
  (exists p, In p normalizePrefixes /\ normalizeLine raw assumeHttps = p ++ trim raw)
  /\ clean (normalizeLine raw assumeHttps) = true
  /\ (normalizeLine raw assumeHttps = [] <-> trim raw = []).
Proof.
  unfold normalizeLine, normalizePrefixes.
  destruct (List.length (trim raw) =? 0)%nat eqn:Hlen.
  - apply length_zero_nil in Hlen. rewrite Hlen. repeat split; auto.
    exists []. simpl. auto.
  - assert (Hne : trim raw <> []).
    { intros E. rewrite E in Hlen. discriminate. }
    assert (Hp : forall p : jsstring, clean ((ch "h" :: p) ++ trim raw) = true).
    { intros p. apply clean_prefixed;
        [reflexivity | apply trim_clean | exact Hne]. }
    destruct (startsWith (trim raw) (js "//")).
    { split; [exists (js "https:"); simpl; auto|].
      split; [exact (Hp (js "ttps:"))|]. split; [discriminate | congruence]. }
    destruct assumeHttps; simpl negb; cbv iota.
    + destruct (hasSchemeTest (trim raw)).
      * split; [exists []; simpl; auto|]. split; [apply trim_clean | tauto].
      * split; [exists (js "https://"); simpl; auto|].
        split; [exact (Hp (js "ttps://"))|]. split; [discriminate | congruence].
    + split; [exists []; simpl; auto|]. split; [apply trim_clean | tauto].
Qed.

(** [normalizeLine] returns the trimmed line behind nothing, ["https:"] or
    ["https://"]: the result has no white space at either end, and it is
    empty exactly when the line is blank. *)
Theorem normalizeLine_shape (raw : jsstring) (assumeHttps : bool) :
  (exists p, In p normalizePrefixes /\ normalizeLine raw assumeHttps = p ++ trim raw)
  /\ clean (normalizeLine raw assumeHttps) = true
  /\ (normalizeLine raw assumeHttps = [] <-> trim raw = []).
Proof.
  destruct (normalizeLine_cases raw assumeHttps) as (Hp & Hc & Hn).
  split; [exact Hp|]. split; [exact Hc | exact Hn].
Qed.

(** With [assumeHttps] a normalised line that is not empty always starts
    with a URI scheme: it passes the scheme test of [normalizeLine]. *)
Theorem normalizeLine_has_scheme (raw : jsstring) :
  normalizeLine raw true = [] \/ hasSchemeTest (normalizeLine raw true) = true.
Proof.
  unfold normalizeLine.
  destruct (List.length (trim raw) =? 0)%nat; [now left|]. right.
  destruct (startsWith (trim raw) (js "//")); [reflexivity|].
  simpl negb. cbv iota.
  destruct (hasSchemeTest (trim raw)) eqn:E; [exact E | reflexivity].
Qed.

(** In every row, [normalized] is the row's raw text behind nothing,
    ["https:"] or ["https://"]; it is never empty, and [length] exceeds the
    length of raw by at most 8. *)
Theorem normalized_extends_raw (h : Host) (input : jsstring)
        (options : AnalyzeOptions) (k : nat) :
  Forall (fun r =>
            (exists p, In p normalizePrefixes
                       /\ LinkRow.normalized r = p ++ LinkRow.raw r)
            /\ LinkRow.normalized r <> []
            /\ List.length (LinkRow.raw r) <= LinkRow.length r
               <= List.length (LinkRow.raw r) + 8)
         (LinkAnalysis.items (run (analyzeLinks h input options) k)).
Proof.
  pose proof (items_pairs h input options k) as Hpairs.
  pose proof (row_lengths h input options k) as Hlen.
  apply Forall_forall. intros r Hr.
  assert (Hin : In (LinkRow.raw r, LinkRow.normalized r) (uniqueList h input options)).
  { rewrite <- Hpairs.
    exact (in_map (fun r => (LinkRow.raw r, LinkRow.normalized r)) _ _ Hr). }
  assert (Hn : In (LinkRow.raw r, LinkRow.normalized r) (normalizedList input options)).
  { unfold uniqueList in Hin.
    destruct (dedupe options); [now apply dedupeList_In in Hin | exact Hin]. }
  unfold normalizedList in Hn. apply in_map_iff in Hn.
  destruct Hn as (raw & E & Hraw).
  pose proof (f_equal fst E) as E1. pose proof (f_equal snd E) as E2.
  simpl in E1, E2. subst raw. clear E.
  destruct (inputLines_trimmed input _ Hraw) as [Htrim Hne].
  destruct (normalizeLine_cases (LinkRow.raw r) (assumeHttps options))
    as ((p & Hp & Hshape) & _ & Hnil).
  rewrite Htrim, E2 in Hshape, Hnil.
  rewrite Forall_forall in Hlen. rewrite (Hlen r Hr), Hshape.
  split; [exists p; split; [exact Hp | reflexivity]|]. split.
  - intros E0. apply Hne. apply Hnil. rewrite Hshape. exact E0.
  - rewrite length_app. unfold normalizePrefixes in Hp. simpl in Hp.
    destruct Hp as [<-|[<-|[<-|[]]]]; simpl; lia.
Qed.

(** ** Lines *)

Lemma list_pair_ind (A : Type) (P : list A -> Prop) :
  P [] -> (forall c, P [c]) ->
  (forall c d t, P t -> P (d :: t) -> P (c :: d :: t)) ->
  forall l, P l.
Proof.
  intros H0 H1 H2 l.
  assert (H : P l /\ forall c, P (c :: l)).
  { induction l as [|d t [IHt IHc]]; split; auto. }
  exact (proj1 H).
Qed.

Lemma lineFeeds_cons (c : unit16) (s : jsstring) :
  lineFeeds (c :: s) = if (c =? 10)%N then S (lineFeeds s) else lineFeeds s.
Proof.
  unfold lineFeeds. simpl.
  destruct (N.eqb_spec c 10), (N.eq_dec c 10); congruence.
Qed.

Lemma splitLinesFrom_two (cur : jsstring) (c d : unit16) (t : jsstring) :
  splitLinesFrom cur (c :: d :: t)
  = if (c =? 10)%N then rev cur :: splitLinesFrom [] (d :: t)
    else if ((c =? 13) && (d =? 10))%N then rev cur :: splitLinesFrom [] t
         else splitLinesFrom (c :: cur) (d :: t).
Proof. reflexivity. Qed.

Lemma splitLinesFrom_length (s cur : jsstring) :
  List.length (splitLinesFrom cur s) <= S (lineFeeds s).
Proof.
  revert cur. induction s as [|c|c d t IHt IHd] using list_pair_ind; intros cur.
  - simpl. lia.
  - rewrite lineFeeds_cons. simpl. destruct (c =? 10)%N; simpl; lia.
  - rewrite splitLinesFrom_two, (lineFeeds_cons c).
    destruct (c =? 10)%N eqn:Ec.
    + cbn [List.length]. specialize (IHd []). lia.
    + destruct ((c =? 13) && (d =? 10))%N eqn:Ecd.
      * apply andb_true_iff in Ecd. destruct Ecd as [_ Ed].
        rewrite lineFeeds_cons, Ed. cbn [List.length].
        specialize (IHt []). lia.
      * exact (IHd (c :: cur)).
Qed.

Lemma splitLinesFrom_Forall (P : unit16 -> Prop) (s cur : jsstring) :
  Forall P cur -> Forall P s -> Forall (Forall P) (splitLinesFrom cur s).
Proof.
  revert cur. induction s as [|c|c d t IHt IHd] using list_pair_ind;
    intros cur Hcur Hs.
  - simpl. constructor; [|constructor]. now apply Forall_rev.
  - inversion Hs; subst. simpl. destruct (c =? 10)%N.
    + constructor; [now apply Forall_rev|]. constructor; [|constructor].
      constructor.
    + constructor; [|constructor]. apply Forall_app. split.
      * now apply Forall_rev.
      * now constructor.
  - inversion Hs as [|? ? Hc Hs']; subst. inversion Hs' as [|? ? Hd Ht]; subst.
    rewrite splitLinesFrom_two. destruct (c =? 10)%N.
    + constructor; [now apply Forall_rev|]. apply IHd; [constructor | exact Hs'].
    + destruct ((c =? 13) && (d =? 10))%N.
      * constructor; [now apply Forall_rev|]. apply IHt; [constructor | exact Ht].
      * apply IHd; [now constructor | exact Hs'].
Qed.

Lemma dropWhile_all (A : Type) (f : A -> bool) (l : list A) :
  forallb f l = true -> dropWhile f l = [].
Proof.
  induction l as [|x t IH]; simpl; [reflexivity|].
  intros H. apply andb_true_iff in H. destruct H as [-> H]. auto.
Qed.

Lemma trim_blank (s : jsstring) : forallb isWhiteSpace s = true -> trim s = [].
Proof.
  intros H. unfold trim, trimStart. now rewrite dropWhile_all.
Qed.

Lemma inputLines_blank (input : jsstring) :
  forallb isWhiteSpace input = true -> inputLines input = [].
Proof.
  intros H. unfold inputLines, splitLines.
  assert (Hp : Forall (Forall (fun c => isWhiteSpace c = true))
                      (splitLinesFrom [] input)).
  { apply splitLinesFrom_Forall; [constructor|]. apply Forall_forall.
    now apply forallb_forall. }
  induction Hp as [|l t Hl _ IH]; simpl; [reflexivity|].
  rewrite trim_blank; [exact IH|].
  apply forallb_forall. now apply Forall_forall.
Qed.

(** A blank input (nothing but white space and line breaks) gives a report
    without rows: total 0, average 0, empty distributions. *)
Theorem blank_input_empty_report (h : Host) (input : jsstring)
        (options : AnalyzeOptions) (k : nat) :
  forallb isWhiteSpace input = true ->
  let a := run (analyzeLinks h input options) k in
  LinkAnalysis.items a = []
  /\ LinkAnalysis.metrics a = Metrics.mk 0 0 0 0 0 0 0%float
  /\ LinkAnalysis.distributions a = Distributions.mk [] [] [].
Proof.
  intros Hblank. cbv zeta.
  destruct (analyzeLinks_run h input options k) as (Hi & _ & Hm & Hd).
  assert (E : LinkAnalysis.items (run (analyzeLinks h input options) k) = []).
  { rewrite Hi. unfold uniqueList, normalizedList.
    rewrite (inputLines_blank _ Hblank). now destruct (dedupe options). }
  rewrite Hm, Hd, E. repeat split.
Qed.

Lemma blank_input_empty_report_witness :
  LinkAnalysis.items
    (run (analyzeLinks exampleHost (js "  " ++ [10; 9; 13; 10; 160]%N)
                       (mkOptions true true)) 0)
  = [].
Proof.
  apply (blank_input_empty_report exampleHost (js "  " ++ [10; 9; 13; 10; 160]%N)
                                  (mkOptions true true) 0).
  reflexivity.
Defined.

Lemma filter_length_le0 (A : Type) (f : A -> bool) (l : list A) :
  List.length (filter f l) <= List.length l.
Proof.
  induction l as [|x t IH]; simpl; [lia|]. destruct (f x); simpl; lia.
Qed.

(** ** Deduplication, continued *)

Section MapDistinct.

Variables K V : Type.
Variable eqb : K -> K -> bool.
Hypothesis eqb_spec : forall a b, eqb a b = true <-> a = b.

Lemma Map_set_fresh (m : list (K * V)) (k : K) (v : V) :
  ~ In k (map fst m) -> Map_set eqb m k v = m ++ [(k, v)].
Proof.
  induction m as [|[k' v'] t IH]; simpl; intros Hn; [reflexivity|].
  destruct (eqb k' k) eqn:E.
  - apply eqb_spec in E. exfalso. apply Hn. now left.
  - rewrite IH; [reflexivity|]. intros Hin. apply Hn. now right.
Qed.

Lemma Map_fold_distinct (es m : list (K * V)) :
  NoDup (map fst (m ++ es)) ->
  fold_left (fun m e => Map_set eqb m (fst e) (snd e)) es m = m ++ es.
Proof.
  revert m. induction es as [|[k v] t IH]; intros m Hnd; simpl.
  - now rewrite app_nil_r.
  - rewrite Map_set_fresh.
    + rewrite IH; rewrite <- app_assoc; [reflexivity | exact Hnd].
    + rewrite map_app in Hnd. simpl in Hnd.
      apply NoDup_remove_2 in Hnd. intros Hin. apply Hnd.
      apply in_or_app. now left.
Qed.

Lemma Map_new_distinct (es : list (K * V)) :
  NoDup (map fst es) -> Map_new eqb es = es.
Proof.
  intros Hnd. unfold Map_new. now rewrite Map_fold_distinct.
Qed.

Lemma firstOccurrences_length (ks : list K) :
  List.length (firstOccurrences eqb ks) <= List.length ks.
Proof.
  induction ks as [|k t IH]; simpl; [lia|].
  pose proof (filter_length_le0 (fun x => negb (eqb x k)) (firstOccurrences eqb t)).
  lia.
Qed.

End MapDistinct.

Lemma dedupeList_distinct (h : Host) (l : list (jsstring * jsstring)) :
  NoDup (map (keyOf h) l) -> dedupeList h l = l.
Proof.
  intros Hnd. unfold dedupeList, Map_values.
  rewrite (Map_new_distinct str_eqb str_eqb_eq).
  - rewrite map_map. simpl. apply map_id.
  - rewrite map_map. exact Hnd.
Qed.

Lemma dedupeList_length (h : Host) (l : list (jsstring * jsstring)) :
  List.length (dedupeList h l) <= List.length l.
Proof.
  rewrite <- (length_map (keyOf h) (dedupeList h l)), dedupeList_keys.
  rewrite <- (length_map (keyOf h) l). apply firstOccurrences_length.
Qed.

(** Deduplicating twice is deduplicating once; it never adds a pair, every
    pair it keeps is one of the list, and every pair of the list has its key
    (the lowercased normalized text) kept. *)
Theorem dedupeList_properties (h : Host) (l : list (jsstring * jsstring)) :
  dedupeList h (dedupeList h l) = dedupeList h l
  /\ List.length (dedupeList h l) <= List.length l
  /\ incl (dedupeList h l) l
  /\ Forall (fun it => exists it', In it' (dedupeList h l)
                                   /\ keyOf h it' = keyOf h it) l.
Proof.
  split; [|split; [|split]].
  - apply dedupeList_distinct. rewrite dedupeList_keys.
    apply (firstOccurrences_NoDup str_eqb str_eqb_eq).
  - apply dedupeList_length.
  - intros it. apply dedupeList_In.
  - apply Forall_forall. intros it Hin.
    assert (Hk : In (keyOf h it) (map (keyOf h) (dedupeList h l))).
    { rewrite dedupeList_keys.
      apply (firstOccurrences_In str_eqb str_eqb_eq). now apply in_map. }
    apply in_map_iff in Hk. destruct Hk as (it' & Hk & Hin'). now exists it'.
Qed.

(** When no two lines have the same lowercased normalized text, [dedupe]
    changes nothing: the list that is analysed is the same with and without
    it. *)
Theorem dedupe_without_duplicates (h : Host) (input : jsstring) (assume : bool) :
  NoDup (map (keyOf h) (normalizedList input (mkOptions assume false))) ->
  uniqueList h input (mkOptions assume true)
  = uniqueList h input (mkOptions assume false)
  /\ pureRows h input (mkOptions assume true)
     = pureRows h input (mkOptions assume false).
Proof.
  intros Hnd.
  assert (E : uniqueList h input (mkOptions assume true)
              = uniqueList h input (mkOptions assume false)).
  { unfold uniqueList. simpl. now apply dedupeList_distinct. }
  split; [exact E|]. unfold pureRows. now rewrite E.
Qed.

Lemma dedupe_without_duplicates_witness :
  uniqueList exampleHost (js "a.io" ++ [10%N] ++ js "b.io") (mkOptions true true)
  = [(js "a.io", js "https://a.io"); (js "b.io", js "https://b.io")].
Proof.
  destruct (dedupe_without_duplicates
              exampleHost (js "a.io" ++ [10%N] ++ js "b.io") true) as [E _].
  - vm_compute. repeat constructor; simpl; intuition discriminate.
  - rewrite E. vm_compute. reflexivity.
Defined.

(** The report never has more rows than the input has lines: at most one
    more than it has line feeds. *)
Theorem rows_bounded_by_lines (h : Host) (input : jsstring)
        (options : AnalyzeOptions) (k : nat) :
  let a := run (analyzeLinks h input options) k in
  List.length (LinkAnalysis.items a) <= S (lineFeeds input)
  /\ Metrics.total (LinkAnalysis.metrics a) <= S (lineFeeds input).
Proof.
  cbv zeta.
  assert (H : List.length (LinkAnalysis.items (run (analyzeLinks h input options) k))
              <= S (lineFeeds input)).
  { rewrite <- (length_map (fun r => (LinkRow.raw r, LinkRow.normalized r))),
      items_pairs.
    assert (Hn : List.length (normalizedList input options) <= S (lineFeeds input)).
    { unfold normalizedList, inputLines, splitLines. rewrite length_map.
      etransitivity; [apply filter_length_le0|]. rewrite length_map.
      apply splitLinesFrom_length. }
    unfold uniqueList. destruct (dedupe options); [|exact Hn].
    etransitivity; [apply dedupeList_length | exact Hn]. }
  split; [exact H|].
  destruct (analyzeLinks_run h input options k) as (_ & _ & -> & _).
  exact H.
Qed.

(** * Further properties of domains and top-level domains *)

Lemma isW_lower (c : unit16) : isW c = true -> asciiLower c = ch "w".
Proof.
  unfold isW. intros H. apply orb_true_iff in H.
  destruct H as [H|H]; apply N.eqb_eq in H; subst c; reflexivity.
Qed.

Lemma hostnameToDomain_suffix (hn : jsstring) :
  exists w, hn = w ++ hostnameToDomain hn
            /\ (w = [] \/ map asciiLower w = js "www.")
            /\ (hostnameToDomain hn = [] <-> hn = []).
Proof.
  unfold hostnameToDomain.
  destruct hn as [|a [|b [|c [|d t]]]];
    try (exists []; simpl; repeat split; auto; fail).
  destruct (isW a && isW b && isW c && (d =? ch ".")%N) eqn:E.
  - destruct t as [|x t].
    + exists []. simpl. repeat split; auto.
    + exists [a; b; c; d]. simpl. split; [reflexivity|]. split.
      * right. apply andb_true_iff in E. destruct E as [E Ed].
        apply andb_true_iff in E. destruct E as [E Ec].
        apply andb_true_iff in E. destruct E as [Ea Eb].
        apply N.eqb_eq in Ed. subst d.
        now rewrite (isW_lower _ Ea), (isW_lower _ Eb), (isW_lower _ Ec).
      * split; discriminate.
  - exists []. simpl. repeat split; auto.
Qed.

(** In every row hostname and domain are present together, and the domain
    is the hostname, or the hostname without a leading ["www."] (in any
    case) when something is left after it; the domain is never empty. *)
Theorem domain_is_hostname_without_www (h : Host) (input : jsstring)
        (options : AnalyzeOptions) (k : nat) :
  Forall (fun r =>
            match LinkRow.hostname r, LinkRow.domain r with
            | Some hn, Some d =>
                d <> []
                /\ exists w, hn = w ++ d
                             /\ (w = [] \/ map asciiLower w = js "www.")
            | None, None => True
            | _, _ => False
            end)
         (LinkAnalysis.items (run (analyzeLinks h input options) k)).
Proof.
  eapply Forall2_range; [|apply analyzeLinks_items]. intros it r [rowId ->].
  unfold buildRow. destruct (new_URL h (snd it)) as [err|url]; simpl; [exact I|].
  destruct (Url.hostname url) as [|c t]; simpl; [exact I|].
  destruct (hostnameToDomain_suffix (c :: t)) as (w & Hw & Hcase & Hnil).
  split.
  - intros E. apply Hnil in E. discriminate.
  - now exists w.
Qed.

Lemma splitOn_cons (sep : unit16) (s : jsstring) :
  exists p ps, splitOn sep s = p :: ps.
Proof.
  destruct s as [|c t]; simpl; [eauto|].
  destruct (c =? sep)%N; [eauto|]. destruct (splitOn sep t); eauto.
Qed.

Lemma joinDots_two (a b : jsstring) (l : list jsstring) :
  joinDots (a :: b :: l) = a ++ ch "." :: joinDots (b :: l).
Proof. reflexivity. Qed.

Lemma splitOn_step (sep c : unit16) (t : jsstring) :
  splitOn sep (c :: t)
  = if (c =? sep)%N then [] :: splitOn sep t
    else match splitOn sep t with
         | [] => [[c]]
         | p :: ps => (c :: p) :: ps
         end.
Proof. reflexivity. Qed.

Lemma splitOn_joinDots (s : jsstring) : joinDots (splitOn (ch ".") s) = s.
Proof.
  induction s as [|c t IH]; [reflexivity|]. rewrite splitOn_step.
  destruct (splitOn_cons (ch ".") t) as (p & ps & E). rewrite E in *.
  destruct (c =? ch ".")%N eqn:Ec.
  - apply N.eqb_eq in Ec. subst c. rewrite joinDots_two, IH. reflexivity.
  - destruct ps as [|q qs].
    + simpl in *. now rewrite IH.
    + rewrite joinDots_two in *. rewrite <- IH. reflexivity.
Qed.

Lemma splitOn_pieces (sep : unit16) (s : jsstring) :
  Forall (fun p => ~ In sep p) (splitOn sep s).
Proof.
  induction s as [|c t IH]; simpl; [repeat constructor; auto|].
  destruct (c =? sep)%N eqn:Ec; [constructor; auto|].
  destruct (splitOn sep t) as [|p ps]; [repeat constructor|].
  - intros [H|[]]. subst. now rewrite N.eqb_refl in Ec.
  - inversion IH; subst. constructor; [|assumption].
    intros [H|H]; [|contradiction]. subst. now rewrite N.eqb_refl in Ec.
Qed.

Lemma last_nonEmpty (l : list jsstring) :
  match rev (filter nonEmpty l) with
  | [] => Forall (eq []) l
  | p :: _ => exists xs ys, l = xs ++ p :: ys /\ p <> [] /\ Forall (eq []) ys
  end.
Proof.
  induction l as [|x t IH]; [constructor|].
  change (filter nonEmpty (x :: t))
    with (if nonEmpty x then x :: filter nonEmpty t else filter nonEmpty t).
  destruct (nonEmpty x) eqn:Ex.
  - assert (Hx : x <> []) by (intros ->; discriminate).
    cbn [rev]. destruct (rev (filter nonEmpty t)) as [|p rest].
    + exists [], t. auto.
    + destruct IH as (xs & ys & -> & Hp & Hys). exists (x :: xs), ys. auto.
  - assert (Hx : [] = x) by (destruct x; [reflexivity | discriminate]).
    destruct (rev (filter nonEmpty t)) as [|p rest].
    + now constructor.
    + destruct IH as (xs & ys & -> & Hp & Hys). exists (x :: xs), ys. auto.
Qed.

Lemma joinDots_empties (p : jsstring) (ys : list jsstring) :
  Forall (eq []) ys ->
  exists post, joinDots (p :: ys) = p ++ post /\ Forall (eq (ch ".")) post.
Proof.
  intros H. revert p. induction H as [|y ys <- _ IH]; intros p.
  - exists []. simpl. now rewrite app_nil_r.
  - destruct (IH []) as (post & E & Hpost).
    exists (ch "." :: post). rewrite joinDots_two, E.
    split; [reflexivity | now constructor].
Qed.

Lemma joinDots_around (xs ys : list jsstring) (p : jsstring) :
  Forall (eq []) ys ->
  exists pre post,
    joinDots (xs ++ p :: ys) = pre ++ p ++ post
    /\ Forall (eq (ch ".")) post
    /\ (pre = [] \/ exists pre', pre = pre' ++ [ch "."]).
Proof.
  intros Hys. induction xs as [|x xs IH].
  - destruct (joinDots_empties p Hys) as (post & E & Hpost).
    exists [], post. simpl app. auto.
  - destruct IH as (pre & post & E & Hpost & Hpre).
    exists (x ++ ch "." :: pre), post.
    split; [|split; [exact Hpost|]].
    + simpl app. destruct (xs ++ p :: ys) eqn:E0.
      * destruct xs; discriminate.
      * rewrite joinDots_two, E. rewrite <- app_assoc. reflexivity.
    + right. destruct Hpre as [-> | (pre' & ->)].
      * now exists x.
      * exists (x ++ ch "." :: pre'). rewrite <- app_assoc. reflexivity.
Qed.

Lemma joinDots_all_empty (l : list jsstring) :
  Forall (eq []) l -> Forall (eq (ch ".")) (joinDots l).
Proof.
  intros H. inversion H as [|x t Hx Ht]; subst; [constructor|].
  destruct (joinDots_empties [] Ht) as (post & E & Hpost).
  exact (eq_ind_r (Forall (eq (ch "."))) Hpost E).
Qed.

(** [domainToTld] gives the lowercased text between the last dot that has
    something after it and the dots the domain may end with; that text has
    no dot and is not empty.  It gives nothing only for a domain made of
    dots alone. *)
Theorem domainToTld_last_label (h : Host) (d : jsstring) :
  match domainToTld h d with
  | None => Forall (eq (ch ".")) d
  | Some t =>
      exists pre p post,
        d = pre ++ p ++ post
        /\ p <> []
        /\ ~ In (ch ".") p
        /\ Forall (eq (ch ".")) post
        /\ (pre = [] \/ exists pre', pre = pre' ++ [ch "."])
        /\ t = toLowerCase h p
  end.
Proof.
  unfold domainToTld.
  pose proof (last_nonEmpty (splitOn (ch ".") d)) as H.
  pose proof (splitOn_pieces (ch ".") d) as Hpieces.
  destruct (rev (filter nonEmpty (splitOn (ch ".") d))) as [|p rest].
  - rewrite <- (splitOn_joinDots d). now apply joinDots_all_empty.
  - destruct H as (xs & ys & E & Hp & Hys).
    destruct (joinDots_around xs p Hys) as (pre & post & Ej & Hpost & Hpre).
    exists pre, p, post. rewrite <- Ej, <- E, splitOn_joinDots.
    repeat split; auto.
    rewrite E in Hpieces. apply Forall_app in Hpieces.
    destruct Hpieces as [_ Hpieces]. now inversion Hpieces.
Qed.

(** * Properties of [topEntries] *)

Section SortFacts.

Variable A : Type.
Variable rank : A -> Z.

(** The comparator of a descending sort by [rank]. *)
Let compareFn (a b : A) : Z := (rank b - rank a)%Z.

Lemma insertSorted_perm (x : A) (l : list A) :
  Permutation (insertSorted compareFn x l) (x :: l).
Proof.
  induction l as [|y t IH]; simpl; [reflexivity|].
  destruct (0 <? compareFn x y)%Z; [|reflexivity].
  rewrite IH. apply perm_swap.
Qed.

Lemma Array_sort_perm (l : list A) : Permutation (Array_sort compareFn l) l.
Proof.
  induction l as [|x t IH]; simpl; [reflexivity|].
  rewrite insertSorted_perm. now constructor.
Qed.

Lemma insertSorted_sorted (x : A) (l : list A) :
  StronglySorted (fun a b => (rank b <= rank a)%Z) l ->
  StronglySorted (fun a b => (rank b <= rank a)%Z) (insertSorted compareFn x l).
Proof.
  induction 1 as [|y t Hs IH Hy]; simpl.
  - repeat constructor.
  - unfold compareFn at 1. destruct (0 <? rank y - rank x)%Z eqn:E.
    + apply Z.ltb_lt in E. constructor; [exact IH|].
      assert (Hxt : Forall (fun b => (rank b <= rank y)%Z) (x :: t))
        by (constructor; [lia | exact Hy]).
      rewrite Forall_forall in *. intros b Hb. apply Hxt.
      eapply Permutation_in; [apply insertSorted_perm | exact Hb].
    + apply Z.ltb_ge in E. constructor; [now constructor|].
      constructor; [lia|]. eapply Forall_impl; [|exact Hy].
      simpl. intros b Hb. lia.
Qed.

Lemma Array_sort_sorted (l : list A) :
  StronglySorted (fun a b => (rank b <= rank a)%Z) (Array_sort compareFn l).
Proof.
  induction l as [|x t IH]; simpl; [constructor|].
  now apply insertSorted_sorted.
Qed.

(** Stability: among the elements of one rank the order does not change. *)
Lemma insertSorted_stable (c : Z) (x : A) (l : list A) :
  filter (fun a => (rank a =? c)%Z) (insertSorted compareFn x l)
  = filter (fun a => (rank a =? c)%Z) (x :: l).
Proof.
  induction l as [|y t IH]; [reflexivity|]. simpl insertSorted.
  unfold compareFn at 1. destruct (0 <? rank y - rank x)%Z eqn:E; [|reflexivity].
  apply Z.ltb_lt in E. simpl in *. rewrite IH.
  destruct (rank x =? c)%Z eqn:Ex, (rank y =? c)%Z eqn:Ey; try reflexivity.
  apply Z.eqb_eq in Ex, Ey. lia.
Qed.

Lemma Array_sort_stable (c : Z) (l : list A) :
  filter (fun a => (rank a =? c)%Z) (Array_sort compareFn l)
  = filter (fun a => (rank a =? c)%Z) l.
Proof.
  induction l as [|x t IH]; [reflexivity|]. simpl Array_sort.
  rewrite insertSorted_stable. simpl. now rewrite IH.
Qed.

Lemma StronglySorted_split (R : A -> A -> Prop) (l1 l2 : list A) :
  StronglySorted R (l1 ++ l2) ->
  StronglySorted R l1 /\ Forall (fun a => Forall (R a) l2) l1.
Proof.
  induction l1 as [|x t IH]; simpl; intros H.
  - split; constructor.
  - inversion H as [|? ? Hs Hx]; subst. destruct (IH Hs) as [H1 H2].
    apply Forall_app in Hx. destruct Hx as [Hx1 Hx2].
    split; constructor; assumption.
Qed.

Lemma Array_slice0_prefix (l : list A) (finish : Z) :
  exists rest, l = Array_slice0 l finish ++ rest.
Proof.
  unfold Array_slice0. eexists. symmetry. apply firstn_skipn.
Qed.

Lemma Array_slice0_length (l : list A) (finish : Z) :
  List.length (Array_slice0 l finish)
  = if (finish <? 0)%Z then List.length l - Z.to_nat (- finish)
    else Nat.min (Z.to_nat finish) (List.length l).
Proof.
  unfold Array_slice0. rewrite length_firstn.
  destruct (finish <? 0)%Z eqn:E.
  - apply Z.ltb_lt in E. lia.
  - apply Z.ltb_ge in E. lia.
Qed.

End SortFacts.

Lemma insertByIndex_perm (V : Type) (e : jsstring * V) (l : list (jsstring * V)) :
  Permutation (insertByIndex e l) (e :: l).
Proof.
  induction l as [|x t IH]; simpl; [reflexivity|].
  destruct (indexOf x <? indexOf e)%N; [|reflexivity].
  rewrite IH. apply perm_swap.
Qed.

Lemma filter_partition_perm (A : Type) (f : A -> bool) (l : list A) :
  Permutation (filter f l ++ filter (fun x => negb (f x)) l) l.
Proof.
  induction l as [|x t IH]; simpl; [reflexivity|].
  destruct (f x); simpl.
  - now constructor.
  - rewrite <- Permutation_middle. now constructor.
Qed.

Lemma Object_entries_perm (V : Type) (m : list (jsstring * V)) :
  Permutation (Object_entries m) m.
Proof.
  unfold Object_entries.
  rewrite <- (filter_partition_perm (fun e => isArrayIndex (fst e)) m) at 3.
  apply Permutation_app_tail.
  induction (filter (fun e => isArrayIndex (fst e)) m) as [|x t IH]; simpl;
    [reflexivity|].
  rewrite insertByIndex_perm. now constructor.
Qed.

(** Without array-index keys, [Object.entries] lists the entries in the
    order of their creation. *)
Lemma Object_entries_plain (V : Type) (m : list (jsstring * V)) :
  forallb (fun e => negb (isArrayIndex (fst e))) m = true ->
  Object_entries m = m.
Proof.
  intros H. unfold Object_entries.
  assert (E1 : filter (fun e => isArrayIndex (fst e)) m = []).
  { induction m as [|x t IH]; simpl in *; [reflexivity|].
    apply andb_true_iff in H. destruct H as [Hx Ht].
    apply negb_true_iff in Hx. rewrite Hx. auto. }
  rewrite E1. simpl.
  induction m as [|x t IH]; simpl in *; [reflexivity|].
  apply andb_true_iff in H. destruct H as [Hx Ht]. rewrite Hx. f_equal.
  apply IH; [exact Ht|].
  apply negb_true_iff in Hx. rewrite Hx in E1. exact E1.
Qed.

Lemma StronglySorted_weaken (A : Type) (R R' : A -> A -> Prop) (l : list A) :
  (forall a b, R a b -> R' a b) -> StronglySorted R l -> StronglySorted R' l.
Proof.
  intros HR. induction 1 as [|a l _ IH Ha]; constructor; [exact IH|].
  eapply Forall_impl; [|exact Ha]. auto.
Qed.

Lemma topEntries_sorted_prefix (m : list (jsstring * N)) (limit : Z) :
  exists rest,
    Permutation m (topEntries m limit ++ rest)
    /\ StronglySorted byCountDesc (topEntries m limit ++ rest)
    /\ forall c, filter (hasCount c) (topEntries m limit ++ rest)
                 = filter (hasCount c) (Object_entries m).
Proof.
  unfold topEntries.
  set (sorted := Array_sort (fun a b => (Z.of_N (snd b) - Z.of_N (snd a))%Z)
                            (Object_entries m)).
  destruct (Array_slice0_prefix sorted limit) as (rest & E).
  exists rest. rewrite <- E. split; [|split].
  - symmetry. unfold sorted.
    etransitivity; [apply (Array_sort_perm (fun e => Z.of_N (snd e)))|].
    apply Object_entries_perm.
  - pose proof (Array_sort_sorted (fun e : jsstring * N => Z.of_N (snd e))
                                  (Object_entries m)) as Hs.
    eapply StronglySorted_weaken; [|exact Hs].
    unfold byCountDesc. simpl. intros a b Hab. lia.
  - intros c.
    pose proof (Array_sort_stable (fun e : jsstring * N => Z.of_N (snd e))
                                  (Z.of_N c) (Object_entries m)) as Hst.
    assert (Hext : forall l : list (jsstring * N),
               filter (hasCount c) l
               = filter (fun e => (Z.of_N (snd e) =? Z.of_N c)%Z) l).
    { intros l. apply filter_ext. intros e. unfold hasCount.
      destruct (N.eqb_spec (snd e) c), (Z.eqb_spec (Z.of_N (snd e)) (Z.of_N c));
        try reflexivity; lia. }
    rewrite !Hext. exact Hst.
Qed.


Lemma topEntries_length (m : list (jsstring * N)) (limit : Z) :
  List.length (topEntries m limit)
  = (if (limit <? 0)%Z then List.length m - Z.to_nat (- limit)
     else Nat.min (Z.to_nat limit) (List.length m)).
Proof.
  unfold topEntries. rewrite Array_slice0_length.
  assert (El : List.length
                 (Array_sort (fun a b => (Z.of_N (snd b) - Z.of_N (snd a))%Z)
                             (Object_entries m))
               = List.length m).
  { apply Permutation_length.
    etransitivity; [apply (Array_sort_perm (fun e => Z.of_N (snd e)))|].
    apply Object_entries_perm. }
  now rewrite El.
Qed.

(** [topEntries] returns entries of the record ordered by descending count,
    and no entry it leaves out has a larger count than one it returns.  For
    a limit that is not negative it returns [limit] entries, or all when
    there are fewer; a negative limit drops that many entries from the end
    of the ordered list. *)
Theorem topEntries_takes_largest (m : list (jsstring * N)) (limit : Z) :
  (exists rest,
      Permutation m (topEntries m limit ++ rest)
      /\ Forall (fun a => Forall (byCountDesc a) rest) (topEntries m limit))
  /\ StronglySorted byCountDesc (topEntries m limit)
  /\ List.length (topEntries m limit)
     = (if (limit <? 0)%Z then List.length m - Z.to_nat (- limit)
        else Nat.min (Z.to_nat limit) (List.length m)).
Proof.
  destruct (topEntries_sorted_prefix m limit) as (rest & Hperm & Hsorted & _).
  destruct (StronglySorted_split _ _ Hsorted) as [Hs Hdom].
  split; [exists rest; split; assumption|]. split; [exact Hs|].
  apply topEntries_length.
Qed.

(** Ties keep the order of [Object.entries]: for every count, the returned
    entries with that count are the first ones, in order, that
    [Object.entries] lists with it. *)
Theorem topEntries_stable (m : list (jsstring * N)) (limit : Z) (c : N) :
  exists tail,
    filter (hasCount c) (Object_entries m)
    = filter (hasCount c) (topEntries m limit) ++ tail.
Proof.
  destruct (topEntries_sorted_prefix m limit) as (rest & _ & _ & Hst).
  exists (filter (hasCount c) rest). rewrite <- Hst. apply filter_app.
Qed.

(** * Properties of the CSV export *)

Lemma read_escaped (v field : jsstring) (record : list jsstring)
      (records : list (list jsstring)) (rest : jsstring) :
  readCsvFrom InField field record records
              (flat_map (fun c => if (c =? quote)%N then [quote; quote] else [c]) v
               ++ quote :: rest)
  = readCsvFrom QuoteSeen (rev v ++ field) record records rest.
Proof.
  revert field. induction v as [|c t IH]; intros field; simpl.
  - reflexivity.
  - destruct (c =? quote)%N eqn:E; simpl.
    + apply N.eqb_eq in E. subst c. rewrite IH, <- app_assoc. reflexivity.
    + rewrite E, IH, <- app_assoc. reflexivity.
Qed.

Lemma read_field (v field : jsstring) (record : list jsstring)
      (records : list (list jsstring)) (rest : jsstring) :
  readCsvFrom FieldStart field record records (csvEscape v ++ rest)
  = readCsvFrom QuoteSeen (rev v) record records rest.
Proof.
  unfold csvEscape. simpl. rewrite <- app_assoc. simpl.
  rewrite read_escaped, app_nil_r. reflexivity.
Qed.

Lemma Array_join_two (sep x y : jsstring) (l : list jsstring) :
  Array_join sep (x :: y :: l) = x ++ sep ++ Array_join sep (y :: l).
Proof. reflexivity. Qed.

Lemma read_record (f : jsstring) (fs : list jsstring) (field : jsstring)
      (record : list jsstring) (records : list (list jsstring)) (rest : jsstring) :
  readCsvFrom FieldStart field record records
              (Array_join [ch ","] (map csvEscape (f :: fs)) ++ rest)
  = readCsvFrom QuoteSeen (rev (last (f :: fs) []))
                (rev (removelast (f :: fs)) ++ record) records rest.
Proof.
  revert f field record. induction fs as [|g fs IH]; intros f field record.
  - exact (read_field f field record records rest).
  - change (map csvEscape (f :: g :: fs))
      with (csvEscape f :: csvEscape g :: map csvEscape fs).
    rewrite Array_join_two, <- !app_assoc, read_field.
    change ([ch ","] ++ Array_join [ch ","] (csvEscape g :: map csvEscape fs) ++ rest)
      with (ch "," :: (Array_join [ch ","] (map csvEscape (g :: fs)) ++ rest)).
    cbn [readCsvFrom]. change (ch "," =? quote)%N with false.
    change (ch "," =? ch ",")%N with true. cbv iota.
    rewrite IH, rev_involutive.
    change (last (f :: g :: fs) []) with (last (g :: fs) []).
    change (removelast (f :: g :: fs)) with (f :: removelast (g :: fs)).
    change (rev (f :: removelast (g :: fs)))
      with (rev (removelast (g :: fs)) ++ [f]).
    rewrite <- app_assoc. reflexivity.
Qed.

Lemma read_last_record (f : jsstring) (fs : list jsstring) (field : jsstring)
      (records : list (list jsstring)) :
  readCsvFrom FieldStart field [] records
              (Array_join [ch ","] (map csvEscape (f :: fs)))
  = Some (rev records ++ [f :: fs]).
Proof.
  rewrite <- (app_nil_r (Array_join [ch ","] (map csvEscape (f :: fs)))).
  rewrite read_record. cbn [readCsvFrom].
  rewrite app_nil_r, rev_involutive.
  change (rev (last (f :: fs) [] :: rev (removelast (f :: fs))))
    with (rev (rev (removelast (f :: fs))) ++ [last (f :: fs) []]).
  rewrite rev_involutive, <- app_removelast_last by discriminate.
  reflexivity.
Qed.

Lemma read_inner_record (f : jsstring) (fs : list jsstring) (field : jsstring)
      (records : list (list jsstring)) (rest : jsstring) :
  readCsvFrom FieldStart field [] records
              (Array_join [ch ","] (map csvEscape (f :: fs)) ++ [10%N] ++ rest)
  = readCsvFrom FieldStart [] [] ((f :: fs) :: records) rest.
Proof.
  rewrite read_record.
  change ([10%N] ++ rest) with (10%N :: rest).
  cbn [readCsvFrom]. change (10 =? quote)%N with false.
  change (10 =? ch ",")%N with false. change (10 =? 10)%N with true. cbv iota.
  rewrite app_nil_r, rev_involutive.
  change (rev (last (f :: fs) [] :: rev (removelast (f :: fs))))
    with (rev (rev (removelast (f :: fs))) ++ [last (f :: fs) []]).
  rewrite rev_involutive, <- app_removelast_last by discriminate.
  reflexivity.
Qed.

Lemma read_records (r : list jsstring) (rs : list (list jsstring))
      (field : jsstring) (records : list (list jsstring)) :
  Forall (fun x => x <> []) (r :: rs) ->
  readCsvFrom FieldStart field [] records
              (Array_join [10%N]
                          (map (fun x => Array_join [ch ","] (map csvEscape x))
                               (r :: rs)))
  = Some (rev records ++ r :: rs).
Proof.
  revert r field records. induction rs as [|r2 rs IH]; intros r field records Hne.
  - inversion Hne as [|? ? Hr _]; subst. destruct r as [|f fs]; [congruence|].
    exact (read_last_record f fs field records).
  - inversion Hne as [|? ? Hr Hrs]; subst. destruct r as [|f fs]; [congruence|].
    change (map (fun x => Array_join [ch ","] (map csvEscape x)) ((f :: fs) :: r2 :: rs))
      with (Array_join [ch ","] (map csvEscape (f :: fs))
            :: Array_join [ch ","] (map csvEscape r2)
            :: map (fun x => Array_join [ch ","] (map csvEscape x)) rs).
    rewrite Array_join_two, read_inner_record.
    change (Array_join [ch ","] (map csvEscape r2)
            :: map (fun x => Array_join [ch ","] (map csvEscape x)) rs)
      with (map (fun x => Array_join [ch ","] (map csvEscape x)) (r2 :: rs)).
    rewrite IH by exact Hrs. simpl. rewrite <- app_assoc. reflexivity.
Qed.

(** The CSV text can be read back: a reader of quoted CSV recovers from
    [toCsv] the header and, row by row, the twelve fields exactly as they
    were, whatever commas, quotes or line breaks they contain. *)
Theorem toCsv_round_trip (analysis : LinkAnalysis.t) :
  readCsv (toCsv analysis)
  = Some (csvHeader :: map csvRow (LinkAnalysis.items analysis))
  /\ Forall (fun record => List.length record = 12)
            (csvHeader :: map csvRow (LinkAnalysis.items analysis)).
Proof.
  split.
  - unfold readCsv, toCsv. cbv zeta. rewrite read_records; [reflexivity|].
    constructor; [discriminate|]. apply Forall_forall. intros x Hx.
    apply in_map_iff in Hx. destruct Hx as (r & <- & _). discriminate.
  - constructor; [reflexivity|]. apply Forall_forall. intros x Hx.
    apply in_map_iff in Hx. destruct Hx as (r & <- & _). reflexivity.
Qed.

(** The file name of an export never contains a colon, is at most 37 code
    units long, starts with ["analise-links_"] and ends with [".csv"]; the
    text is the CSV of the current analysis, and without an analysis
    nothing is exported. *)
Theorem exportCsv_file_name (analysis : option LinkAnalysis.t) :
  match exportCsv analysis with
  | None => analysis = None
  | Some (name, text) =>
      ~ In (ch ":") name
      /\ List.length name <= 37
      /\ (exists date, name = js "analise-links_" ++ date ++ js ".csv")
      /\ exists a, analysis = Some a /\ text = toCsv a
  end.
Proof.
  destruct analysis as [a|]; simpl; [|reflexivity].
  split; [|split; [|split]].
  - intros Hin.
    change (In (ch ":")
               (js "analise-links_"
                ++ map (fun c => if (c =? ch ":")%N || (c =? ch "T")%N
                                 then ch "-" else c)
                       (firstn 19 (LinkAnalysis.createdAt a))
                ++ js ".csv")) in Hin.
    apply in_app_or in Hin. destruct Hin as [Hin|Hin].
    + vm_compute in Hin. repeat (destruct Hin as [Hin|Hin]; [discriminate|]).
      exact Hin.
    + apply in_app_or in Hin. destruct Hin as [Hin|Hin].
      * apply in_map_iff in Hin. destruct Hin as (c & Hc & _).
        destruct ((c =? ch ":") || (c =? ch "T"))%N eqn:E;
          [vm_compute in Hc; discriminate|].
        subst c. vm_compute in E. discriminate.
      * vm_compute in Hin. repeat (destruct Hin as [Hin|Hin]; [discriminate|]).
        exact Hin.
  - change (List.length
              (js "analise-links_"
               ++ map (fun c => if (c =? ch ":")%N || (c =? ch "T")%N
                                then ch "-" else c)
                      (firstn 19 (LinkAnalysis.createdAt a))
               ++ js ".csv") <= 37).
    rewrite !length_app, length_map, length_firstn.
    change (List.length (js "analise-links_")) with 14.
    change (List.length (js ".csv")) with 4. lia.
  - eexists. reflexivity.
  - exists a. split; reflexivity.
Qed.

(** * Properties of the page's state *)

Lemma objects_Some (l : list LinkAnalysis.t) : Home.objects (map Some l) = l.
Proof.
  unfold Home.objects. induction l as [|a t IH]; simpl; congruence.
Qed.

Lemma firstn_twice (A : Type) (n : nat) (l : list A) :
  firstn n (firstn n l) = firstn n l.
Proof.
  rewrite firstn_firstn. now rewrite Nat.min_id.
Qed.

Lemma mount_reloadable (s : Home.Stored) :
  Home.history (Home.mount (Home.initial s))
  = reloadable (Home.stored (Home.mount (Home.initial s))).
Proof.
  unfold Home.mount, Home.initial. cbn [Home.stored].
  destruct s as [| | |elements]; try reflexivity.
  cbv zeta. remember (firstn 50 (Home.objects elements)) as cleaned eqn:E.
  destruct cleaned as [|first rest]; [exact E|].
  destruct (LinkAnalysis.input first); exact E.
Qed.

Lemma handle_reloadable (h : Host) (e : Home.Event) (st : Home.State) (k : nat) :
  Home.history st = reloadable (Home.stored st) ->
  Home.history (fst (Home.handle h e st k))
  = reloadable (Home.stored (fst (Home.handle h e st k))).
Proof.
  intros Hinv. destruct e; cbn [Home.handle]; try exact Hinv.
  - unfold Home.runAnalysis, bind, ret.
    destruct (analyzeLinks h (Home.input st)
                           (mkOptions (Home.assumeHttps st) (Home.dedupe st)) k)
      as [next k1].
    cbn [fst Home.history Home.stored reloadable].
    rewrite objects_Some. symmetry. apply firstn_twice.
  - reflexivity.
  - destruct (nth_error (Home.history st) i); exact Hinv.
Qed.

Lemma handleAll_reloadable (h : Host) (events : list Home.Event)
      (st : Home.State) (k : nat) :
  Home.history st = reloadable (Home.stored st) ->
  Home.history (fst (Home.handleAll h events st k))
  = reloadable (Home.stored (fst (Home.handleAll h events st k))).
Proof.
  revert st k. induction events as [|e rest IH]; intros st k Hinv; simpl;
    [exact Hinv|].
  unfold bind. pose proof (handle_reloadable h e st k Hinv) as H1.
  destruct (Home.handle h e st k) as [st' k']. simpl in H1. now apply IH.
Qed.

(** Whatever was stored when the page opened and whatever the user does
    afterwards, the history on screen is the history a reload would show,
    and it never has more than 50 reports. *)
Theorem history_survives_reload (h : Host) (s : Home.Stored)
        (events : list Home.Event) (k : nat) :
  let st := run (Home.handleAll h events (Home.mount (Home.initial s))) k in
  Home.history st = reloadable (Home.stored st)
  /\ List.length (Home.history st) <= 50.
Proof.
  cbv zeta. unfold run.
  pose proof (handleAll_reloadable h events (Home.mount (Home.initial s)) k
                                   (mount_reloadable s)) as H.
  split; [exact H|]. rewrite H. unfold reloadable.
  destruct (Home.stored _); cbn [List.length]; try lia.
  rewrite length_firstn. lia.
Qed.

(** An analysis puts its report first in the history and makes it the
    current one; the 49 most recent older reports stay behind it in their
    order, older ones are dropped.  The report is the one of the text in
    the text area, which the analysis leaves as it is. *)
Theorem runAnalysis_prepends (h : Host) (st : Home.State) (k : nat) :
  let st' := run (Home.runAnalysis h st) k in
  exists next,
    Home.analysis st' = Some next
    /\ Home.history st' = next :: firstn 49 (Home.history st)
    /\ LinkAnalysis.input next = Home.input st
    /\ Home.input st' = Home.input st
    /\ map withoutId (LinkAnalysis.items next)
       = pureRows h (Home.input st)
                  (mkOptions (Home.assumeHttps st) (Home.dedupe st)).
Proof.
  cbv zeta. unfold run, Home.runAnalysis, bind, ret.
  pose proof (analyzeLinks_pure
                h (Home.input st)
                (mkOptions (Home.assumeHttps st) (Home.dedupe st)) k) as Hpure.
  cbv zeta in Hpure. unfold run in Hpure.
  destruct (analyzeLinks h (Home.input st)
                         (mkOptions (Home.assumeHttps st) (Home.dedupe st)) k)
    as [next k1].
  cbn [fst] in *. destruct Hpure as (Hin & Hrows & _).
  exists next. cbn [Home.analysis Home.history Home.input].
  repeat split; assumption.
Qed.

(** * Properties of the charts' data *)







(** * The keys and the sums of the distributions *)

Lemma getOwn_Some_key (m : Dict) (key : jsstring) (v : PropValue) :
  getOwn m key = Some v -> existsb (fun k => str_eqb k key) (map fst m) = true.
Proof.
  intros H. destruct (existsb (fun k => str_eqb k key) (map fst m)) eqn:E;
    [reflexivity|].
  apply getOwn_None in E. congruence.
Qed.

Lemma inc_keys (h : Host) (m : Dict) (key : jsstring) :
  getOwn m (js "__proto__") = None ->
  map fst (inc h m key) = if notProto key then addKey (map fst m) key else map fst m.
Proof.
  intros Hp. unfold notProto, addKey.
  destruct (str_eqb key (js "__proto__")) eqn:E; simpl.
  - apply str_eqb_eq in E. subst key. unfold inc. now rewrite Hp.
  - unfold inc. destruct (getOwn m key) as [[n|s]|] eqn:G.
    + rewrite setOwn_keys. now rewrite (getOwn_Some_key _ _ G).
    + rewrite setOwn_keys. now rewrite (getOwn_Some_key _ _ G).
    + apply getOwn_None in G.
      destruct (existsb (str_eqb key) objectPrototypeKeys);
        rewrite ?E, setOwn_keys, G; reflexivity.
Qed.

Lemma incAll_keys (h : Host) (keys : list jsstring) (m : Dict) :
  getOwn m (js "__proto__") = None ->
  map fst (incAll h keys m) = fold_left addKey (filter notProto keys) (map fst m).
Proof.
  unfold incAll. revert m. induction keys as [|key t IH]; intros m Hp; simpl;
    [reflexivity|].
  rewrite IH by now apply inc_proto. rewrite inc_keys by exact Hp.
  now destruct (notProto key).
Qed.

Lemma Map_fold_addKey (es m : list (jsstring * unit)) :
  map fst (fold_left (fun m e => Map_set str_eqb m (fst e) (snd e)) es m)
  = fold_left addKey (map fst es) (map fst m).
Proof.
  revert m. induction es as [|e t IH]; intros m; simpl; [reflexivity|].
  rewrite IH, Map_set_keys. reflexivity.
Qed.

Lemma addKey_firstOccurrences (keys : list jsstring) :
  fold_left addKey keys [] = firstOccurrences str_eqb keys.
Proof.
  pose proof (Map_fold_addKey (map (fun k => (k, tt)) keys) []) as H.
  pose proof (Map_new_keys str_eqb str_eqb_eq (map (fun k => (k, tt)) keys)) as H2.
  unfold Map_new in H2. rewrite H in H2. rewrite map_map in H2. simpl in H2.
  rewrite map_id in H2. exact H2.
Qed.

(** The keys of a distribution are the distinct values counted, created in
    the order in which the rows first show them ([Object.entries] lists
    them in that order behind the array-index keys); only ["__proto__"]
    never becomes a key.  [uniqueDomains] is the number of these keys for
    the lowercased domains. *)
Theorem distribution_keys_first_seen (h : Host) (input : jsstring)
        (options : AnalyzeOptions) (k : nat) :
  let a := run (analyzeLinks h input options) k in
  let d := LinkAnalysis.distributions a in
  let items := LinkAnalysis.items a in
  let domains := map (toLowerCase h) (countedKeys LinkRow.domain items) in
  map fst (Distributions.protocol d)
  = firstOccurrences str_eqb (filter notProto (countedKeys LinkRow.protocol items))
  /\ map fst (Distributions.domain d)
     = firstOccurrences str_eqb (filter notProto domains)
  /\ map fst (Distributions.tld d)
     = firstOccurrences str_eqb (filter notProto (countedKeys LinkRow.tld items))
  /\ Metrics.uniqueDomains (LinkAnalysis.metrics a)
     = List.length (firstOccurrences str_eqb (filter notProto domains)).
Proof.
  cbv zeta. destruct (distributions_of_run h input options k) as (Hp & Hd & Ht).
  assert (Hkeys : forall keys, map fst (incAll h keys [])
                               = firstOccurrences str_eqb (filter notProto keys)).
  { intros keys. rewrite incAll_keys by reflexivity. apply addKey_firstOccurrences. }
  rewrite Hp, Ht, !Hkeys. rewrite Hd at 1. rewrite Hkeys.
  repeat split.
  destruct (analyzeLinks_run h input options k) as (_ & _ & -> & Hdist).
  unfold metricsOf. cbn [Metrics.uniqueDomains].
  rewrite <- Hkeys, length_map.
  rewrite <- Hd, Hdist. reflexivity.
Qed.

(** ** The scheme of a parsed URL *)

Ltac case_head_if :=
  match goal with
  | |- (if ?b then _ else _) = _ -> _ => destruct b
  end.

Section ParsedScheme.

Variable idna : list N -> option (list N).

Lemma schemeState_extends (r buffer sch rest : list N) :
  Url.schemeState buffer r = Some (sch, rest) -> exists t, sch = buffer ++ t.
Proof.
  revert buffer. induction r as [|c r IH]; intros buffer; simpl; [discriminate|].
  match goal with |- (if ?b then _ else _) = _ -> _ => destruct b end.
  - intros H. destruct (IH _ H) as (t & ->). exists (asciiLower c :: t).
    now rewrite <- app_assoc.
  - match goal with |- (if ?b then _ else _) = _ -> _ => destruct b end;
      [|discriminate].
    intros H. inversion H; subst. exists []. now rewrite app_nil_r.
Qed.

Lemma schemeStartState_letter (r sch rest : list N) :
  Url.schemeStartState r = Some (sch, rest) ->
  exists c t, sch = asciiLower c :: t /\ isAlpha c = true.
Proof.
  destruct r as [|c r]; simpl; [discriminate|].
  destruct (isAlpha c) eqn:E; [|discriminate]. intros H.
  destruct (schemeState_extends _ _ H) as (t & ->). now exists c, t.
Qed.

Lemma afterHost_scheme (special : bool) (sch buffer : list N) (portFollows : bool)
      (r : list N) (u : Url.URLRecord) :
  Url.afterHost idna special sch buffer portFollows r = Some u -> Url.scheme u = sch.
Proof.
  unfold Url.afterHost.
  destruct (Url.parseHost idna buffer (negb special)); [|discriminate].
  destruct portFollows.
  - destruct (Url.portState special sch [] r) as [[p r']|]; [|discriminate].
    intros H. inversion H. reflexivity.
  - intros H. inversion H. reflexivity.
Qed.

Lemma hostState_scheme (special : bool) (sch : list N) (r : list N)
      (inside : bool) (buffer : list N) (u : Url.URLRecord) :
  Url.hostState idna special sch inside buffer r = Some u -> Url.scheme u = sch.
Proof.
  revert inside buffer.
  induction r as [|c r IH]; intros inside buffer; cbn [Url.hostState].
  - case_head_if; [discriminate | apply afterHost_scheme].
  - case_head_if.
    + case_head_if; [discriminate | apply afterHost_scheme].
    + case_head_if.
      * case_head_if; [discriminate | apply afterHost_scheme].
      * apply IH.
Qed.

Lemma fromAuthority_scheme (special : bool) (sch r : list N) (u : Url.URLRecord) :
  Url.fromAuthority idna special sch r = Some u -> Url.scheme u = sch.
Proof.
  unfold Url.fromAuthority.
  destruct (Url.authorityState special false [] r); [|discriminate].
  apply hostState_scheme.
Qed.

Lemma fileHostState_scheme (sch r : list N) (u : Url.URLRecord) :
  Url.fileHostState idna sch r = Some u -> Url.scheme u = sch.
Proof.
  unfold Url.fileHostState.
  destruct (Url.breakAt _ r) as [buffer rest].
  destruct (Url.isWindowsDriveLetter buffer);
    [intros H; inversion H; reflexivity|].
  destruct (str_eqb buffer []); [intros H; inversion H; reflexivity|].
  destruct (Url.parseHost idna buffer false); [|discriminate].
  intros H. inversion H. reflexivity.
Qed.

Lemma fileState_scheme (sch r : list N) (u : Url.URLRecord) :
  Url.fileState idna sch r = Some u -> Url.scheme u = sch.
Proof.
  unfold Url.fileState, Url.fileSlashState.
  destruct r as [|c r]; [intros H; inversion H; reflexivity|].
  destruct (Url.isSlash c); [|intros H; inversion H; reflexivity].
  destruct r as [|d r]; [intros H; inversion H; reflexivity|].
  destruct (Url.isSlash d); [|intros H; inversion H; reflexivity].
  apply fileHostState_scheme.
Qed.

(** The scheme of a URL the parser accepts starts with a lowercased ASCII
    letter. *)
Lemma parse_scheme (s : jsstring) (u : Url.URLRecord) :
  Url.parse idna s = Some u ->
  exists c t, Url.scheme u = asciiLower c :: t /\ isAlpha c = true.
Proof.
  unfold Url.parse.
  match goal with
  | |- match Url.schemeStartState ?x with _ => _ end = _ -> _ =>
      destruct (Url.schemeStartState x) as [[sch r]|] eqn:E; [|discriminate]
  end.
  apply schemeStartState_letter in E. intros H.
  assert (Hs : Url.scheme u = sch).
  { destruct (str_eqb sch (js "file")); [now apply fileState_scheme in H|].
    destruct (Url.isSpecial sch); [now apply fromAuthority_scheme in H|].
    destruct r as [|c r]; [inversion H; reflexivity|].
    destruct (c =? ch "/")%N; [|inversion H; reflexivity].
    destruct r as [|d r]; [inversion H; reflexivity|].
    destruct (d =? ch "/")%N; [now apply fromAuthority_scheme in H|].
    inversion H; reflexivity. }
  now rewrite Hs.
Qed.

End ParsedScheme.

Lemma asciiLower_letter (c : unit16) :
  isAlpha c = true -> isLower (asciiLower c) = true.
Proof.
  unfold isAlpha, asciiLower, isLower, isUpper. intros H.
  destruct ((65 <=? c) && (c <=? 90))%N eqn:E; simpl in H.
  - apply andb_true_iff in E. destruct E as [E1 E2].
    apply N.leb_le in E1, E2. apply andb_true_iff.
    split; apply N.leb_le; lia.
  - exact H.
Qed.

(** A valid row has a protocol that is not empty and starts with a
    lowercase ASCII letter. *)
Lemma buildRow_protocol (h : Host) (rowId raw normalized : jsstring) :
  let r := buildRow h rowId raw normalized in
  LinkRow.isValid r = true ->
  exists c t, LinkRow.protocol r = Some (c :: t) /\ isLower c = true.
Proof.
  unfold buildRow, new_URL.
  destruct (Url.parse (unicode_domainToASCII h) normalized) as [u|] eqn:E;
    simpl; [|discriminate].
  intros _. destruct (parse_scheme _ _ E) as (c & t & Hs & Hc).
  unfold Url.protocol. rewrite Hs. apply asciiLower_letter in Hc.
  exists (asciiLower c). simpl.
  destruct (asciiLower c =? 58)%N eqn:E2.
  - apply N.eqb_eq in E2. rewrite E2 in Hc. discriminate.
  - eexists. split; [reflexivity | exact Hc].
Qed.

(** ** Sums of counts *)

Lemma getOwn_In (m : Dict) (key : jsstring) (v : PropValue) :
  getOwn m key = Some v -> In (key, v) m.
Proof.
  induction m as [|[k w] t IH]; simpl; [discriminate|].
  destruct (str_eqb k key) eqn:E.
  - apply str_eqb_eq in E. subst k. intros H. inversion H. now left.
  - intros H. right. auto.
Qed.

Lemma setOwn_Forall (P : jsstring * PropValue -> Prop) (m : Dict)
      (key : jsstring) (v : PropValue) :
  Forall P m -> P (key, v) -> Forall P (setOwn m key v).
Proof.
  intros Hm Hv. induction Hm as [|[k w] t Hk Ht IH]; simpl.
  - now constructor.
  - destruct (str_eqb k key) eqn:E.
    + apply str_eqb_eq in E. subst k. now constructor.
    + now constructor.
Qed.

Lemma setOwn_sum (m : Dict) (key : jsstring) (v : PropValue) :
  (sumNumbers (setOwn m key v) + numberIn (getOwn m key)
   = sumNumbers m + numberIn (Some v))%N.
Proof.
  induction m as [|[k w] t IH]; simpl.
  - destruct v; simpl; lia.
  - destruct (str_eqb k key); simpl in IH |- *.
    + destruct w, v; simpl; lia.
    + destruct w; simpl; lia.
Qed.

Lemma inc_wellKept (h : Host) (m : Dict) (key : jsstring) :
  wellKept m -> wellKept (inc h m key).
Proof.
  intros Hm. unfold inc. destruct (getOwn m key) as [[n|s]|] eqn:G.
  - apply setOwn_Forall; [exact Hm|]. apply getOwn_In in G.
    unfold wellKept in Hm. rewrite Forall_forall in Hm. exact (Hm _ G).
  - apply setOwn_Forall; [exact Hm|]. apply getOwn_In in G.
    unfold wellKept in Hm. rewrite Forall_forall in Hm. exact (Hm _ G).
  - destruct (existsb (str_eqb key) objectPrototypeKeys) eqn:E.
    + destruct (str_eqb key (js "__proto__")); [exact Hm|].
      apply setOwn_Forall; [exact Hm | exact E].
    + apply setOwn_Forall; [exact Hm | exact E].
Qed.

Lemma inc_sum (h : Host) (m : Dict) (key : jsstring) :
  wellKept m ->
  sumNumbers (inc h m key)
  = (sumNumbers m + if inherited key then 0 else 1)%N.
Proof.
  intros Hm. unfold inc, inherited.
  destruct (getOwn m key) as [[n|s]|] eqn:G.
  - pose proof (setOwn_sum m key (NumberValue (n + 1))) as H. rewrite G in H.
    apply getOwn_In in G. unfold wellKept in Hm. rewrite Forall_forall in Hm.
    specialize (Hm _ G). simpl in Hm. unfold inherited in Hm. rewrite Hm.
    simpl in H. lia.
  - pose proof (setOwn_sum m key (StringValue (s ++ js "1"))) as H. rewrite G in H.
    apply getOwn_In in G. unfold wellKept in Hm. rewrite Forall_forall in Hm.
    specialize (Hm _ G). simpl in Hm. unfold inherited in Hm. rewrite Hm.
    simpl in H. lia.
  - destruct (existsb (str_eqb key) objectPrototypeKeys).
    + destruct (str_eqb key (js "__proto__")); [lia|].
      pose proof (setOwn_sum
                    m key (StringValue (Object_prototype_text h key ++ js "1"))) as H.
      rewrite G in H. simpl in H. lia.
    + pose proof (setOwn_sum m key (NumberValue 1)) as H.
      rewrite G in H. simpl in H. lia.
Qed.

Lemma incAll_sum (h : Host) (keys : list jsstring) (m : Dict) :
  wellKept m ->
  (sumNumbers (incAll h keys m)
   + N.of_nat (List.length (filter inherited keys))
   = sumNumbers m + N.of_nat (List.length keys))%N.
Proof.
  unfold incAll. revert m. induction keys as [|key t IH]; intros m Hm; simpl;
    [lia|].
  specialize (IH (inc h m key) (inc_wellKept h key Hm)).
  rewrite (inc_sum h key Hm) in IH.
  destruct (inherited key); simpl List.length; lia.
Qed.

Lemma items_protocol (h : Host) (input : jsstring) (options : AnalyzeOptions)
      (k : nat) :
  Forall (fun r => if LinkRow.isValid r then truthy (LinkRow.protocol r) = true
                   else LinkRow.protocol r = None)
         (LinkAnalysis.items (run (analyzeLinks h input options) k)).
Proof.
  eapply Forall2_range; [|apply analyzeLinks_items]. intros it r [rowId ->].
  destruct (LinkRow.isValid (buildRow h rowId (fst it) (snd it))) eqn:E.
  - destruct (buildRow_protocol h rowId (fst it) (snd it) E) as (c & t & -> & _).
    reflexivity.
  - now destruct (buildRow_invalid h rowId (fst it) (snd it) E) as (_ & _ & H & _).
Qed.

Lemma countedKeys_valid (items : list LinkRow.t) :
  Forall (fun r => if LinkRow.isValid r then truthy (LinkRow.protocol r) = true
                   else LinkRow.protocol r = None) items ->
  List.length (countedKeys LinkRow.protocol items)
  = List.length (filter LinkRow.isValid items).
Proof.
  unfold countedKeys. induction 1 as [|r t Hr _ IH]; simpl; [reflexivity|].
  rewrite length_app, IH. destruct (LinkRow.isValid r).
  - destruct (LinkRow.protocol r) as [[|c p]|]; simpl in *; try discriminate.
    reflexivity.
  - now rewrite Hr.
Qed.

(** The counts of the protocol distribution add up to [valid], less the
    valid rows whose protocol is a property name of [Object.prototype];
    the counts of the domain and tld distributions add up to the rows that
    have the field, less those whose value is such a name. *)
Theorem distribution_sums (h : Host) (input : jsstring)
        (options : AnalyzeOptions) (k : nat) :
  let a := run (analyzeLinks h input options) k in
  let d := LinkAnalysis.distributions a in
  let items := LinkAnalysis.items a in
  let protocols := countedKeys LinkRow.protocol items in
  let domains := map (toLowerCase h) (countedKeys LinkRow.domain items) in
  let tlds := countedKeys LinkRow.tld items in
  (sumNumbers (Distributions.protocol d)
   + N.of_nat (List.length (filter inherited protocols))
   = N.of_nat (Metrics.valid (LinkAnalysis.metrics a)))%N
  /\ (sumNumbers (Distributions.domain d)
      + N.of_nat (List.length (filter inherited domains))
      = N.of_nat (List.length domains))%N
  /\ (sumNumbers (Distributions.tld d)
      + N.of_nat (List.length (filter inherited tlds))
      = N.of_nat (List.length tlds))%N.
Proof.
  cbv zeta. destruct (distributions_of_run h input options k) as (-> & -> & ->).
  assert (H0 : wellKept []) by constructor.
  pose proof (fun keys => incAll_sum h keys H0) as Hsum. simpl in Hsum.
  split; [|split; apply Hsum].
  rewrite Hsum. f_equal.
  rewrite (countedKeys_valid (items_protocol h input options k)).
  destruct (analyzeLinks_run h input options k) as (_ & _ & -> & _).
  unfold metricsOf, tallyOf. cbn [Metrics.valid].
  destruct (tally_filters
              h (LinkAnalysis.items (run (analyzeLinks h input options) k))
              emptyTally) as (Hv & _).
  simpl in Hv. now rewrite Hv.
Qed.

(** * Splitting what was joined *)

Lemma splitLinesFrom_line (l cur rest : jsstring) :
  ~ In 10%N l -> last l 0%N <> 13%N ->
  splitLinesFrom cur (l ++ 10%N :: rest) = (rev cur ++ l) :: splitLinesFrom [] rest.
Proof.
  revert cur. induction l as [|c l IH]; intros cur Hlf Hcr.
  - simpl. now rewrite app_nil_r.
  - assert (Hc : (c =? 10)%N = false).
    { apply N.eqb_neq. intros E. apply Hlf. now left. }
    assert (Hlf' : ~ In 10%N l) by (intros H; apply Hlf; now right).
    destruct l as [|d l].
    + change (([c] ++ 10%N :: rest)) with (c :: 10%N :: rest).
      rewrite splitLinesFrom_two, Hc.
      assert (Hc13 : (c =? 13)%N = false) by (apply N.eqb_neq; exact Hcr).
      rewrite Hc13. cbn [andb].
      transitivity ((rev (c :: cur) ++ []) :: splitLinesFrom [] rest).
      * apply (IH (c :: cur) Hlf'). simpl. discriminate.
      * simpl. now rewrite app_nil_r.
    + change ((c :: d :: l) ++ 10%N :: rest) with (c :: d :: (l ++ 10%N :: rest)).
      rewrite splitLinesFrom_two, Hc.
      assert (Hd : (d =? 10)%N = false).
      { apply N.eqb_neq. intros E. apply Hlf'. now left. }
      rewrite Hd, andb_false_r.
      change (d :: (l ++ 10%N :: rest)) with ((d :: l) ++ 10%N :: rest).
      rewrite (IH (c :: cur) Hlf' Hcr). simpl. now rewrite <- app_assoc.
Qed.

Lemma splitLinesFrom_last (l cur : jsstring) :
  ~ In 10%N l -> splitLinesFrom cur l = [rev cur ++ l].
Proof.
  revert cur. induction l as [|c l IH]; intros cur Hlf.
  - simpl. now rewrite app_nil_r.
  - assert (Hc : (c =? 10)%N = false).
    { apply N.eqb_neq. intros E. apply Hlf. now left. }
    assert (Hlf' : ~ In 10%N l) by (intros H; apply Hlf; now right).
    destruct l as [|d l].
    + simpl. rewrite Hc. reflexivity.
    + rewrite splitLinesFrom_two, Hc.
      assert (Hd : (d =? 10)%N = false).
      { apply N.eqb_neq. intros E. apply Hlf'. now left. }
      rewrite Hd, andb_false_r, (IH (c :: cur) Hlf'). simpl.
      now rewrite <- app_assoc.
Qed.

(** Lines joined with line feeds are split into the same lines again,
    provided none holds a line feed or ends with a carriage return (which
    the split would take for part of the line break). *)
Theorem splitLines_joined (l : jsstring) (ls : list jsstring) :
  Forall (fun x => ~ In 10%N x /\ last x 0%N <> 13%N) (l :: ls) ->
  splitLines (Array_join [10%N] (l :: ls)) = l :: ls.
Proof.
  unfold splitLines. revert l. induction ls as [|l2 ls IH]; intros l H.
  - inversion H as [|? ? [Hlf _] _]; subst. simpl.
    now rewrite splitLinesFrom_last.
  - inversion H as [|? ? [Hlf Hcr] Hrest]; subst.
    rewrite Array_join_two. change ([10%N] ++ ?x) with (10%N :: x).
    rewrite splitLinesFrom_line by assumption. simpl rev. simpl app at 1.
    now rewrite IH.
Qed.

Lemma splitLines_joined_witness :
  splitLines (Array_join [10%N] Home.exampleLines) = Home.exampleLines.
Proof.
  apply (@splitLines_joined
           (js "https://vercel.com") (tl Home.exampleLines)).
  repeat constructor; try discriminate;
    (vm_compute; intros H; repeat (destruct H as [H|H]; [discriminate|]); exact H).
Defined.
